(** * autocontainer: the runtime container and its forwarding placeholder

    A shallow embedding of [RuntimeContainer] (provide, bind, inner, make and
    the private [#make]) and of [lazy]/[isLazy], with the properties of the
    resolution engine stated and proved over it.

    User code (providers, factories, test scenarios) is a small command tree
    [prog]; the container itself is a set of Rocq functions over an explicit
    [world] that holds every container object, every closure made by [lazy]
    and the object heap. The two functions of the transformer that compute
    the tokens are embedded next to it. *)

From Stdlib Require Import ZArith Lia Ascii.
From Stdlib Require DecimalString DecimalNat.
From stdpp Require Import gmap strings list fin_maps relations.

Local Open Scope Z_scope.
Local Open Scope nat_scope.

(** ** Values *)

(** Object identities are allocation numbers. A [VLazy l] is the [Proxy] that
    the [l]-th call of [lazy] returned; a [VWrap f l] is the inner
    [new Proxy(result, { apply })] that the [get] trap of that placeholder
    returns around a function [f]. *)
Inductive value :=
| VUndef
| VObj (o : nat)
| VFun (f : nat)
| VLazy (l : nat)
| VWrap (f : value) (l : nat).

#[global] Instance value_eq_dec : EqDecision value.
Proof. solve_decision. Defined.

Inductive exn :=
| Error (message : string)
| TypeError (message : string)
| Thrown (v : value).

(** The operations a [Proxy] handler can intercept, with the arguments the
    host passes to the trap. *)
Inductive trap :=
| T_apply (thisArg : value) (argArray : list value)
| T_construct (argArray : list value) (newTarget : value)
| T_defineProperty (property : string) (attributes : value)
| T_deleteProperty (p : string)
| T_get (p : string) (receiver : value)
| T_getOwnPropertyDescriptor (p : string)
| T_getPrototypeOf
| T_has (p : string)
| T_isExtensible
| T_ownKeys
| T_preventExtensions
| T_set (p : string) (newValue : value) (receiver : value)
| T_setPrototypeOf (v : value).

(** [BindOptions]: a JS object on which the code tests the presence of the
    keys [singleton] and [pool]. [None] is an absent key; the numbers given
    as [pool] are the integers. *)
Record BindOptions := {
  opt_singleton : option bool;
  opt_pool : option Z
}.

(** ** User code

    Providers, factories and callers are command trees over the operations
    they can perform on the container and on values. *)
Inductive prog :=
| Ret (v : value)
| Throw (e : exn)
| New (fields : gmap string value) (k : value -> prog)
| Make (c : nat) (token : string) (classHint : option value) (k : value -> prog)
| Provide (c : nat) (token : string) (provider : nat -> option value -> prog)
    (bindOptions : option BindOptions) (k : prog)
| Bind (c : nat) (bindOptions : option BindOptions) (abstractToken concreteToken : string)
    (concreteClassHint : option value) (k : prog)
| Inner (c : nat) (k : nat -> prog)
| Op (t : trap) (target : value) (k : value -> prog)
| Try (body : prog) (handler : exn -> prog) (k : value -> prog).

(** [type Provider<T> = (container, classHint?) => T] *)
Abbreviation Provider := (nat -> option value -> prog).

(** ** The container object *)

Record RuntimeContainer := {
  parent : option nat;
  providers : gmap string Provider;
  hints : gmap string value;
  bindings : gmap string string;
  bindOptions : gmap string BindOptions;
  makeStack : list string;
  pool : gmap string (list value)
}.

(** The closure state of one call of [lazy]: the captured [factory] and the
    local variables [instance] and [initialized]. *)
Record lazy_cell := {
  factory : prog;
  instance : value;
  initialized : bool
}.

Record world := {
  scopes : list RuntimeContainer;
  cells : list lazy_cell;
  heap : list (gmap string value)
}.

(** A run ends with a returned value or a thrown exception and the world it
    leaves; [None] is a run that did not finish within its fuel (or that
    followed a reference no object of the world carries). *)
Definition outcome := option ((value + exn) * world).

(** *** Field updates *)

Definition set_providers (f : gmap string Provider -> gmap string Provider)
    (sc : RuntimeContainer) : RuntimeContainer :=
  {| parent := parent sc; providers := f (providers sc); hints := hints sc;
     bindings := bindings sc; bindOptions := bindOptions sc;
     makeStack := makeStack sc; pool := pool sc |}.

Definition set_hints (f : gmap string value -> gmap string value)
    (sc : RuntimeContainer) : RuntimeContainer :=
  {| parent := parent sc; providers := providers sc; hints := f (hints sc);
     bindings := bindings sc; bindOptions := bindOptions sc;
     makeStack := makeStack sc; pool := pool sc |}.

Definition set_bindings (f : gmap string string -> gmap string string)
    (sc : RuntimeContainer) : RuntimeContainer :=
  {| parent := parent sc; providers := providers sc; hints := hints sc;
     bindings := f (bindings sc); bindOptions := bindOptions sc;
     makeStack := makeStack sc; pool := pool sc |}.

Definition set_bindOptions (f : gmap string BindOptions -> gmap string BindOptions)
    (sc : RuntimeContainer) : RuntimeContainer :=
  {| parent := parent sc; providers := providers sc; hints := hints sc;
     bindings := bindings sc; bindOptions := f (bindOptions sc);
     makeStack := makeStack sc; pool := pool sc |}.

Definition set_makeStack (f : list string -> list string)
    (sc : RuntimeContainer) : RuntimeContainer :=
  {| parent := parent sc; providers := providers sc; hints := hints sc;
     bindings := bindings sc; bindOptions := bindOptions sc;
     makeStack := f (makeStack sc); pool := pool sc |}.

Definition set_pool (f : gmap string (list value) -> gmap string (list value))
    (sc : RuntimeContainer) : RuntimeContainer :=
  {| parent := parent sc; providers := providers sc; hints := hints sc;
     bindings := bindings sc; bindOptions := bindOptions sc;
     makeStack := makeStack sc; pool := f (pool sc) |}.

Definition upd_scope (s : nat) (f : RuntimeContainer -> RuntimeContainer)
    (w : world) : world :=
  {| scopes := alter f s (scopes w); cells := cells w; heap := heap w |}.

Definition set_heap (h : list (gmap string value)) (w : world) : world :=
  {| scopes := scopes w; cells := cells w; heap := h |}.

Definition set_instance (v : value) (c : lazy_cell) : lazy_cell :=
  {| factory := factory c; instance := v; initialized := initialized c |}.

Definition upd_cell (l : nat) (f : lazy_cell -> lazy_cell) (w : world) : world :=
  {| scopes := scopes w; cells := alter f l (cells w); heap := heap w |}.

(** ** lazy.ts *)

(** [lazies] is a [WeakSet] that receives every proxy [lazy] builds (the
    last statement before its [return]) and nothing else, and the [VLazy]
    values are exactly those proxies: [lazies.has(value)] is the test that
    [value] is one of them. *)
Definition isLazy (v : value) : bool :=
  match v with
  | VLazy _ => true
  | _ => false
  end.

(** [lazy(factory)]: a new closure with [instance] undefined and
    [initialized] false, and the proxy that stands for it. *)
Definition lazy (f : prog) (w : world) : value * world :=
  (VLazy (length (cells w)),
   {| scopes := scopes w;
      cells := cells w ++ [ {| factory := f; instance := VUndef; initialized := false |} ];
      heap := heap w |}).

(** [typeof result === "function"]: functions, and proxies whose target is
    a function. The placeholder's own target is the plain object [{}]. *)
Definition typeof_function (v : value) : bool :=
  match v with
  | VFun _ | VWrap _ _ => true
  | _ => false
  end.

(** ** RuntimeContainer.ts: the operations that do not call user code *)

(** [new RuntimeContainer(parent)] *)
Definition new_container (p : option nat) : RuntimeContainer :=
  {| parent := p; providers := ∅; hints := ∅; bindings := ∅;
     bindOptions := ∅; makeStack := []; pool := ∅ |}.

(** [Container.create()]: a root container; its identity is returned. *)
Definition create (w : world) : nat * world :=
  (length (scopes w),
   {| scopes := scopes w ++ [new_container None]; cells := cells w; heap := heap w |}).

(** [inner()] *)
Definition inner (s : nat) (w : world) : nat * world :=
  (length (scopes w),
   {| scopes := scopes w ++ [new_container (Some s)]; cells := cells w; heap := heap w |}).

(** The [if (bindOptions) set else delete] of [provide] and [bind]. *)
Definition store_options (token : string) (o : option BindOptions)
    (m : gmap string BindOptions) : gmap string BindOptions :=
  match o with
  | Some opts => <[token := opts]> m
  | None => delete token m
  end.

Definition provide (s : nat) (token : string) (provider : Provider)
    (o : option BindOptions) (w : world) : world :=
  upd_scope s (fun sc =>
    set_bindOptions (store_options token o)
      (set_providers (<[token := provider]>) sc)) w.

(** [bind(bindOptions, abstractToken, concreteToken, concreteClassHint)];
    [if (concreteClassHint)] fails for a hint that is left out and for
    [undefined]. *)
Definition bind (s : nat) (o : option BindOptions) (abstractToken concreteToken : string)
    (concreteClassHint : option value) (w : world) : world :=
  upd_scope s (fun sc =>
    let sc1 := if decide (abstractToken = concreteToken) then sc
               else set_bindings (<[abstractToken := concreteToken]>) sc in
    let sc2 := match concreteClassHint with
               | None | Some VUndef => sc1
               | Some h => set_hints (<[concreteToken := h]>) sc1
               end in
    set_bindOptions (store_options abstractToken o) sc2) w.

(** The capacity [make] computes from the options of a token:
    [options == null ? undefined : "singleton" in options ? 1
     : "pool" in options ? options.pool : undefined]. *)
Definition pool_capacity (options : option BindOptions) : option Z :=
  match options with
  | None => None
  | Some o =>
      match opt_singleton o with
      | Some _ => Some 1%Z
      | None =>
          match opt_pool o with
          | Some n => Some n
          | None => None
          end
      end
  end.

(** [pool != null && pool > 0] *)
Definition pool_active (cap : option Z) : bool :=
  match cap with
  | Some n => (0 <? n)%Z
  | None => false
  end.

(** [Array.prototype.pop]: the last element ([undefined] on an empty
    array) and the array without it. *)
Definition array_pop (l : list value) : value * list value :=
  (List.last l VUndef, removelast l).

(** [token.split("@")] for a one-character separator. *)
Fixpoint split (sep : Ascii.ascii) (s : string) : list string :=
  match s with
  | EmptyString => [EmptyString]
  | String c r =>
      if Ascii.eqb c sep then EmptyString :: split sep r
      else match split sep r with
           | h :: t => String c h :: t
           | [] => [String c EmptyString]
           end
  end.

(** [token.split("@").shift()] inside the template literal. *)
Definition human_name (token : string) : string :=
  match split "@"%char token with
  | h :: _ => h
  | [] => "undefined"
  end.

Definition missing_provider (token : string) : exn :=
  Error ("No provider for " +:+ human_name token).

(** [if (binding)]: an absent entry and the empty string are both falsy. *)
Definition truthy_binding (b : option string) : option string :=
  match b with
  | Some EmptyString => None
  | Some t => Some t
  | None => None
  end.

(** [classHint ?? this.#hints.get(token)]: an argument that is left out and
    one that is [undefined] both give way to the registered hint. *)
Definition hint_or (classHint : option value) (registered : option value) : option value :=
  match classHint with
  | None | Some VUndef => registered
  | Some h => Some h
  end.

Definition push (s : nat) (token : string) (w : world) : world :=
  upd_scope s (set_makeStack (fun stk => stk ++ [token])) w.

Definition pop (s : nat) (w : world) : world :=
  upd_scope s (set_makeStack (@removelast string)) w.

Definition write_pool (s : nat) (token : string) (l : list value) (w : world) : world :=
  upd_scope s (set_pool (<[token := l]>)) w.

(** [let instances = this.#pool.get(token);
     if (instances == null) this.#pool.set(token, (instances = []))] *)
Definition init_pool (s : nat) (token : string) (sc : RuntimeContainer) (w : world)
    : list value * world :=
  match pool sc !! token with
  | Some l => (l, w)
  | None => ([], write_pool s token [] w)
  end.

(** The first [if (pool != null && pool > 0)] block of [make]: the array of
    the token is created when it is missing, and when it already holds
    [pool] instances the last one is popped, put back in front and returned
    (left); otherwise [make] goes on to resolve (right). *)
Definition cache_take (s : nat) (token : string) (cap : option Z)
    (sc : RuntimeContainer) (w : world) : (value * world) + world :=
  if pool_active cap then
    let (instances, w1) := init_pool s token sc w in
    if (default 0%Z cap <=? Z.of_nat (length instances))%Z then
      let (inst, rest) := array_pop instances in
      inl (inst, write_pool s token (inst :: rest) w1)
    else inr w1
  else inr w.

(** The second block, after [#make] has returned [result]:
    [const instances = this.#pool.get(token)!;
     if (!isLazy(result) && instances.length < pool) instances.unshift(result)]
    and [return result]. Reading [length] of a missing array throws. *)
Definition cache_put (s : nat) (token : string) (cap : option Z)
    (result : value) (w : world) : outcome :=
  if pool_active cap then
    match scopes w !! s with
    | None => None
    | Some sc =>
        match pool sc !! token with
        | None => Some (inr (TypeError "instances is undefined"), w)
        | Some instances =>
            if negb (isLazy result)
               && (Z.of_nat (length instances) <? default 0%Z cap)%Z
            then Some (inl result, write_pool s token (result :: instances) w)
            else Some (inl result, w)
        end
    end
  else Some (inl result, w).

(** ** Sequencing of outcomes *)

Definition and_then (o : outcome) (k : value -> world -> outcome) : outcome :=
  match o with
  | Some (inl v, w) => k v w
  | Some (inr e, w) => Some (inr e, w)
  | None => None
  end.

(** [try { ... } finally { cleanup }] *)
Definition finally (o : outcome) (cleanup : world -> world) : outcome :=
  match o with
  | Some (r, w) => Some (r, cleanup w)
  | None => None
  end.

Notation "'do' ( x , w ) <- o ; k" := (and_then o (fun x w => k))
  (at level 10, x name, w name, o at level 100, k at level 200,
   format "'[v' 'do'  ( x ,  w )  <-  o ; '/' k ']'").

(** ** The engine *)

(** The [TypeError]s of a [Proxy] whose target is the plain object [{}]
    (the wording is the engine's). *)
Definition not_a_function : exn := TypeError "proxy is not a function".
Definition not_a_constructor : exn := TypeError "proxy is not a constructor".
Definition target_is_extensible : exn :=
  TypeError "'preventExtensions' on proxy: trap returned truish but the proxy target is extensible".

(** The host's [Reflect.*] on a target that is not one of the proxies
    above: the operation, the target and the object heap give the result
    and the heap after it. *)
Definition Host : Type :=
  trap -> value -> list (gmap string value) -> (value + exn) * list (gmap string value).

Section Engine.

Variable Reflect : Host.

Definition host (t : trap) (target : value) (w : world) : outcome :=
  let (r, h) := Reflect t target (heap w) in Some (r, set_heap h w).

Fixpoint run (fuel : nat) (p : prog) (w : world) {struct fuel} : outcome :=
  match fuel with
  | 0 => None
  | S f =>
      match p with
      | Ret v => Some (inl v, w)
      | Throw e => Some (inr e, w)
      | New fields k =>
          run f (k (VObj (length (heap w)))) (set_heap (heap w ++ [fields]) w)
      | Make c token classHint k =>
          do (v, w1) <- make f c token classHint w;
          run f (k v) w1
      | Provide c token provider o k =>
          run f k (provide c token provider o w)
      | Bind c o a cc h k =>
          run f k (bind c o a cc h w)
      | Inner c k =>
          let (child, w1) := inner c w in run f (k child) w1
      | Op t target k =>
          do (v, w1) <- perform f t target w;
          run f (k v) w1
      | Try body handler k =>
          match run f body w with
          | Some (inl v, w1) => run f (k v) w1
          | Some (inr e, w1) =>
              do (v, w2) <- run f (handler e) w1;
              run f (k v) w2
          | None => None
          end
      end
  end

(** [make<T>(token, classHint?)] on the container [s]. *)
with make (fuel : nat) (s : nat) (token : string) (classHint : option value)
    (w : world) {struct fuel} : outcome :=
  match fuel with
  | 0 => None
  | S f =>
      match scopes w !! s with
      | None => None
      | Some sc =>
          let options := bindOptions sc !! token in
          let cap := pool_capacity options in
          match cache_take s token cap sc w with
          | inl (inst, w1) => Some (inl inst, w1)
          | inr w1 =>
              do (result, w2) <- make_internal f s token s classHint w1;
              cache_put s token cap result w2
          end
      end
  end

(** [#make<T>(token, container, classHint?)] on the container [s]. *)
with make_internal (fuel : nat) (s : nat) (token : string) (container : nat)
    (classHint : option value) (w : world) {struct fuel} : outcome :=
  match fuel with
  | 0 => None
  | S f =>
      match scopes w !! s with
      | None => None
      | Some sc =>
          match truthy_binding (bindings sc !! token) with
          | Some binding => make f s binding None w
          | None =>
              if bool_decide (token ∈ makeStack sc) then
                Some (let (p, w1) := lazy (Make s token classHint Ret) w in (inl p, w1))
              else
                finally
                  (match providers sc !! token with
                   | None =>
                       match parent sc with
                       | Some p =>
                           make_internal f p token container classHint (push s token w)
                       | None =>
                           Some (inr (missing_provider token), push s token w)
                       end
                   | Some provider =>
                       run f (provider container (hint_or classHint (hints sc !! token)))
                         (push s token w)
                   end)
                  (pop s)
          end
      end
  end

(** The inner function [get] of the closure [l]. *)
with get (fuel : nat) (l : nat) (w : world) {struct fuel} : outcome :=
  match fuel with
  | 0 => None
  | S f =>
      match cells w !! l with
      | None => None
      | Some c =>
          if negb (initialized c) then
            do (v, w1) <- run f (factory c) w;
            Some (inl v, upd_cell l (set_instance v) w1)
          else Some (inl (instance c), w)
      end
  end

(** An operation [t] on [target]: the handler of [lazy] when the target is
    a placeholder, the [apply] trap of the inner proxy when it is one, and
    the host otherwise. [Reflect.op(x, ...)] inside a trap is [perform] on
    [x], which may itself be a proxy.

    The placeholder is a [Proxy] over the plain object [{}], which is
    neither a function nor a constructor and is never locked, and the
    [Proxy] holds the handler to that: to call the placeholder or to
    construct with it throws a [TypeError] and no trap runs; the
    [preventExtensions] trap runs, and when [Reflect.preventExtensions] has
    returned on the instance the operation throws a [TypeError], the target
    being extensible still. What the other traps return is handed on as
    the host gives it: the values of the model hold no booleans and no
    property descriptors from which to tell the cases where the [Proxy]
    would refuse the answer of [isExtensible], [getOwnPropertyDescriptor]
    or [defineProperty] (an instance that is locked, a property that is not
    configurable). *)
with perform (fuel : nat) (t : trap) (target : value) (w : world) {struct fuel} : outcome :=
  match fuel with
  | 0 => None
  | S f =>
      match target with
      | VLazy l =>
          let proxy := VLazy l in
          match t with
          | T_get p receiver =>
              do (inst, w1) <- get f l w;
              do (recv, w2) <- (if decide (receiver = proxy) then get f l w1
                                else Some (inl receiver, w1));
              do (result, w3) <- perform f (T_get p recv) inst w2;
              if negb (typeof_function result) then Some (inl result, w3)
              else Some (inl (VWrap result l), w3)
          | T_set p newValue receiver =>
              do (inst, w1) <- get f l w;
              do (recv, w2) <- (if decide (receiver = proxy) then get f l w1
                                else Some (inl receiver, w1));
              perform f (T_set p newValue recv) inst w2
          | T_apply _ _ => Some (inr not_a_function, w)
          | T_construct _ _ => Some (inr not_a_constructor, w)
          | T_preventExtensions =>
              do (inst, w1) <- get f l w;
              do (_, w2) <- perform f t inst w1;
              Some (inr target_is_extensible, w2)
          | _ =>
              do (inst, w1) <- get f l w;
              perform f t inst w1
          end
      | VWrap fn l =>
          match t with
          | T_apply thisArg argArray =>
              do (this, w1) <- (if decide (thisArg = VLazy l) then get f l w
                                else Some (inl thisArg, w));
              perform f (T_apply this argArray) fn w1
          | _ => perform f t fn w
          end
      | _ => host t target w
      end
  end.

End Engine.

(** ** The lookup path of [make]

    [resolve] and [resolve_internal] make the tests of [make] and [#make] in
    the same order on the same worlds and stop where the code returns a
    cached instance, builds a placeholder, throws, or calls a provider; the
    provider is not run. *)
Inductive resolution :=
| RCached (v : value)
| RPlaceholder
| RProvider (fuel : nat) (call : prog) (w : world)
| RMissing (token : string).

Fixpoint resolve (fuel : nat) (s : nat) (token : string) (classHint : option value)
    (w : world) {struct fuel} : option resolution :=
  match fuel with
  | 0 => None
  | S f =>
      match scopes w !! s with
      | None => None
      | Some sc =>
          let cap := pool_capacity (bindOptions sc !! token) in
          match cache_take s token cap sc w with
          | inl (inst, _) => Some (RCached inst)
          | inr w1 => resolve_internal f s token s classHint w1
          end
      end
  end

with resolve_internal (fuel : nat) (s : nat) (token : string) (container : nat)
    (classHint : option value) (w : world) {struct fuel} : option resolution :=
  match fuel with
  | 0 => None
  | S f =>
      match scopes w !! s with
      | None => None
      | Some sc =>
          match truthy_binding (bindings sc !! token) with
          | Some binding => resolve f s binding None w
          | None =>
              if bool_decide (token ∈ makeStack sc) then Some RPlaceholder
              else
                match providers sc !! token with
                | None =>
                    match parent sc with
                    | Some p =>
                        resolve_internal f p token container classHint (push s token w)
                    | None => Some (RMissing token)
                    end
                | Some provider =>
                    Some (RProvider f
                            (provider container (hint_or classHint (hints sc !! token)))
                            (push s token w))
                end
          end
      end
  end.

(** ** Observations on a world *)

(** The resolution stack of the container [s] (empty for an identity no
    container carries yet). *)
Definition stack_of (w : world) (s : nat) : list string :=
  match scopes w !! s with
  | Some sc => makeStack sc
  | None => []
  end.

(** The instance cache of the container [s]. *)
Definition pool_of (w : world) (s : nat) : gmap string (list value) :=
  match scopes w !! s with
  | Some sc => pool sc
  | None => ∅
  end.

(** The instances cached for [token] on [s]. *)
Definition cached (w : world) (s : nat) (token : string) : list value :=
  default [] (pool_of w s !! token).

(** No instance cache of the world holds a placeholder. *)
Definition pools_clean (w : world) : Prop :=
  ∀ s token l v, pool_of w s !! token = Some l → v ∈ l → isLazy v = false.

(** ** Statements about runs *)

(** *** What every run preserves

    A relation between the world before and the world after that is closed
    under the single updates the engine performs is closed under every run
    of the engine. The stack is pushed and popped around a call, so it comes
    as a bracket; the three writes of the instance cache come with the
    tests that guard them. *)
Class Preserved (R : world → world → Prop) := {
  pres_refl w : R w w;
  pres_trans w1 w2 w3 : R w1 w2 → R w2 w3 → R w1 w3;
  pres_heap h w : R w (set_heap h w);
  pres_provide s token p o w : R w (provide s token p o w);
  pres_bind s o a c h w : R w (bind s o a c h w);
  pres_inner s w : R w (snd (inner s w));
  pres_lazy p w : R w (snd (lazy p w));
  pres_instance l v w : R w (upd_cell l (set_instance v) w);
  pres_init s token sc w :
    scopes w !! s = Some sc → pool sc !! token = None →
    R w (write_pool s token [] w);
  pres_recycle s token sc l w :
    scopes w !! s = Some sc → pool sc !! token = Some l →
    R w (write_pool s token (List.last l VUndef :: removelast l) w);
  pres_insert s token sc l v w :
    scopes w !! s = Some sc → pool sc !! token = Some l → isLazy v = false →
    R w (write_pool s token (v :: l) w);
  pres_bracket s token sc w w2 :
    scopes w !! s = Some sc → R (push s token w) w2 → R w (pop s w2)
}.

(** [R] relates the world before and the world after every finished call of
    the five functions of the engine. *)
Definition preserves (Reflect : Host) (R : world → world → Prop) (fuel : nat) : Prop :=
  (∀ p w r w', run Reflect fuel p w = Some (r, w') → R w w') ∧
  (∀ s token h w r w', make Reflect fuel s token h w = Some (r, w') → R w w') ∧
  (∀ s token c h w r w',
     make_internal Reflect fuel s token c h w = Some (r, w') → R w w') ∧
  (∀ l w r w', get Reflect fuel l w = Some (r, w') → R w w') ∧
  (∀ t v w r w', perform Reflect fuel t v w = Some (r, w') → R w w').

(** The resolution stacks are what they were. *)
Definition stacks_kept (w w' : world) : Prop :=
  ∀ s, stack_of w' s = stack_of w s.

(** No placeholder enters an instance cache. *)
Definition clean_kept (w w' : world) : Prop :=
  pools_clean w → pools_clean w'.

(** A closure of [lazy] keeps its factory and its [initialized] flag. *)
Definition closures_kept (w w' : world) : Prop :=
  ∀ l c, cells w !! l = Some c →
    ∃ c', cells w' !! l = Some c' ∧ factory c' = factory c ∧
          initialized c' = initialized c.

(** An array of the instance cache, once created, stays in the map. *)
Definition keys_kept (w w' : world) : Prop :=
  ∀ s token, is_Some (pool_of w s !! token) → is_Some (pool_of w' s !! token).

(** What [make] returns where its lookup path ends. *)
Definition classifies (Reflect : Host) (res : option resolution) (r : value + exn) : Prop :=
  match res with
  | Some (RCached v) => r = inl v
  | Some RPlaceholder => ∃ l, r = inl (VLazy l)
  | Some (RProvider f p w1) => ∃ w2, run Reflect f p w1 = Some (r, w2)
  | Some (RMissing t) => r = inr (missing_provider t)
  | None => False
  end.

(** The lookup path ends in the exception [e]: no provider anywhere, or a
    provider whose call throws [e]. *)
Definition raises (Reflect : Host) (res : resolution) (e : exn) : Prop :=
  match res with
  | RMissing t => e = missing_provider t
  | RProvider f p w1 => ∃ w2, run Reflect f p w1 = Some (inr e, w2)
  | _ => False
  end.

(** ** The condition of the missing-provider error

    What the lookup of a token finds, read off the registries as they are
    when [make] is called. *)

(** Containers are created by [inner()] on a container that exists: the
    parent of a container has the smaller handle. *)
Definition parents_first (w : world) : Prop :=
  ∀ s sc p, scopes w !! s = Some sc → parent sc = Some p → p < s.

(** No alias leads to the empty token. *)
Definition aliases_nonempty (w : world) : Prop :=
  ∀ s sc t, scopes w !! s = Some sc → bindings sc !! t ≠ Some EmptyString.

(** The container [a] attaches a policy of positive capacity to [t] and its
    cache of [t] holds that many instances: [make(t)] on [a] is answered
    from the cache. *)
Definition cache_serves (w : world) (a : nat) (t : string) : Prop :=
  ∃ sc n, scopes w !! a = Some sc ∧
          pool_capacity (bindOptions sc !! t) = Some n ∧ (0 < n)%Z ∧
          (n ≤ Z.of_nat (length (default [] (pool sc !! t))))%Z.

(** [unprovided w a t u]: looked up from the container [a] upwards, the
    token [t] leads to no provider, and [u] is the token that is missing in
    the end. At each container on the way, an alias of the token is
    followed there: the target is looked up by [make] on that same
    container, whose cache of the target must not answer; without an alias,
    the token is not being resolved there (no cycle short-circuit) and has
    no provider there, and the lookup goes on in the parent, or ends where
    there is none. *)
Inductive unprovided (w : world) : nat → string → string → Prop :=
| unprovided_alias a sc t t' u :
    scopes w !! a = Some sc →
    bindings sc !! t = Some t' →
    ¬ cache_serves w a t' →
    unprovided w a t' u →
    unprovided w a t u
| unprovided_parent a sc t p u :
    scopes w !! a = Some sc →
    bindings sc !! t = None →
    t ∉ makeStack sc →
    providers sc !! t = None →
    parent sc = Some p →
    unprovided w p t u →
    unprovided w a t u
| unprovided_root a sc t :
    scopes w !! a = Some sc →
    bindings sc !! t = None →
    t ∉ makeStack sc →
    providers sc !! t = None →
    parent sc = None →
    unprovided w a t t.

(** The container [a] registers the provider [p] for the token [t]. *)
Definition registered (w : world) (a : nat) (t : string) (p : Provider) : Prop :=
  ∃ sc, scopes w !! a = Some sc ∧ providers sc !! t = Some p.

(** Two states of a container with the same registrations, the same
    resolution stack and the same cached instances. *)
Definition same_container (x y : option RuntimeContainer) : Prop :=
  match x, y with
  | Some sc, Some sc' =>
      parent sc = parent sc' ∧ providers sc = providers sc' ∧
      hints sc = hints sc' ∧ bindings sc = bindings sc' ∧
      bindOptions sc = bindOptions sc' ∧ makeStack sc = makeStack sc' ∧
      ∀ t, default [] (pool sc !! t) = default [] (pool sc' !! t)
  | None, None => True
  | _, _ => False
  end.

(** The worlds [w] and [w'] hold the same containers up to the handle [a]. *)
Definition same_below (a : nat) (w w' : world) : Prop :=
  ∀ j, j ≤ a → same_container (scopes w !! j) (scopes w' !! j).

(** ** Delegation to the ancestors

    The way [#make] takes from the container [s] to the container [a]
    where it stops delegating, and [make] on [s] in the steps of the
    description of the algorithm. *)







(** ** Scenario material *)

(** A provider that builds a new instance at each call. *)
Definition fresh_instance : Provider := fun _ _ => New ∅ Ret.

(** A provider that resolves [dep] on the container it is given and stores
    the reference it receives in the instance it builds. *)
Definition depends_on (dep field : string) : Provider :=
  fun container _ => Make container dep None (fun v => New {[ field := v ]} Ret).

(** The container [s] resolves [token] by [fresh_instance] under a cache of
    capacity [n], the token has no alias and is not being resolved, and the
    cache of the token holds the instances [l]. *)
Definition fresh_slot (w : world) (s : nat) (token : string) (n : Z)
    (l : list value) : Prop :=
  ∃ sc, scopes w !! s = Some sc ∧
        pool_capacity (bindOptions sc !! token) = Some n ∧ (0 < n)%Z ∧
        truthy_binding (bindings sc !! token) = None ∧
        (token ∉ makeStack sc) ∧
        providers sc !! token = Some fresh_instance ∧
        default [] (pool sc !! token) = l.

Definition singleton_options (b : bool) : BindOptions :=
  {| opt_singleton := Some b; opt_pool := None |}.

Definition pool_options (n : Z) : BindOptions :=
  {| opt_singleton := None; opt_pool := Some n |}.

(** A host for the examples: plain data objects. A property read looks the
    field up in the target, a property write stores it in the receiver, the
    other operations answer [undefined]. *)
Definition plain_host : Host := fun t target h =>
  match t, target with
  | T_get p _, VObj o => (inl (default VUndef (h !! o ≫= (.!! p))), h)
  | T_set p v (VObj r), VObj _ => (inl VUndef, alter (<[p := v]>) r h)
  | _, VUndef => (inr (TypeError "Reflect called on non-object"), h)
  | _, _ => (inl VUndef, h)
  end.

Definition empty_world : world := {| scopes := []; cells := []; heap := [] |}.

(** [const root = Container.create()] *)
Definition root_world : world := snd (create empty_world).

(** [root.provide("C", f, { pool: 1 }); root.bind(undefined, "A", "C")] *)
Definition alias_world : world :=
  bind 0 None "A" "C" None
    (provide 0 "C" fresh_instance (Some (pool_options 1)) root_world).


(** [root.provide("T", f, { singleton: true }); const child = root.inner()] *)
Definition family_world : world :=
  snd (inner 0 (provide 0 "T" fresh_instance (Some (singleton_options true)) root_world)).

(** [root.provide("A", c => new A(c.make("B")), { singleton: true });
     root.provide("B", c => new B(c.make("A")), { singleton: true })] *)
Definition cycle_world : world :=
  provide 0 "B" (depends_on "A" "a") (Some (singleton_options true))
    (provide 0 "A" (depends_on "B" "b") (Some (singleton_options true)) root_world).

(** [root.provide("T", () => { throw new Error("boom") })] *)
Definition throwing_world : world :=
  provide 0 "T" (fun _ _ => Throw (Error "boom")) None root_world.

(** [const p = lazy(() => ({}))], the placeholder being [VLazy 0]. *)
Definition placeholder_world : world := snd (lazy (New ∅ Ret) root_world).

(** [root.bind(undefined, "Service", "Impl@src/impl.ts:10");
     const child = root.inner()] *)
Definition aliased_world : world :=
  snd (inner 0 (bind 0 None "Service" "Impl@src/impl.ts:10" None root_world)).

(** [root.bind(undefined, "A", "C"); const child = root.inner();
     child.provide("C", f)] *)
Definition split_world : world :=
  provide 1 "C" fresh_instance None
    (snd (inner 0 (bind 0 None "A" "C" None root_world))).


(** ** Further scenario material *)

(** A provider that builds, at each call, a new instance with the given
    fields. *)
Definition instance_of (fields : gmap string value) : Provider :=
  fun _ _ => New fields Ret.


(** [k] calls of [make(token, classHint)] on [s], one after the other: the
    results in the order of the calls, and the world after the last. *)
Fixpoint make_times (Reflect : Host) (k fuel s : nat) (token : string)
    (classHint : option value) (w : world) : option (list (value + exn) * world) :=
  match k with
  | 0 => Some ([], w)
  | S k' =>
      match make Reflect fuel s token classHint w with
      | None => None
      | Some (r, w1) =>
          match make_times Reflect k' fuel s token classHint w1 with
          | None => None
          | Some (rs, w2) => Some (r :: rs, w2)
          end
      end
  end.

(** No container of the world aliases a token to itself. *)
Definition no_self_alias (w : world) : Prop :=
  ∀ s sc token, scopes w !! s = Some sc → bindings sc !! token ≠ Some token.

Definition no_self_alias_kept (w w' : world) : Prop :=
  no_self_alias w → no_self_alias w'.

(** The containers of [w] are still there in [w'], each with the parent it
    had. *)
Definition parents_kept (w w' : world) : Prop :=
  ∀ s sc, scopes w !! s = Some sc →
    ∃ sc', scopes w' !! s = Some sc' ∧ parent sc' = parent sc.

(** The closure [l] is one that [#make] of the container [s] built for
    [token]: its deferred action is [make(token, classHint)] on [s]. *)
Definition deferred (w : world) (l s : nat) (token : string)
    (classHint : option value) : Prop :=
  ∃ c, cells w !! l = Some c ∧ factory c = Make s token classHint Ret ∧
       initialized c = false.

(** [token] is being resolved on the container [s], where it has no alias
    and no cached instance. *)
Definition in_flight (w : world) (s : nat) (token : string) : Prop :=
  ∃ sc, scopes w !! s = Some sc ∧
        truthy_binding (bindings sc !! token) = None ∧
        token ∈ makeStack sc ∧
        default [] (pool sc !! token) = [].

(** The operation the handler of the placeholder [l] hands to the host once
    [get()] has returned [v]: the placeholder as receiver is replaced by
    [v]. *)
Definition redirected (l : nat) (v : value) (t : trap) : trap :=
  match t with
  | T_get p receiver => T_get p (if decide (receiver = VLazy l) then v else receiver)
  | T_set p newValue receiver =>
      T_set p newValue (if decide (receiver = VLazy l) then v else receiver)
  | _ => t
  end.

(** What the handler of the placeholder [l] returns for the result of the
    host: a function read by [get] comes back inside the inner proxy. *)
Definition handed_back (l : nat) (t : trap) (o : outcome) : outcome :=
  match t with
  | T_get _ _ =>
      do (result, w) <- o;
      Some (inl (if typeof_function result then VWrap result l else result), w)
  | _ => o
  end.

(** The operations for which a trap of the placeholder runs: all but the
    call and the construction, which the [Proxy] refuses beforehand. *)
Definition trapped (t : trap) : bool :=
  match t with
  | T_apply _ _ | T_construct _ _ => false
  | _ => true
  end.

(** The operations whose answer the [Proxy] of the placeholder hands on
    whatever the instance is: its target [{}] is extensible and has no
    property, so the answers of these seven pass its checks; the answers
    of [isExtensible], [getOwnPropertyDescriptor] and [defineProperty] pass
    them for some instances only, that of [preventExtensions] never. *)
Definition handed_on (t : trap) : bool :=
  match t with
  | T_deleteProperty _ | T_get _ _ | T_getPrototypeOf | T_has _ | T_ownKeys
  | T_set _ _ _ | T_setPrototypeOf _ => true
  | _ => false
  end.

(** ** transformer.ts: the tokens

    The transformer names a type by a string, the token the container is
    called with. Of the compiler's objects the two functions below read, of
    a declaration: whether it has a [name] property, the text of the name
    when there is one, the file name of its source file and its start
    position; of a type: which of the four tests it passes, its member
    types, the text of its literal value, and the declarations of its
    symbol. *)
Record Declaration := {
  has_name : bool;
  name_text : option string;
  fileName : string;
  getStart : nat
}.

#[warnings="-register-all"] Inductive TsType :=
| Union (types : list TsType)
| Intersection (types : list TsType)
| Literal (value_toString : string)
| ClassOrInterface (declarations : option (list Declaration))
| OtherType.

(** [Array.prototype.join] on strings. *)
Fixpoint join (sep : string) (l : list string) : string :=
  match l with
  | [] => EmptyString
  | [x] => x
  | x :: r => x +:+ sep +:+ join sep r
  end.

Fixpoint strip_prefix (p s : string) : option string :=
  match p, s with
  | EmptyString, _ => Some s
  | String a p', String b s' => if Ascii.eqb a b then strip_prefix p' s' else None
  | String _ _, EmptyString => None
  end.

(** [s.replace(pattern, empty)] for a string pattern: its first occurrence is
    removed. *)
Fixpoint remove_first (pattern s : string) : string :=
  match strip_prefix pattern s with
  | Some rest => rest
  | None =>
      match s with
      | EmptyString => EmptyString
      | String c r => String c (remove_first pattern r)
      end
  end.

(** A position in a file, converted to a string by [+]. *)
Definition number_toString (n : nat) : string :=
  DecimalString.NilEmpty.string_of_uint (Nat.to_uint n).

(** [x || d] on a string that may be undefined. *)
Definition or_else (x : option string) (d : string) : string :=
  match x with
  | None | Some EmptyString => d
  | Some s => s
  end.

(** ["name" in dec] *)
Definition isNamedDeclaration (dec : Declaration) : bool := has_name dec.

(** The name of the declaration as the identifier displays it. *)
Definition display_name (dec : Declaration) : string :=
  default "anonymous" (name_text dec).

(** The file of the declaration, relative to the working directory. *)
Definition relative_file (cwd : string) (dec : Declaration) : string :=
  remove_first (cwd +:+ "/") (fileName dec).

Definition makePersistentDeclarationId (cwd : string) (dec : Declaration) : string :=
  display_name dec +:+ "@" +:+ relative_file cwd dec +:+ ":" +:+
  number_toString (getStart dec).

Fixpoint makePersistentTypeId (cwd : string) (type : TsType) : string :=
  match type with
  | Union types => join " | " (map (makePersistentTypeId cwd) types)
  | Intersection types => join " & " (map (makePersistentTypeId cwd) types)
  | Literal text => text
  | ClassOrInterface declarations =>
      or_else
        ((fun ds => join "," (map (makePersistentDeclarationId cwd)
                                (List.filter isNamedDeclaration ds)))
           <$> declarations)
        "unknown"
  | OtherType => "unknown"
  end.

(** The character [c] occurs in [s]. *)
Fixpoint occurs (c : Ascii.ascii) (s : string) : bool :=
  match s with
  | EmptyString => false
  | String a r => Ascii.eqb a c || occurs c r
  end.

(** Every cached instance is still cached. *)
Definition cached_kept (w w' : world) : Prop :=
  ∀ s token v, v ∈ cached w s token → v ∈ cached w' s token.

(** Every provider and every alias of a container is still registered,
    under the same token. *)
Definition registered_kept (w w' : world) : Prop :=
  ∀ s sc, scopes w !! s = Some sc →
    ∃ sc', scopes w' !! s = Some sc' ∧
      (∀ token, is_Some (providers sc !! token) → is_Some (providers sc' !! token)) ∧
      (∀ token, is_Some (bindings sc !! token) → is_Some (bindings sc' !! token)).

(** * Properties *)

Section Properties.

Variable Reflect : Host.

Local Abbreviation run := (run Reflect).
Local Abbreviation make := (make Reflect).
Local Abbreviation make_internal := (make_internal Reflect).
Local Abbreviation get := (get Reflect).
Local Abbreviation perform := (perform Reflect).
Local Abbreviation preserves := (preserves Reflect).
Local Abbreviation classifies := (classifies Reflect).
Local Abbreviation raises := (raises Reflect).

(** ** Lookups in an updated world *)

Lemma scopes_upd_eq s f w sc :
  scopes w !! s = Some sc → scopes (upd_scope s f w) !! s = Some (f sc).
Proof. intros H. simpl. by rewrite list_lookup_alter_eq, H. Qed.

Lemma scopes_upd_ne s s' f w :
  s ≠ s' → scopes (upd_scope s f w) !! s' = scopes w !! s'.
Proof. intros H. simpl. by rewrite list_lookup_alter_ne. Qed.

Lemma scopes_upd s s' f w :
  scopes (upd_scope s f w) !! s' =
  if decide (s = s') then f <$> scopes w !! s' else scopes w !! s'.
Proof.
  case_decide as E.
  - subst. simpl. by rewrite list_lookup_alter_eq.
  - by apply scopes_upd_ne.
Qed.

Lemma stack_of_upd s s' f w :
  stack_of (upd_scope s (set_makeStack f) w) s' =
  if decide (s = s') then
    match scopes w !! s with Some _ => f (stack_of w s) | None => [] end
  else stack_of w s'.
Proof.
  unfold stack_of. rewrite scopes_upd. case_decide as E; [subst|done].
  by destruct (scopes w !! s').
Qed.

Lemma stack_of_upd_same s s' f w :
  (∀ sc, makeStack (f sc) = makeStack sc) →
  stack_of (upd_scope s f w) s' = stack_of w s'.
Proof.
  intros Hf. unfold stack_of. rewrite scopes_upd.
  case_decide; [|done]. destruct (scopes w !! s'); simpl; [apply Hf|done].
Qed.

Lemma pool_of_upd_same s s' f w :
  (∀ sc, pool (f sc) = pool sc) →
  pool_of (upd_scope s f w) s' = pool_of w s'.
Proof.
  intros Hf. unfold pool_of. rewrite scopes_upd.
  case_decide; [|done]. destruct (scopes w !! s'); simpl; [apply Hf|done].
Qed.

Lemma pool_of_write s s' token l w :
  pool_of (write_pool s token l w) s' =
  if decide (s = s') then
    match scopes w !! s with Some _ => <[token := l]> (pool_of w s) | None => ∅ end
  else pool_of w s'.
Proof.
  unfold pool_of, write_pool. rewrite scopes_upd. case_decide as E; [subst|done].
  by destruct (scopes w !! s').
Qed.

Lemma scopes_inner s w s' :
  scopes (snd (inner s w)) !! s' =
  if decide (s' = length (scopes w)) then Some (new_container (Some s))
  else scopes w !! s'.
Proof.
  simpl. case_decide as E.
  - subst. by rewrite list_lookup_middle.
  - destruct (decide (s' < length (scopes w))) as [Hlt|Hge].
    + by rewrite lookup_app_l.
    + rewrite !lookup_ge_None_2; [done|lia|rewrite length_app; simpl; lia].
Qed.

Lemma and_then_Some o k r w' :
  and_then o k = Some (r, w') →
  (∃ v w1, o = Some (inl v, w1) ∧ k v w1 = Some (r, w')) ∨
  (∃ e, o = Some (inr e, w') ∧ r = inr e).
Proof.
  destruct o as [[[v|e] w1]|]; simpl; intros H; [left|right|done].
  - eauto.
  - inversion H; subst. eauto.
Qed.

Lemma finally_Some o g r w' :
  finally o g = Some (r, w') → ∃ w1, o = Some (r, w1) ∧ w' = g w1.
Proof.
  destruct o as [[r1 w1]|]; simpl; intros H; [|done].
  inversion H; subst. eauto.
Qed.

Lemma cache_take_spec s token cap sc w :
  match cache_take s token cap sc w with
  | inl (inst, w1) =>
      pool_active cap = true ∧
      ∃ l, pool sc !! token = Some l ∧ (default 0 cap ≤ Z.of_nat (length l))%Z ∧
           inst = List.last l VUndef ∧
           w1 = write_pool s token (List.last l VUndef :: removelast l) w
  | inr w1 =>
      (pool_active cap = false ∧ w1 = w) ∨
      (pool_active cap = true ∧
       ((∃ l, pool sc !! token = Some l ∧ w1 = w ∧
              (Z.of_nat (length l) < default 0 cap)%Z) ∨
        (pool sc !! token = None ∧ w1 = write_pool s token [] w)))
  end.
Proof.
  unfold cache_take. destruct (pool_active cap) eqn:Hact; [|by left].
  assert (0 < default 0 cap)%Z as Hpos.
  { destruct cap as [n|]; [|done]. simpl in *. lia. }
  unfold init_pool. destruct (pool sc !! token) as [l|] eqn:Hl.
  - destruct (_ <=? _)%Z eqn:Hle; simpl.
    + split; [done|]. exists l. repeat split; try done. lia.
    + right. split; [done|]. left. exists l. repeat split; try done. lia.
  - destruct (_ <=? _)%Z eqn:Hle.
    + exfalso. apply Z.leb_le in Hle. simpl in Hle. lia.
    + right. split; [done|]. by right.
Qed.

Lemma engine_preserves R `{!Preserved R} fuel : preserves R fuel.
Proof.
  induction fuel as [|f (IHrun & IHmake & IHint & IHget & IHperf)];
    [by repeat split; intros; discriminate|].
  assert (Hand : ∀ o k w r w',
    and_then o k = Some (r, w') →
    (∀ r1 w1, o = Some (r1, w1) → R w w1) →
    (∀ v w1 , o = Some (inl v, w1) → k v w1 = Some (r, w') → R w1 w') →
    R w w').
  { intros o k w r w' H Ho Hk.
    apply and_then_Some in H as [(v & w1 & -> & H)|(e & -> & ->)]; [|by (intros; simpl in *; eauto)].
    eapply pres_trans; [by eapply Ho|by eapply Hk]. }
  repeat split.
  - (* run *)
    intros p w r w' H. destruct p; simpl in H.
    + inversion H; subst. apply pres_refl.
    + inversion H; subst. apply pres_refl.
    + eapply pres_trans; [apply pres_heap|by eapply IHrun].
    + eapply Hand; [exact H|by (intros; simpl in *; eauto)|by (intros; simpl in *; eauto)].
    + eapply pres_trans; [apply pres_provide|by eapply IHrun].
    + eapply pres_trans; [apply pres_bind|by eapply IHrun].
    + eapply pres_trans; [apply (pres_inner c)|by eapply IHrun].
    + eapply Hand; [exact H|by (intros; simpl in *; eauto)|by (intros; simpl in *; eauto)].
    + destruct (run f p w) as [[[v|e] w1]|] eqn:E; [| |done].
      * eapply pres_trans; [by eapply IHrun|by eapply IHrun].
      * eapply pres_trans; [by eapply IHrun|].
        eapply Hand; [exact H|by (intros; simpl in *; eauto)|by (intros; simpl in *; eauto)].
  - (* make *)
    intros s token h w r w' H. simpl in H.
    destruct (scopes w !! s) as [sc|] eqn:Hsc; [|done].
    pose proof (cache_take_spec s token
      (pool_capacity (bindOptions sc !! token)) sc w) as Htake.
    destruct (cache_take _ _ _ _ _) as [[inst w1]|w1].
    + destruct Htake as (_ & l & Hl & _ & -> & ->). inversion H; subst.
      by eapply pres_recycle.
    + assert (R w w1) as Hw1.
      { destruct Htake as [[_ ->]|[_ [(l & _ & -> & _)|[Hl ->]]]];
          [apply pres_refl|apply pres_refl|by eapply pres_init]. }
      eapply pres_trans; [exact Hw1|].
      eapply Hand; [exact H|by (intros; simpl in *; eauto)|].
      intros v w2 _ H1. cbv beta in H1. unfold cache_put in H1.
      destruct (pool_active _); [|inversion H1; subst; apply pres_refl].
      destruct (scopes w2 !! s) as [sc2|] eqn:Hsc2; [|done].
      destruct (pool sc2 !! token) as [l|] eqn:Hl;
        [|inversion H1; subst; apply pres_refl].
      destruct (negb (isLazy v) && _) eqn:Hg;
        inversion H1; subst; [|apply pres_refl].
      apply andb_true_iff in Hg as [Hg _]. apply negb_true_iff in Hg.
      by eapply pres_insert.
  - (* make_internal *)
    intros s token c h w r w' H. simpl in H.
    destruct (scopes w !! s) as [sc|] eqn:Hsc; [|done].
    destruct (truthy_binding _) as [b|]; [by eapply IHmake|].
    destruct (bool_decide _).
    { inversion H; subst. apply (pres_lazy (Make s token h Ret)). }
    apply finally_Some in H as (w1 & H & ->).
    eapply pres_bracket; [exact Hsc|].
    destruct (providers sc !! token) as [p|]; [by eapply IHrun|].
    destruct (parent sc) as [p|]; [by eapply IHint|].
    inversion H; subst. apply pres_refl.
  - (* get *)
    intros l w r w' H. simpl in H.
    destruct (cells w !! l) as [c|]; [|done].
    destruct (negb _); [|inversion H; subst; apply pres_refl].
    eapply Hand; [exact H|by (intros; simpl in *; eauto)|].
    intros v w1 _ H1. cbv beta in H1. inversion H1; subst. apply pres_instance.
  - (* perform *)
    intros t v w r w' H.
    assert (Hhost : ∀ t v, host Reflect t v w = Some (r, w') → R w w').
    { intros t0 v0 H0. unfold host in H0. destruct (Reflect _ _ _) as [r0 h0].
      inversion H0; subst. apply pres_heap. }
    destruct v; simpl in H; try by eapply Hhost.
    + destruct t;
        try (eapply Hand; [exact H|by (intros; simpl in *; eauto)|by (intros; simpl in *; eauto)]);
        try (inversion H; subst; apply pres_refl).
      * eapply Hand; [exact H|by (intros; simpl in *; eauto)|]. intros inst w1 _ H1. cbv beta in H1.
        eapply Hand; [exact H1| |].
        { intros r1 w2 H2. destruct (decide (receiver = VLazy l)); [by eapply IHget|].
          inversion H2; subst. apply pres_refl. }
        intros recv w2 _ H2. cbv beta in H2.
        eapply Hand; [exact H2|by (intros; simpl in *; eauto)|].
        intros res w3 _ H3. cbv beta in H3.
        destruct (negb (typeof_function res)); inversion H3; subst; apply pres_refl.
      * eapply Hand; [exact H|by (intros; simpl in *; eauto)|]. intros inst w1 _ H1. cbv beta in H1.
        eapply Hand; [exact H1|by (intros; simpl in *; eauto)|].
        intros x w2 _ H2. cbv beta in H2. inversion H2; subst. apply pres_refl.
      * eapply Hand; [exact H|by (intros; simpl in *; eauto)|]. intros inst w1 _ H1. cbv beta in H1.
        eapply Hand; [exact H1| |by (intros; simpl in *; eauto)].
        intros r1 w2 H2. destruct (decide (receiver = VLazy l)); [by eapply IHget|].
        inversion H2; subst. apply pres_refl.
    + destruct t; try by eapply IHperf.
      eapply Hand; [exact H| |by (intros; simpl in *; eauto)].
      intros r1 w2 H2. destruct (decide (thisArg = VLazy l)); [by eapply IHget|].
      inversion H2; subst. apply pres_refl.
Qed.


(** ** Three relations every run preserves *)

Lemma stack_of_push s token sc w s' :
  scopes w !! s = Some sc →
  stack_of (push s token w) s' =
  if decide (s = s') then makeStack sc ++ [token] else stack_of w s'.
Proof.
  intros Hsc. unfold push. rewrite stack_of_upd. case_decide; [|done].
  unfold stack_of. by rewrite Hsc.
Qed.

Lemma pool_of_push s token w s' : pool_of (push s token w) s' = pool_of w s'.
Proof. by apply pool_of_upd_same. Qed.

Lemma pool_of_pop s w s' : pool_of (pop s w) s' = pool_of w s'.
Proof. by apply pool_of_upd_same. Qed.

Lemma pool_of_provide s token p o w s' :
  pool_of (provide s token p o w) s' = pool_of w s'.
Proof. by apply pool_of_upd_same. Qed.

Lemma pool_of_bind s o a c h w s' : pool_of (bind s o a c h w) s' = pool_of w s'.
Proof.
  apply pool_of_upd_same. intros sc. simpl.
  destruct h as [[]|]; case_decide; done.
Qed.

Lemma pool_of_inner s w s' : pool_of (snd (inner s w)) s' = pool_of w s'.
Proof.
  unfold pool_of. rewrite scopes_inner. case_decide as E; [|done].
  subst. by rewrite lookup_ge_None_2.
Qed.

Lemma stack_of_inner s w s' : stack_of (snd (inner s w)) s' = stack_of w s'.
Proof.
  unfold stack_of. rewrite scopes_inner. case_decide as E; [|done].
  subst. by rewrite lookup_ge_None_2.
Qed.

Lemma pool_of_scope w s sc : scopes w !! s = Some sc → pool_of w s = pool sc.
Proof. intros H. unfold pool_of. by rewrite H. Qed.

#[local] Instance stacks_kept_preserved : Preserved stacks_kept.
Proof.
  split; unfold stacks_kept; try done.
  - intros w1 w2 w3 H1 H2 s. by rewrite H2.
  - intros. by apply stack_of_upd_same.
  - intros s o a c h w s'. apply stack_of_upd_same. intros sc. simpl.
    destruct h as [[]|]; case_decide; done.
  - intros. apply stack_of_inner.
  - intros. by apply stack_of_upd_same.
  - intros. by apply stack_of_upd_same.
  - intros. by apply stack_of_upd_same.
  - intros s token sc w w2 Hsc H s'.
    unfold pop. rewrite stack_of_upd.
    pose proof (H s) as Hs. rewrite (stack_of_push _ _ sc) in Hs by done.
    rewrite decide_True in Hs by done.
    destruct (decide (s = s')) as [<-|E].
    + unfold stack_of in *. rewrite Hsc. destruct (scopes w2 !! s).
      * rewrite Hs. apply removelast_last.
      * by destruct (makeStack sc).
    + rewrite H, (stack_of_push _ _ sc) by done. by rewrite decide_False.
Qed.

Lemma pools_clean_ext w w' :
  (∀ s, pool_of w' s = pool_of w s) → pools_clean w → pools_clean w'.
Proof. intros E H s token l v. rewrite E. apply H. Qed.

Lemma pools_clean_write s token sc l w :
  scopes w !! s = Some sc →
  (∀ v, v ∈ l → isLazy v = false) →
  pools_clean w → pools_clean (write_pool s token l w).
Proof.
  intros Hsc Hl H s' token' l' v. rewrite pool_of_write.
  case_decide as E; [subst s'; rewrite Hsc|by apply H].
  rewrite lookup_insert. case_decide as E'.
  - intros [= <-]. apply Hl.
  - apply H.
Qed.

Lemma elem_of_recycled (l : list value) v :
  v ∈ List.last l VUndef :: removelast l → v = VUndef ∨ v ∈ l.
Proof.
  destruct (decide (l = [])) as [->|Hne].
  - simpl. rewrite list_elem_of_singleton. by left.
  - intros H. right. rewrite (app_removelast_last VUndef Hne).
    rewrite elem_of_app, list_elem_of_singleton.
    apply elem_of_cons in H as [->|H]; auto.
Qed.

#[local] Instance clean_kept_preserved : Preserved clean_kept.
Proof.
  split; unfold clean_kept; try done.
  - intros w1 w2 w3 H1 H2 H. auto.
  - intros. eapply pools_clean_ext; [|done]. intros. apply pool_of_provide.
  - intros. eapply pools_clean_ext; [|done]. intros. apply pool_of_bind.
  - intros. eapply pools_clean_ext; [|done]. intros. apply pool_of_inner.
  - intros s token sc w Hsc _ H. eapply pools_clean_write; [done| |done].
    intros v Hv. by apply elem_of_nil in Hv.
  - intros s token sc l w Hsc Hl H. eapply pools_clean_write; [done| |done].
    intros v Hv. apply elem_of_recycled in Hv as [->|Hv]; [done|].
    eapply H; [|done]. by rewrite (pool_of_scope _ _ sc).
  - intros s token sc l v w Hsc Hl Hv H. eapply pools_clean_write; [done| |done].
    intros v' Hv'. apply elem_of_cons in Hv' as [->|Hv']; [done|].
    eapply H; [|done]. by rewrite (pool_of_scope _ _ sc).
  - intros s token sc w w2 Hsc H Hw.
    eapply pools_clean_ext; [intros; apply pool_of_pop|].
    apply H. eapply pools_clean_ext; [intros; apply pool_of_push|done].
Qed.

Lemma keys_kept_write s token l w : keys_kept w (write_pool s token l w).
Proof.
  intros s' token' H. rewrite pool_of_write.
  case_decide as E; [subst s'|done].
  unfold pool_of in H. destruct (scopes w !! s) as [sc|] eqn:Hsc.
  - rewrite lookup_insert. case_decide; [done|].
    by rewrite (pool_of_scope _ _ sc).
  - rewrite lookup_empty in H. by destruct H.
Qed.

#[local] Instance keys_kept_preserved : Preserved keys_kept.
Proof.
  split; unfold keys_kept; try done.
  - intros w1 w2 w3 H1 H2 s token H. auto.
  - intros. by rewrite pool_of_provide.
  - intros. by rewrite pool_of_bind.
  - intros. by rewrite pool_of_inner.
  - intros. by apply keys_kept_write.
  - intros. by apply keys_kept_write.
  - intros. by apply keys_kept_write.
  - intros s token sc w w2 Hsc H s' token' Hs.
    rewrite pool_of_pop. apply H. by rewrite pool_of_push.
Qed.

(** ** [make] against its lookup path *)

Lemma cache_take_key s token cap sc w w1 :
  scopes w !! s = Some sc → pool_active cap = true →
  cache_take s token cap sc w = inr w1 →
  is_Some (pool_of w1 s !! token).
Proof.
  intros Hsc Hact H. pose proof (cache_take_spec s token cap sc w) as Hs.
  rewrite H in Hs. destruct Hs as [[? _]|[_ [(l & Hl & -> & _)|[Hl ->]]]].
  - congruence.
  - rewrite (pool_of_scope _ _ sc) by done. eauto.
  - rewrite pool_of_write, decide_True, Hsc, lookup_insert_eq by done. eauto.
Qed.

Lemma cache_put_value s token cap v w r w' :
  cache_put s token cap v w = Some (r, w') →
  is_Some (pool_of w s !! token) → r = inl v.
Proof.
  unfold cache_put. intros H Hkey. destruct (pool_active cap); [|by inversion H].
  destruct (scopes w !! s) as [sc|] eqn:Hsc; [|done].
  rewrite (pool_of_scope _ _ sc) in Hkey by done.
  destruct (pool sc !! token) as [l|]; [|by destruct Hkey].
  by destruct (negb _ && _); inversion H.
Qed.

Lemma make_classified fuel :
  (∀ s token h w r w', make fuel s token h w = Some (r, w') →
     classifies (resolve fuel s token h w) r) ∧
  (∀ s token c h w r w', make_internal fuel s token c h w = Some (r, w') →
     classifies (resolve_internal fuel s token c h w) r).
Proof.
  induction fuel as [|f [IHmake IHint]]; [by split; intros; discriminate|].
  split.
  - intros s token h w r w' H. simpl in *.
    destruct (scopes w !! s) as [sc|] eqn:Hsc; [|done].
    set (cap := pool_capacity (bindOptions sc !! token)) in *.
    destruct (cache_take s token cap sc w) as [[inst w1]|w1] eqn:Htake;
      [by inversion H|].
    apply and_then_Some in H as [(v & w2 & H & Hpost)|(e & H & ->)];
      [|by eapply IHint].
    assert (r = inl v) as ->; [|by eapply IHint].
    destruct (pool_active cap) eqn:Hact.
    + eapply cache_put_value; [done|].
      destruct (engine_preserves keys_kept f) as (_ & _ & Hk & _).
      eapply Hk; [done|]. by eapply cache_take_key.
    + unfold cache_put in Hpost. rewrite Hact in Hpost. by inversion Hpost.
  - intros s token c h w r w' H. simpl in *.
    destruct (scopes w !! s) as [sc|] eqn:Hsc; [|done].
    destruct (truthy_binding _) as [b|]; [by eapply IHmake|].
    destruct (bool_decide _).
    { inversion H; subst. simpl. eauto. }
    apply finally_Some in H as (w1 & H & ->).
    destruct (providers sc !! token) as [p|]; [simpl; eauto|].
    destruct (parent sc) as [p|]; [by eapply IHint|].
    by inversion H.
Qed.

Lemma resolve_raises fuel :
  (∀ s token h w res e, resolve fuel s token h w = Some res → raises res e →
     ∃ w', make fuel s token h w = Some (inr e, w')) ∧
  (∀ s token c h w res e, resolve_internal fuel s token c h w = Some res →
     raises res e → ∃ w', make_internal fuel s token c h w = Some (inr e, w')).
Proof.
  induction fuel as [|f [IHmake IHint]]; [by split; intros; discriminate|].
  split.
  - intros s token h w res e H He. simpl in *.
    destruct (scopes w !! s) as [sc|] eqn:Hsc; [|done].
    destruct (cache_take _ _ _ _ _) as [[inst w1]|w1];
      [by inversion H; subst|].
    destruct (IHint _ _ _ _ _ _ _ H He) as [w' ->]. simpl. eauto.
  - intros s token c h w res e H He. simpl in *.
    destruct (scopes w !! s) as [sc|] eqn:Hsc; [|done].
    destruct (truthy_binding _) as [b|]; [by eapply IHmake|].
    destruct (bool_decide _); [by inversion H; subst|].
    destruct (providers sc !! token) as [p|].
    { inversion H; subst. destruct He as [w2 ->]. simpl. eauto. }
    destruct (parent sc) as [p|].
    + destruct (IHint _ _ _ _ _ _ _ H He) as [w' ->]. simpl. eauto.
    + inversion H; subst. simpl in He. subst. simpl. eauto.
Qed.

Lemma cache_take_inactive s token cap sc w :
  pool_active cap = false → cache_take s token cap sc w = inr w.
Proof. intros H. unfold cache_take. by rewrite H. Qed.

Lemma cache_put_inactive s token cap v w :
  pool_active cap = false → cache_put s token cap v w = Some (inl v, w).
Proof. intros H. unfold cache_put. by rewrite H. Qed.

Lemma cache_take_full s token n sc l w :
  pool sc !! token = Some l → (0 < n)%Z → (n ≤ Z.of_nat (length l))%Z →
  cache_take s token (Some n) sc w =
  inl (List.last l VUndef, write_pool s token (List.last l VUndef :: removelast l) w).
Proof.
  intros Hl Hpos Hle. unfold cache_take, init_pool. simpl.
  rewrite Hl. destruct (0 <? n)%Z eqn:E1; [|lia].
  destruct (n <=? Z.of_nat (length l))%Z eqn:E2; [done|lia].
Qed.

(** A policy-free token costs [make] nothing but the call of [#make]. *)
Lemma make_uncached f s sc token h w :
  scopes w !! s = Some sc →
  pool_active (pool_capacity (bindOptions sc !! token)) = false →
  make (S f) s token h w = make_internal f s token s h w.
Proof.
  intros Hsc Hact. simpl. rewrite Hsc, cache_take_inactive by done.
  destruct (make_internal f s token s h w) as [[[v|e] w1]|]; simpl; [|done..].
  by rewrite cache_put_inactive.
Qed.

Lemma make_internal_alias f s sc token binding c h w :
  scopes w !! s = Some sc →
  truthy_binding (bindings sc !! token) = Some binding →
  make_internal (S f) s token c h w = make f s binding None w.
Proof. intros Hsc Hb. simpl. by rewrite Hsc, Hb. Qed.

Lemma make_recycles f s sc token n l h w :
  scopes w !! s = Some sc →
  pool_capacity (bindOptions sc !! token) = Some n →
  pool sc !! token = Some l → (0 < n)%Z → (n ≤ Z.of_nat (length l))%Z →
  make (S f) s token h w =
  Some (inl (List.last l VUndef),
        write_pool s token (List.last l VUndef :: removelast l) w).
Proof.
  intros Hsc Hcap Hl Hpos Hle. simpl.
  by rewrite Hsc, Hcap, (cache_take_full _ _ _ _ l).
Qed.

(** ** Stack unwinding (C6) *)

(** C6: whatever way a call of [make] ends, by a returned value or by an
    exception, the resolution stack of every container is what it was
    before the call; and when the lookup path of the call ends at a
    provider whose call throws [e], [make] itself ends by throwing that same
    [e], again with every stack as before. *)
Theorem make_unwinds_stack fuel s token h w :
  (∀ r w', make fuel s token h w = Some (r, w') →
     ∀ s', stack_of w' s' = stack_of w s') ∧
  (∀ f p w1 e w2,
     resolve fuel s token h w = Some (RProvider f p w1) →
     run f p w1 = Some (inr e, w2) →
     ∃ w', make fuel s token h w = Some (inr e, w') ∧
           ∀ s', stack_of w' s' = stack_of w s').
Proof.
  destruct (engine_preserves stacks_kept fuel) as (_ & Hmake & _).
  split.
  - intros r w' H. by eapply Hmake.
  - intros f p w1 e w2 Hres Hrun.
    destruct (resolve_raises fuel) as [Hr _].
    destruct (Hr s token h w _ e Hres) as [w' Hw']; [simpl; eauto|].
    exists w'. split; [done|]. by eapply Hmake.
Qed.

(** ** Placeholders stay out of the instance caches (C8) *)

Lemma pools_clean_empty : pools_clean empty_world.
Proof.
  intros s token l v H. unfold pool_of in H. simpl in H.
  by rewrite lookup_empty in H.
Qed.

Lemma pools_clean_create w : pools_clean w → pools_clean (snd (create w)).
Proof.
  intros H s token l v. unfold pool_of. simpl.
  destruct (decide (s < length (scopes w))) as [Hlt|Hge].
  - rewrite lookup_app_l by done. apply H.
  - rewrite lookup_app_r by lia.
    destruct (s - length (scopes w)) as [|[|n]]; simpl; by rewrite lookup_empty.
Qed.

(** C8: in a world whose instance caches hold no placeholder, no call of
    [make], on any container and whatever the providers do, and no sequence
    of operations of a caller leaves a placeholder in any instance cache. *)
Theorem placeholders_never_cached fuel w :
  pools_clean w →
  (∀ s token h r w', make fuel s token h w = Some (r, w') → pools_clean w') ∧
  (∀ p r w', run fuel p w = Some (r, w') → pools_clean w').
Proof.
  intros Hw. destruct (engine_preserves clean_kept fuel) as (Hrun & Hmake & _).
  split.
  - intros s token h r w' H. by eapply Hmake.
  - intros p r w' H. by eapply Hrun.
Qed.

(** ** The missing-provider error (C7) *)

Lemma split_head sep s :
  ∃ h tl rest, split sep s = h :: tl ∧ s = h +:+ rest ∧
    (rest = EmptyString ∨ ∃ r, rest = String sep r) ∧
    ∀ c, In c (String.list_ascii_of_string h) → c ≠ sep.
Proof.
  induction s as [|c s (h & tl & rest & Hs & Heq & Hrest & Hno)]; simpl.
  - exists EmptyString, [], EmptyString. repeat split; [by left|]. by intros c [].
  - destruct (Ascii.eqb c sep) eqn:E.
    + apply Ascii.eqb_eq in E as ->.
      exists EmptyString, (split sep s), (String sep s). repeat split; [eauto|by intros c []].
    + apply Ascii.eqb_neq in E. rewrite Hs.
      exists (String c h), tl, rest. repeat split; [by rewrite Heq at 1|done|].
      intros c' [<-|Hc']; [done|by apply Hno].
Qed.

Lemma human_name_prefix token :
  ∃ rest, token = human_name token +:+ rest ∧
    (rest = EmptyString ∨ ∃ r, rest = String "@" r) ∧
    ∀ c, In c (String.list_ascii_of_string (human_name token)) → c ≠ "@"%char.
Proof.
  destruct (split_head "@" token) as (h & tl & rest & Hs & Heq & Hrest & Hno).
  exists rest. unfold human_name. by rewrite Hs.
Qed.

Lemma same_container_refl x : same_container x x.
Proof. by destruct x. Qed.

Lemma same_below_refl a w : same_below a w w.
Proof. intros j _. apply same_container_refl. Qed.

Lemma same_below_le a b w w' : b ≤ a → same_below a w w' → same_below b w w'.
Proof. intros Hle H j Hj. apply H. lia. Qed.

Lemma same_below_push a s token w w' :
  a < s → same_below a w w' → same_below a w (push s token w').
Proof.
  intros Hlt H j Hj. unfold push. rewrite scopes_upd_ne by lia. by apply H.
Qed.

Lemma same_below_init a s token sc w w' :
  scopes w' !! s = Some sc → pool sc !! token = None →
  same_below a w w' → same_below a w (write_pool s token [] w').
Proof.
  intros Hsc Hp H j Hj. specialize (H j Hj).
  unfold write_pool. rewrite scopes_upd. case_decide as E; [subst j|done].
  rewrite Hsc in *. simpl. destruct (scopes w !! s) as [sc0|]; [|done].
  destruct H as (? & ? & ? & ? & ? & ? & Hpool). repeat split; try done.
  intros t. rewrite Hpool. simpl. destruct (decide (token = t)) as [<-|Hne].
  - by rewrite lookup_insert_eq, Hp.
  - by rewrite lookup_insert_ne.
Qed.

Lemma same_below_sym a w w' : same_below a w w' → same_below a w' w.
Proof.
  intros H j Hj. specialize (H j Hj).
  destruct (scopes w !! j), (scopes w' !! j); simpl in *; try done.
  destruct H as (? & ? & ? & ? & ? & ? & ?). by repeat split.
Qed.

Lemma cache_serves_same a w w' t :
  same_below a w w' → cache_serves w a t → cache_serves w' a t.
Proof.
  intros H (sc & n & Hsc & Hcap & Hpos & Hle). specialize (H a (le_n a)).
  rewrite Hsc in H. destruct (scopes w' !! a) as [sc'|] eqn:Hsc'; [|done].
  destruct H as (_ & _ & _ & _ & Ho & _ & Hp).
  exists sc', n. by rewrite <- Ho, <- Hp.
Qed.

Lemma unprovided_same w w' a t u :
  parents_first w → unprovided w a t u → same_below a w w' →
  unprovided w' a t u.
Proof.
  intros Hwf H. induction H as [a sc t t' u Hsc Hb Hc _ IH
                               |a sc t p u Hsc Hb Hs Hp Hpar _ IH
                               |a sc t Hsc Hb Hs Hp Hpar]; intros Hsame.
  - pose proof (Hsame a (le_n a)) as Ha. rewrite Hsc in Ha.
    destruct (scopes w' !! a) as [sc'|] eqn:Hsc'; [|done].
    destruct Ha as (_ & _ & _ & Eb & _).
    eapply unprovided_alias; [done|by rewrite <- Eb| |by apply IH].
    intros Hc'. apply Hc.
    apply (cache_serves_same a w' w); [by apply same_below_sym|done].
  - pose proof (Hsame a (le_n a)) as Ha. rewrite Hsc in Ha.
    destruct (scopes w' !! a) as [sc'|] eqn:Hsc'; [|done].
    destruct Ha as (Epar & Ep & _ & Eb & _ & Es & _).
    eapply unprovided_parent; [done|by rewrite <- Eb|by rewrite <- Es
                              |by rewrite <- Ep|by rewrite <- Epar|].
    apply IH. eapply same_below_le; [|done].
    apply Nat.lt_le_incl. by eapply Hwf.
  - pose proof (Hsame a (le_n a)) as Ha. rewrite Hsc in Ha.
    destruct (scopes w' !! a) as [sc'|] eqn:Hsc'; [|done].
    destruct Ha as (Epar & Ep & _ & Eb & _ & Es & _).
    eapply unprovided_root; [done|by rewrite <- Eb|by rewrite <- Es
                            |by rewrite <- Ep|by rewrite <- Epar].
Qed.

Lemma parents_first_same w w' :
  (∀ j, same_container (scopes w !! j) (scopes w' !! j)) →
  parents_first w → parents_first w'.
Proof.
  intros H Hwf s sc' p Hsc' Hpar. specialize (H s). rewrite Hsc' in H.
  destruct (scopes w !! s) as [sc|] eqn:Hsc; [|done].
  destruct H as (Epar & _). eapply Hwf; [done|]. by rewrite Epar.
Qed.

Lemma aliases_nonempty_same w w' :
  (∀ j, same_container (scopes w !! j) (scopes w' !! j)) →
  aliases_nonempty w → aliases_nonempty w'.
Proof.
  intros H Hne s sc' t Hsc'. specialize (H s). rewrite Hsc' in H.
  destruct (scopes w !! s) as [sc|] eqn:Hsc; [|done].
  destruct H as (_ & _ & _ & Eb & _). rewrite <- Eb. by eapply Hne.
Qed.

Lemma truthy_binding_alias w s sc t :
  aliases_nonempty w → scopes w !! s = Some sc →
  truthy_binding (bindings sc !! t) = bindings sc !! t.
Proof.
  intros Hne Hsc. specialize (Hne s sc t Hsc).
  destruct (bindings sc !! t) as [[|c r]|]; done.
Qed.

(** The cache test of [make] lets the call through exactly where the cache
    does not serve. *)
Lemma cache_take_serves s token sc w :
  scopes w !! s = Some sc →
  (∃ w1, cache_take s token (pool_capacity (bindOptions sc !! token)) sc w = inr w1) ↔
  ¬ cache_serves w s token.
Proof.
  intros Hsc.
  pose proof (cache_take_spec s token (pool_capacity (bindOptions sc !! token)) sc w) as Ht.
  destruct (cache_take _ _ _ _ _) as [[inst w1]|w1].
  - destruct Ht as (Hact & l & Hl & Hle & _). split; [by intros [? ?]|].
    intros Hno. exfalso. apply Hno. exists sc.
    destruct (pool_capacity _) as [n|]; [|done]. exists n. simpl in *.
    apply Z.ltb_lt in Hact. by rewrite Hl.
  - split; [|by eauto]. intros _ (sc' & n & Hsc' & Hcap & Hpos & Hle).
    rewrite Hsc in Hsc'. injection Hsc' as <-. rewrite Hcap in Ht. simpl in Ht.
    destruct Ht as [[Hact _]|[_ [(l & Hl & _ & Hlt)|[Hl _]]]].
    + apply Z.ltb_ge in Hact. lia.
    + rewrite Hl in Hle. simpl in Hle. lia.
    + rewrite Hl in Hle. simpl in Hle. lia.
Qed.

Lemma resolve_miss f s sc token h w w1 :
  scopes w !! s = Some sc →
  cache_take s token (pool_capacity (bindOptions sc !! token)) sc w = inr w1 →
  resolve (S f) s token h w = resolve_internal f s token s h w1.
Proof. intros Hsc Ht. simpl. by rewrite Hsc, Ht. Qed.

Lemma resolve_internal_alias f s sc token binding c h w :
  scopes w !! s = Some sc →
  truthy_binding (bindings sc !! token) = Some binding →
  resolve_internal (S f) s token c h w = resolve f s binding None w.
Proof. intros Hsc Hb. simpl. by rewrite Hsc, Hb. Qed.

Lemma resolve_internal_parent f s sc token c h w p :
  scopes w !! s = Some sc →
  truthy_binding (bindings sc !! token) = None →
  token ∉ makeStack sc →
  providers sc !! token = None →
  parent sc = Some p →
  resolve_internal (S f) s token c h w =
  resolve_internal f p token c h (push s token w).
Proof.
  intros Hsc Hb Hin Hp Hpar. simpl.
  rewrite Hsc, Hb. rewrite bool_decide_eq_false_2 by done. by rewrite Hp, Hpar.
Qed.

Lemma resolve_internal_missing f s sc token c h w :
  scopes w !! s = Some sc →
  truthy_binding (bindings sc !! token) = None →
  token ∉ makeStack sc →
  providers sc !! token = None →
  parent sc = None →
  resolve_internal (S f) s token c h w = Some (RMissing token).
Proof.
  intros Hsc Hb Hin Hp Hpar. simpl.
  rewrite Hsc, Hb. rewrite bool_decide_eq_false_2 by done. by rewrite Hp, Hpar.
Qed.

Lemma cache_take_world s token cap sc w w1 :
  scopes w !! s = Some sc →
  cache_take s token cap sc w = inr w1 →
  ∀ j, same_container (scopes w !! j) (scopes w1 !! j).
Proof.
  intros Hsc Ht. pose proof (cache_take_spec s token cap sc w) as Hs.
  rewrite Ht in Hs.
  destruct Hs as [[_ ->]|[_ [(l & _ & -> & _)|[Hl ->]]]];
    [intros; apply same_container_refl..|].
  intros j. apply (same_below_init j s token sc w w Hsc Hl); [|done].
  apply same_below_refl.
Qed.

(** The lookup of the code arrives where the condition says. *)
Lemma unprovided_resolves w a t u :
  parents_first w → aliases_nonempty w → unprovided w a t u →
  ∃ n, ∀ wd f c h, same_below a w wd →
    resolve_internal (n + f) a t c h wd = Some (RMissing u).
Proof.
  intros Hwf Hne H.
  induction H as [a sc t t' u Hsc Hb Hc _ [n IH]
                 |a sc t p u Hsc Hb Hs Hp Hpar _ [n IH]
                 |a sc t Hsc Hb Hs Hp Hpar].
  - exists (S (S n)). intros wd f c h Hsame.
    pose proof (Hsame a (le_n a)) as Ha. rewrite Hsc in Ha.
    destruct (scopes wd !! a) as [scd|] eqn:Hscd; [|done].
    destruct Ha as (_ & _ & _ & Eb & _).
    change (S (S n) + f) with (S (S (n + f))).
    rewrite (resolve_internal_alias _ _ scd _ t'); [|done|].
    2:{ rewrite <- Eb, <- Hb. by eapply truthy_binding_alias. }
    destruct (proj2 (cache_take_serves a t' scd wd Hscd)) as [w1 Ht].
    { intros Hc'. apply Hc.
      apply (cache_serves_same a wd w); [by apply same_below_sym|done]. }
    rewrite (resolve_miss _ _ scd _ _ _ w1) by done.
    apply IH. intros j Hj. specialize (Hsame j Hj).
    pose proof (cache_take_world _ _ _ _ _ _ Hscd Ht j) as Hj1.
    destruct (scopes w !! j), (scopes wd !! j), (scopes w1 !! j);
      simpl in *; try done.
    destruct Hsame as (? & ? & ? & ? & ? & ? & E1).
    destruct Hj1 as (? & ? & ? & ? & ? & ? & E2).
    repeat split; first [congruence|intros x; by rewrite E1, E2].
  - exists (S n). intros wd f c h Hsame.
    pose proof (Hsame a (le_n a)) as Ha. rewrite Hsc in Ha.
    destruct (scopes wd !! a) as [scd|] eqn:Hscd; [|done].
    destruct Ha as (Epar & Ep & _ & Eb & _ & Es & _).
    change (S n + f) with (S (n + f)).
    rewrite (resolve_internal_parent _ _ scd _ _ _ _ p);
      [|done|by rewrite <- Eb, Hb|by rewrite <- Es|by rewrite <- Ep
       |by rewrite <- Epar].
    apply IH. apply same_below_push; [by eapply Hwf|].
    eapply same_below_le; [|done]. apply Nat.lt_le_incl. by eapply Hwf.
  - exists 1. intros wd f c h Hsame.
    pose proof (Hsame a (le_n a)) as Ha. rewrite Hsc in Ha.
    destruct (scopes wd !! a) as [scd|] eqn:Hscd; [|done].
    destruct Ha as (Epar & Ep & _ & Eb & _ & Es & _).
    change (1 + f) with (S f).
    by rewrite (resolve_internal_missing _ _ scd);
      [|done|by rewrite <- Eb, Hb|by rewrite <- Es|by rewrite <- Ep
       |by rewrite <- Epar].
Qed.

Lemma parents_first_push s token w : parents_first w → parents_first (push s token w).
Proof.
  intros Hwf j sc' p Hsc' Hpar. unfold push in Hsc'. rewrite scopes_upd in Hsc'.
  case_decide; [|by eapply Hwf].
  destruct (scopes w !! j) as [sc|] eqn:Hsc; [|done].
  injection Hsc' as <-. by eapply Hwf.
Qed.

Lemma aliases_nonempty_push s token w :
  aliases_nonempty w → aliases_nonempty (push s token w).
Proof.
  intros Hne j sc' t Hsc'. unfold push in Hsc'. rewrite scopes_upd in Hsc'.
  case_decide; [|by eapply Hne].
  destruct (scopes w !! j) as [sc|] eqn:Hsc; [|done].
  injection Hsc' as <-. simpl. by eapply Hne.
Qed.

(** Where the lookup of the code finds no provider, the condition holds. *)
Lemma resolve_unprovided fuel :
  (∀ s token h w u, parents_first w → aliases_nonempty w →
     resolve fuel s token h w = Some (RMissing u) →
     ¬ cache_serves w s token ∧ unprovided w s token u) ∧
  (∀ s token c h w u, parents_first w → aliases_nonempty w →
     resolve_internal fuel s token c h w = Some (RMissing u) →
     unprovided w s token u).
Proof.
  induction fuel as [|f [IHres IHint]]; [by split; intros; discriminate|].
  split.
  - intros s token h w u Hwf Hne H. simpl in H.
    destruct (scopes w !! s) as [sc|] eqn:Hsc; [|done].
    destruct (cache_take _ _ _ _ _) as [[inst w1]|w1] eqn:Ht; [done|].
    split; [apply (cache_take_serves s token sc w Hsc); by eauto|].
    pose proof (cache_take_world _ _ _ _ _ _ Hsc Ht) as Hw1.
    apply (unprovided_same w1 w).
    + by eapply parents_first_same.
    + apply IHint in H; [done|by eapply parents_first_same
                        |by eapply aliases_nonempty_same].
    + intros j _. specialize (Hw1 j).
      destruct (scopes w !! j), (scopes w1 !! j); simpl in *; try done.
      destruct Hw1 as (? & ? & ? & ? & ? & ? & ?). by repeat split.
  - intros s token c h w u Hwf Hne H. simpl in H.
    destruct (scopes w !! s) as [sc|] eqn:Hsc; [|done].
    rewrite (truthy_binding_alias w s sc token Hne Hsc) in H.
    destruct (bindings sc !! token) as [b|] eqn:Hb.
    { apply IHres in H as [Hc Hu]; [|done..].
      by eapply unprovided_alias. }
    destruct (bool_decide (token ∈ makeStack sc)) eqn:Hs; [done|].
    apply bool_decide_eq_false in Hs.
    destruct (providers sc !! token) as [pr|] eqn:Hp; [done|].
    destruct (parent sc) as [p|] eqn:Hpar.
    + apply IHint in H; [|by apply parents_first_push
                         |by apply aliases_nonempty_push].
      eapply unprovided_parent; [done..|].
      apply (unprovided_same (push s token w) w);
        [by apply parents_first_push|done|].
      intros j Hj. apply same_below_sym with (a := p); [|done].
      apply same_below_push; [by eapply Hwf|apply same_below_refl].
    + injection H as <-. by eapply unprovided_root.
Qed.

Lemma registered_upd s g w a t p :
  (∀ sc, providers (g sc) = providers sc) →
  registered (upd_scope s g w) a t p → registered w a t p.
Proof.
  intros Hg (sc' & Hsc' & Hp). rewrite scopes_upd in Hsc'.
  case_decide; [|by exists sc'].
  destruct (scopes w !! a) as [sc|] eqn:Hsc; [|done].
  injection Hsc' as <-. exists sc. by rewrite <- Hg.
Qed.

(** A provider the lookup of the code arrives at is registered. *)
Lemma resolve_registered fuel :
  (∀ s token h w f p w1, resolve fuel s token h w = Some (RProvider f p w1) →
     ∃ a t pr c hint, registered w a t pr ∧ p = pr c hint) ∧
  (∀ s token c h w f p w1,
     resolve_internal fuel s token c h w = Some (RProvider f p w1) →
     ∃ a t pr c' hint, registered w a t pr ∧ p = pr c' hint).
Proof.
  induction fuel as [|f0 [IHres IHint]]; [by split; intros; discriminate|].
  split.
  - intros s token h w f p w1 H. simpl in H.
    destruct (scopes w !! s) as [sc|] eqn:Hsc; [|done].
    pose proof (cache_take_spec s token
      (pool_capacity (bindOptions sc !! token)) sc w) as Hs.
    destruct (cache_take _ _ _ _ _) as [[inst w2]|w2]; [done|].
    apply IHint in H as (a & t & pr & c & hint & Hreg & ->).
    exists a, t, pr, c, hint. split; [|done].
    destruct Hs as [[_ ->]|[_ [(l & _ & -> & _)|[_ ->]]]]; try done.
    by apply registered_upd in Hreg.
  - intros s token c h w f p w1 H. simpl in H.
    destruct (scopes w !! s) as [sc|] eqn:Hsc; [|done].
    destruct (truthy_binding _) as [b|]; [by eapply IHres|].
    destruct (bool_decide _); [done|].
    destruct (providers sc !! token) as [pr|] eqn:Hp.
    + injection H as <- <- <-. exists s, token, pr, c, (hint_or h (hints sc !! token)).
      split; [by exists sc|done].
    + destruct (parent sc) as [q|]; [|done].
      apply IHint in H as (a & t & pr & c' & hint & Hreg & ->).
      exists a, t, pr, c', hint. split; [|done].
      by apply registered_upd in Hreg.
Qed.

(** These two conditions hold of a new root container and are kept by
    [provide], by [bind] to a target that is not empty, and by [inner()] on
    a container that exists. *)
Lemma parents_first_root : parents_first root_world.
Proof.
  intros s sc p Hsc Hpar. destruct s as [|s]; simpl in Hsc; [|done].
  by injection Hsc as <-.
Qed.

Lemma parents_first_upd s g w :
  (∀ sc, parent (g sc) = parent sc) →
  parents_first w → parents_first (upd_scope s g w).
Proof.
  intros Hg Hwf j sc' p Hsc' Hpar. rewrite scopes_upd in Hsc'.
  case_decide; [|by eapply Hwf].
  destruct (scopes w !! j) as [sc|] eqn:Hsc; [|done].
  injection Hsc' as <-. rewrite Hg in Hpar. by eapply Hwf.
Qed.


Lemma parents_first_bind s o a c h w :
  parents_first w → parents_first (bind s o a c h w).
Proof.
  apply parents_first_upd. intros sc. simpl.
  destruct h as [[]|]; case_decide; done.
Qed.

Lemma parents_first_inner s w :
  s < length (scopes w) → parents_first w → parents_first (snd (inner s w)).
Proof.
  intros Hlt Hwf j sc p Hsc Hpar. rewrite scopes_inner in Hsc.
  case_decide as E; [|by eapply Hwf].
  injection Hsc as <-. injection Hpar as <-. by subst j.
Qed.

Lemma aliases_nonempty_root : aliases_nonempty root_world.
Proof.
  intros s sc t Hsc. destruct s as [|s]; simpl in Hsc; [|done].
  injection Hsc as <-. simpl. by rewrite lookup_empty.
Qed.

Lemma aliases_nonempty_upd s g w :
  (∀ sc t, bindings sc !! t ≠ Some EmptyString →
           bindings (g sc) !! t ≠ Some EmptyString) →
  aliases_nonempty w → aliases_nonempty (upd_scope s g w).
Proof.
  intros Hg Hne j sc' t Hsc'. rewrite scopes_upd in Hsc'.
  case_decide; [|by eapply Hne].
  destruct (scopes w !! j) as [sc|] eqn:Hsc; [|done].
  injection Hsc' as <-. apply Hg. by eapply Hne.
Qed.

Lemma aliases_nonempty_provide s token p o w :
  aliases_nonempty w → aliases_nonempty (provide s token p o w).
Proof. by apply aliases_nonempty_upd. Qed.

Lemma aliases_nonempty_bind s o a c h w :
  c ≠ EmptyString → aliases_nonempty w → aliases_nonempty (bind s o a c h w).
Proof.
  intros Hc. apply aliases_nonempty_upd. intros sc t Ht. simpl.
  destruct h as [[]|]; case_decide; simpl; try done.
  all: rewrite lookup_insert; case_decide; [congruence|done].
Qed.

Lemma aliases_nonempty_inner s w :
  aliases_nonempty w → aliases_nonempty (snd (inner s w)).
Proof.
  intros Hne j sc t Hsc. rewrite scopes_inner in Hsc.
  case_decide; [|by eapply Hne].
  injection Hsc as <-. simpl. by rewrite lookup_empty.
Qed.

(** C7, as the code has it. [make(token)] on a container fails with the
    missing-provider error of its own lookup exactly where the lookup finds
    no provider: (1) where the cache of the token does not answer and the
    lookup, from the container upwards, every alias followed on the
    container that holds it, leads to no provider and meets no cycle
    short-circuit, [make] throws ["No provider for "] followed by the
    human-readable name of the token missing in the end, for every fuel
    from some bound on; (2) every exception [make] ends with is that error
    under that condition, or was thrown by the call of a registered
    provider; (3) the human-readable name is the token up to its first
    ['@'], excluded. *)
Theorem missing_provider_error s token h w :
  parents_first w → aliases_nonempty w →
  (∀ u, ¬ cache_serves w s token → unprovided w s token u →
     ∃ n, ∀ f, ∃ w', make (n + f) s token h w =
       Some (inr (Error ("No provider for " +:+ human_name u)), w')) ∧
  (∀ fuel e w', make fuel s token h w = Some (inr e, w') →
     (∃ u, ¬ cache_serves w s token ∧ unprovided w s token u ∧
           e = Error ("No provider for " +:+ human_name u)) ∨
     (∃ a t p c hint f w1 w2, registered w a t p ∧
           run f (p c hint) w1 = Some (inr e, w2))) ∧
  (∀ t, ∃ rest, t = human_name t +:+ rest ∧
     (rest = EmptyString ∨ ∃ r, rest = String "@" r) ∧
     ∀ c, In c (String.list_ascii_of_string (human_name t)) → c ≠ "@"%char).
Proof.
  intros Hwf Hne. split; [|split].
  - intros u Hc Hu.
    destruct (unprovided_resolves w s token u Hwf Hne Hu) as [n Hn].
    exists (S n). intros f.
    assert (∃ sc, scopes w !! s = Some sc) as [sc Hsc] by (destruct Hu; eauto).
    destruct (proj2 (cache_take_serves s token sc w Hsc) Hc) as [w1 Ht].
    apply (proj1 (resolve_raises (S n + f)) s token h w (RMissing u)); [|done].
    change (S n + f) with (S (n + f)).
    rewrite (resolve_miss _ _ sc _ _ _ w1) by done.
    apply Hn. intros j _. by eapply cache_take_world.
  - intros fuel e w' H.
    apply (proj1 (make_classified fuel)) in H.
    destruct (resolve fuel s token h w) as [[v| |f p w1|u]|] eqn:Hres;
      simpl in H.
    + done.
    + by destruct H.
    + right. destruct H as [w2 H].
      apply (proj1 (resolve_registered fuel)) in Hres
        as (a & t & pr & c & hint & Hreg & ->).
      by exists a, t, pr, c, hint, f, w1, w2.
    + left. injection H as ->.
      apply (proj1 (resolve_unprovided fuel)) in Hres as [Hc Hu]; [|done..].
      by exists u.
    + done.
  - apply human_name_prefix.
Qed.

(** ** Providers of fresh instances under a cache *)

Lemma set_pool_id token l sc :
  pool sc !! token = Some l → set_pool (<[token := l]>) sc = sc.
Proof. intros H. destruct sc. unfold set_pool. simpl in *. f_equal. by apply insert_id. Qed.

Lemma write_pool_id s token l sc w :
  scopes w !! s = Some sc → pool sc !! token = Some l →
  write_pool s token l w = w.
Proof.
  intros Hsc Hl. destruct w as [ss cs hp]. unfold write_pool, upd_scope.
  simpl in *. f_equal. apply list_eq. intros j.
  destruct (decide (s = j)) as [<-|Hne].
  - by rewrite list_lookup_alter_eq, Hsc; simpl; rewrite set_pool_id.
  - by rewrite list_lookup_alter_ne.
Qed.

Lemma cached_scope w s sc token :
  scopes w !! s = Some sc → cached w s token = default [] (pool sc !! token).
Proof. intros H. unfold cached. by rewrite (pool_of_scope _ _ sc). Qed.

Lemma fresh_slot_cached w s token n l :
  fresh_slot w s token n l → cached w s token = l.
Proof. intros (sc & Hsc & _ & _ & _ & _ & _ & <-). by apply cached_scope. Qed.

Lemma fresh_slot_frame w w' s token n l :
  scopes w' !! s = scopes w !! s → fresh_slot w s token n l → fresh_slot w' s token n l.
Proof. intros E (sc & Hsc & H). exists sc. by rewrite E. Qed.

Lemma fresh_slot_hit f w s token n l h :
  fresh_slot w s token n l → (n ≤ Z.of_nat (length l))%Z →
  ∃ w', make (S f) s token h w = Some (inl (List.last l VUndef), w') ∧
        fresh_slot w' s token n (List.last l VUndef :: removelast l) ∧
        heap w' = heap w ∧ cells w' = cells w ∧
        length (scopes w') = length (scopes w) ∧
        ∀ s', s' ≠ s → scopes w' !! s' = scopes w !! s'.
Proof.
  intros (sc & Hsc & Hcap & Hpos & Hb & Hstk & Hp & Hl) Hle.
  destruct (pool sc !! token) as [l0|] eqn:Hpool; simpl in Hl; subst l;
    [|change (Z.of_nat (length [])) with 0%Z in Hle; lia].
  eexists. split; [by eapply make_recycles|].
  split; [|repeat split].
  - eexists. split; [by apply scopes_upd_eq|]. simpl.
    by rewrite lookup_insert_eq.
  - simpl. by rewrite length_alter.
  - intros s' Hne. simpl. by rewrite list_lookup_alter_ne.
Qed.

(** *** The cases of [make], [#make] and [run], one equation each *)

Lemma make_miss f s sc token h w w1 :
  scopes w !! s = Some sc →
  cache_take s token (pool_capacity (bindOptions sc !! token)) sc w = inr w1 →
  make (S f) s token h w =
  and_then (make_internal f s token s h w1)
    (cache_put s token (pool_capacity (bindOptions sc !! token))).
Proof. intros Hsc Ht. simpl. by rewrite Hsc, Ht. Qed.

Lemma make_internal_cycle f s sc token c h w :
  scopes w !! s = Some sc →
  truthy_binding (bindings sc !! token) = None →
  token ∈ makeStack sc →
  make_internal (S f) s token c h w =
  Some (inl (VLazy (length (cells w))), snd (lazy (Make s token h Ret) w)).
Proof.
  intros Hsc Hb Hin. simpl.
  rewrite Hsc, Hb. by rewrite bool_decide_eq_true_2 by done.
Qed.

Lemma make_internal_provider f s sc token c h w p :
  scopes w !! s = Some sc →
  truthy_binding (bindings sc !! token) = None →
  token ∉ makeStack sc →
  providers sc !! token = Some p →
  make_internal (S f) s token c h w =
  finally (run f (p c (hint_or h (hints sc !! token))) (push s token w)) (pop s).
Proof.
  intros Hsc Hb Hin Hp. simpl.
  rewrite Hsc, Hb. rewrite bool_decide_eq_false_2 by done. by rewrite Hp.
Qed.

Lemma make_internal_parent f s sc token c h w p :
  scopes w !! s = Some sc →
  truthy_binding (bindings sc !! token) = None →
  token ∉ makeStack sc →
  providers sc !! token = None →
  parent sc = Some p →
  make_internal (S f) s token c h w =
  finally (make_internal f p token c h (push s token w)) (pop s).
Proof.
  intros Hsc Hb Hin Hp Hpar. simpl.
  rewrite Hsc, Hb. rewrite bool_decide_eq_false_2 by done. by rewrite Hp, Hpar.
Qed.

Lemma make_internal_missing f s sc token c h w :
  scopes w !! s = Some sc →
  truthy_binding (bindings sc !! token) = None →
  token ∉ makeStack sc →
  providers sc !! token = None →
  parent sc = None →
  make_internal (S f) s token c h w =
  Some (inr (missing_provider token), pop s (push s token w)).
Proof.
  intros Hsc Hb Hin Hp Hpar. simpl.
  rewrite Hsc, Hb. rewrite bool_decide_eq_false_2 by done. by rewrite Hp, Hpar.
Qed.

Lemma run_Ret f v w : run (S f) (Ret v) w = Some (inl v, w).
Proof. done. Qed.

Lemma run_New f fields k w :
  run (S f) (New fields k) w =
  run f (k (VObj (length (heap w)))) (set_heap (heap w ++ [fields]) w).
Proof. done. Qed.

Lemma run_Make f c token h k w :
  run (S f) (Make c token h k) w =
  and_then (make f c token h w) (fun v w1 => run f (k v) w1).
Proof. done. Qed.

Lemma run_fresh_instance f c h w :
  run (S (S f)) (fresh_instance c h) w =
  Some (inl (VObj (length (heap w))), set_heap (heap w ++ [∅]) w).
Proof. done. Qed.

Ltac fields :=
  cbn [parent providers hints bindings bindOptions makeStack pool
       set_providers set_hints set_bindings set_bindOptions set_makeStack
       set_pool scopes cells heap upd_scope set_heap upd_cell set_instance
       factory instance initialized].

Lemma fresh_slot_miss f w s token n l h :
  fresh_slot w s token n l → (Z.of_nat (length l) < n)%Z →
  ∃ w', make (4 + f) s token h w = Some (inl (VObj (length (heap w))), w') ∧
        fresh_slot w' s token n (VObj (length (heap w)) :: l) ∧
        heap w' = heap w ++ [∅] ∧ cells w' = cells w ∧
        length (scopes w') = length (scopes w) ∧
        ∀ s', s' ≠ s → scopes w' !! s' = scopes w !! s'.
Proof.
  intros (sc & Hsc & Hcap & Hpos & Hb & Hstk & Hp & Hl) Hlt.
  assert (cache_take s token (Some n) sc w = inr (write_pool s token l w))
    as Htake.
  { unfold cache_take, init_pool. simpl.
    destruct (0 <? n)%Z eqn:E1; [|lia].
    destruct (pool sc !! token) as [l0|] eqn:Hpool; simpl in Hl; subst l.
    - destruct (n <=? Z.of_nat (length l0))%Z eqn:E2; [lia|].
      by erewrite write_pool_id.
    - destruct (n <=? Z.of_nat (length []))%Z eqn:E2;
        [change (Z.of_nat (length [])) with 0%Z in E2; lia|done]. }
  set (sc1 := set_pool (<[token := l]>) sc).
  assert (scopes (write_pool s token l w) !! s = Some sc1) as Hsc1
    by (by apply scopes_upd_eq).
  change (4 + f) with (S (S (S (S f)))).
  rewrite <- Hcap in Htake.
  rewrite (make_miss _ _ sc _ _ _ _ Hsc Htake).
  rewrite (make_internal_provider _ _ sc1 _ _ _ _ fresh_instance Hsc1) by done.
  rewrite run_fresh_instance. cbn [finally and_then].
  unfold cache_put. rewrite Hcap. simpl pool_active.
  destruct (0 <? n)%Z eqn:E1; [|lia].
  unfold pop, push. fields. rewrite !list_lookup_alter_eq, Hsc1. fields.
  cbn [fmap option_fmap option_map]. subst sc1. unfold write_pool. fields.
  rewrite lookup_insert_eq. simpl isLazy. cbn [negb andb].
  change (default 0%Z (Some n)) with n.
  destruct (Z.of_nat (length l) <? n)%Z eqn:E2; [|lia].
  eexists. split; [reflexivity|].
  split; [|repeat split].
  - eexists. split.
    { unfold write_pool. fields. rewrite !list_lookup_alter_eq, Hsc. reflexivity. }
    fields. cbn [fmap option_fmap option_map]. fields.
    rewrite removelast_last, lookup_insert_eq. done.
  - unfold write_pool. fields. by rewrite !length_alter.
  - intros s' Hne. unfold write_pool. fields. by rewrite !list_lookup_alter_ne.
Qed.

Lemma fresh_slot_provide w0 s sc token o n l :
  scopes w0 !! s = Some sc →
  truthy_binding (bindings sc !! token) = None →
  token ∉ makeStack sc →
  default [] (pool sc !! token) = l →
  pool_capacity (Some o) = Some n → (0 < n)%Z →
  fresh_slot (provide s token fresh_instance (Some o) w0) s token n l.
Proof.
  intros Hsc Hb Hstk Hl Hcap Hpos. eexists. split.
  { unfold provide. by apply scopes_upd_eq. }
  fields. unfold store_options. by rewrite !lookup_insert_eq.
Qed.

Lemma fresh_slot_hit_one f w s token v h :
  fresh_slot w s token 1 [v] →
  make (S f) s token h w = Some (inl v, w).
Proof.
  intros (sc & Hsc & Hcap & Hpos & Hb & Hstk & Hp & Hl).
  destruct (pool sc !! token) as [l0|] eqn:Hpool; simpl in Hl; [subst l0|done].
  rewrite (make_recycles _ _ sc _ 1 [v]); [|done..|simpl; lia].
  simpl List.last. simpl removelast. by erewrite write_pool_id.
Qed.

(** ** Pool rotation (C4) *)

(** C4: on a container where [T] has no alias, is not being resolved and
    has no cached instance yet, after [provide(T, f, {pool: 2})] with an [f]
    that builds a new instance at each call, five calls of [make(T)] return
    the new instances #1 and #2 and then #1, #2, #1: from the third call on
    the cache holds two instances, and [make] takes its last element, puts
    it back in front and returns it. *)
Theorem pool_of_two_rotates f w0 s sc T h :
  scopes w0 !! s = Some sc →
  truthy_binding (bindings sc !! T) = None →
  T ∉ makeStack sc →
  default [] (pool sc !! T) = [] →
  let w := provide s T fresh_instance (Some (pool_options 2)) w0 in
  let i1 := VObj (length (heap w0)) in
  let i2 := VObj (S (length (heap w0))) in
  ∃ w1 w2 w3 w4 w5,
    make (4 + f) s T h w = Some (inl i1, w1) ∧ cached w1 s T = [i1] ∧
    make (4 + f) s T h w1 = Some (inl i2, w2) ∧ cached w2 s T = [i2; i1] ∧
    make (4 + f) s T h w2 = Some (inl i1, w3) ∧ cached w3 s T = [i1; i2] ∧
    make (4 + f) s T h w3 = Some (inl i2, w4) ∧ cached w4 s T = [i2; i1] ∧
    make (4 + f) s T h w4 = Some (inl i1, w5) ∧ cached w5 s T = [i1; i2].
Proof.
  intros Hsc Hb Hstk Hl w i1 i2.
  assert (fresh_slot w s T 2 []) as H0
    by (by eapply fresh_slot_provide).
  destruct (fresh_slot_miss f w s T 2 [] h H0) as (w1 & E1 & H1 & Hh1 & _);
    [simpl; lia|].
  destruct (fresh_slot_miss f w1 s T 2 _ h H1) as (w2 & E2 & H2 & Hh2 & _);
    [simpl; lia|].
  destruct (fresh_slot_hit (3 + f) w2 s T 2 _ h H2) as (w3 & E3 & H3 & _);
    [simpl; lia|].
  destruct (fresh_slot_hit (3 + f) w3 s T 2 _ h H3) as (w4 & E4 & H4 & _);
    [simpl; lia|].
  destruct (fresh_slot_hit (3 + f) w4 s T 2 _ h H4) as (w5 & E5 & H5 & _);
    [simpl; lia|].
  assert (length (heap w1) = S (length (heap w0))) as Hlen.
  { rewrite Hh1, length_app. simpl. lia. }
  rewrite Hlen in *. simpl in E3, E4, E5, H3, H4, H5.
  exists w1, w2, w3, w4, w5.
  repeat split; try done; by eapply fresh_slot_cached.
Qed.

(** ** Singletons (C5, C10) *)

Lemma scopes_inner_old P w s sc :
  scopes w !! s = Some sc → scopes (snd (inner P w)) !! s = Some sc.
Proof.
  intros H. rewrite scopes_inner, decide_False; [done|].
  apply lookup_lt_Some in H. lia.
Qed.

Lemma scopes_provide_ne c token p o w s :
  c ≠ s → scopes (provide c token p o w) !! s = scopes w !! s.
Proof. intros H. unfold provide. by apply scopes_upd_ne. Qed.

(** Once the cache of a capacity-one token holds an instance, every call
    returns it and changes nothing. *)
Lemma singleton_first_call f w s token h :
  fresh_slot w s token 1 [] →
  ∃ w', make (4 + f) s token h w = Some (inl (VObj (length (heap w))), w') ∧
        (∀ f' h', make (S f') s token h' w' = Some (inl (VObj (length (heap w))), w')) ∧
        fresh_slot w' s token 1 [VObj (length (heap w))] ∧
        heap w' = heap w ++ [∅] ∧
        ∀ s', s' ≠ s → scopes w' !! s' = scopes w !! s'.
Proof.
  intros H0.
  destruct (fresh_slot_miss f w s token 1 [] h H0)
    as (w' & E & H1 & Hh & _ & _ & Hs); [simpl; lia|].
  exists w'. repeat split; try done.
  intros f' h'. by apply fresh_slot_hit_one.
Qed.

(** C5: on a container [P] where [T] has no alias, is not being resolved
    and has no cached instance yet, after [provide(T, f, {singleton: true})]
    every call of [make(T)] after the first returns the instance the first
    one returned; two children made by [inner()] that register their own
    singleton provider of [T] each get an instance of their own, different
    from each other's and from the one of [P], and keep it. *)
Theorem singleton_identity f w0 P sc T h :
  scopes w0 !! P = Some sc →
  truthy_binding (bindings sc !! T) = None →
  T ∉ makeStack sc →
  default [] (pool sc !! T) = [] →
  let opts := Some (singleton_options true) in
  let w := provide P T fresh_instance opts w0 in
  let c1 := fst (inner P w) in
  let wa := snd (inner P w) in
  let c2 := fst (inner P wa) in
  let wb := snd (inner P wa) in
  let wc := provide c2 T fresh_instance opts (provide c1 T fresh_instance opts wb) in
  ∃ i0 i1 i2 w1 w2 w3,
    make (4 + f) P T h wc = Some (inl i0, w1) ∧
    (∀ f' h', make (S f') P T h' w1 = Some (inl i0, w1)) ∧
    make (4 + f) c1 T h w1 = Some (inl i1, w2) ∧
    make (4 + f) c2 T h w2 = Some (inl i2, w3) ∧
    (∀ f' h', make (S f') P T h' w3 = Some (inl i0, w3)) ∧
    (∀ f' h', make (S f') c1 T h' w3 = Some (inl i1, w3)) ∧
    (∀ f' h', make (S f') c2 T h' w3 = Some (inl i2, w3)) ∧
    i0 ≠ i1 ∧ i0 ≠ i2 ∧ i1 ≠ i2.
Proof.
  intros Hsc Hb Hstk Hl opts w c1 wa c2 wb wc.
  assert (P < length (scopes w0)) as HS by (by eapply lookup_lt_Some).
  assert (c1 = length (scopes w0)) as Hc1
    by (subst c1 w; simpl; by rewrite length_alter).
  assert (c2 = S (length (scopes w0))) as Hc2.
  { subst c2 wa w. simpl. rewrite length_app, length_alter. simpl. lia. }
  assert (fresh_slot w P T 1 []) as HS0 by (by eapply fresh_slot_provide).
  assert (fresh_slot wc P T 1 []) as HSc.
  { eapply fresh_slot_frame; [|exact HS0]. subst wc.
    rewrite !scopes_provide_ne by lia.
    destruct HS0 as (sc0 & HS0 & _).
    rewrite HS0. subst wb wa. by do 2 apply scopes_inner_old. }
  assert (fresh_slot wc c1 T 1 []) as H1c.
  { eapply fresh_slot_frame; [subst wc; apply scopes_provide_ne; lia|].
    eapply (fresh_slot_provide _ _ (new_container (Some P))); try done.
    - subst wb. apply scopes_inner_old. subst wa.
      rewrite scopes_inner, decide_True; [done|]. subst c1. by simpl.
    - simpl. apply not_elem_of_nil. }
  assert (fresh_slot wc c2 T 1 []) as H2c.
  { subst wc. eapply (fresh_slot_provide _ _ (new_container (Some P))); try done.
    - rewrite scopes_provide_ne by lia. subst wb.
      rewrite scopes_inner, decide_True; [done|]. subst c2. by simpl.
    - simpl. apply not_elem_of_nil. }
  destruct (singleton_first_call f wc P T h HSc) as (w1 & E1 & R1 & F1 & Hh1 & O1).
  assert (fresh_slot w1 c1 T 1 []) as H11
    by (eapply fresh_slot_frame; [apply O1; lia|done]).
  assert (fresh_slot w1 c2 T 1 []) as H21
    by (eapply fresh_slot_frame; [apply O1; lia|done]).
  destruct (singleton_first_call f w1 c1 T h H11) as (w2 & E2 & R2 & F2 & Hh2 & O2).
  assert (fresh_slot w2 P T 1 [VObj (length (heap wc))]) as HS2
    by (eapply fresh_slot_frame; [apply O2; lia|done]).
  assert (fresh_slot w2 c2 T 1 []) as H22
    by (eapply fresh_slot_frame; [apply O2; lia|done]).
  destruct (singleton_first_call f w2 c2 T h H22) as (w3 & E3 & R3 & F3 & Hh3 & O3).
  assert (fresh_slot w3 P T 1 [VObj (length (heap wc))]) as HS3
    by (eapply fresh_slot_frame; [apply O3; lia|done]).
  assert (fresh_slot w3 c1 T 1 [VObj (length (heap w1))]) as H13
    by (eapply fresh_slot_frame; [apply O3; lia|done]).
  exists (VObj (length (heap wc))), (VObj (length (heap w1))),
    (VObj (length (heap w2))), w1, w2, w3.
  repeat split; try done.
  - intros f' h'. by apply fresh_slot_hit_one.
  - intros f' h'. by apply fresh_slot_hit_one.
  - rewrite Hh1, length_app. simpl. intros [=]. lia.
  - rewrite Hh2, Hh1, !length_app. simpl. intros [=]. lia.
  - rewrite Hh2, !length_app. simpl. intros [=]. lia.
Qed.

(** C10: a [singleton] key in the options makes the capacity 1 whatever its
    value and whatever else the options hold, and [provide] and [bind] store
    the options as they are given; so after
    [provide(T, f, {singleton: false})], on a container where [T] has no
    alias, is not being resolved and has no cached instance yet, the first
    call of [make(T)] builds an instance and every later call returns that
    same instance. *)
Theorem singleton_key_presence b n :
  let o := {| opt_singleton := Some b; opt_pool := n |} in
  pool_capacity (Some o) = Some 1%Z ∧
  (∀ w s sc0 T p c hint sc,
     scopes w !! s = Some sc0 →
     (scopes (provide s T p (Some o) w) !! s = Some sc →
      pool_capacity (bindOptions sc !! T) = Some 1%Z) ∧
     (scopes (bind s (Some o) T c hint w) !! s = Some sc →
      pool_capacity (bindOptions sc !! T) = Some 1%Z)) ∧
  ∀ f w0 s sc T h,
    scopes w0 !! s = Some sc →
    truthy_binding (bindings sc !! T) = None →
    T ∉ makeStack sc →
    default [] (pool sc !! T) = [] →
    let w := provide s T fresh_instance (Some (singleton_options false)) w0 in
    ∃ i w1, make (4 + f) s T h w = Some (inl i, w1) ∧
            ∀ f' h', make (S f') s T h' w1 = Some (inl i, w1).
Proof.
  intros o. split; [done|]. split.
  - intros w s sc0 T p c hint sc Hsc0. split; intros Hsc.
    + unfold provide in Hsc. rewrite (scopes_upd_eq _ _ _ _ Hsc0) in Hsc.
      injection Hsc as <-. simpl. by rewrite lookup_insert_eq.
    + unfold bind in Hsc. rewrite (scopes_upd_eq _ _ _ _ Hsc0) in Hsc.
      injection Hsc as <-. simpl. by rewrite lookup_insert_eq.
  - intros f w0 s sc T h Hsc Hb Hstk Hl w.
    assert (fresh_slot w s T 1 []) as H0 by (by eapply fresh_slot_provide).
    destruct (singleton_first_call f w s T h H0) as (w1 & E1 & R1 & _).
    eauto.
Qed.

(** ** Aliases and caches (C2) *)

Lemma truthy_binding_Some b : b ≠ EmptyString → truthy_binding (Some b) = Some b.
Proof. by destruct b. Qed.

(** C2, as the code has it: where [A] is bound to a non-empty [C] and no
    options are attached to [A], [make(A)] keeps nothing under [A] and is
    the call [make(C)] on the same container, with the cache of [C]
    applied to it; so once the cache of [C] is full, [make(A)] returns the
    last instance of that cache, put back in front, and no new one. *)
Theorem alias_uses_target_cache f s sc A C h w :
  scopes w !! s = Some sc →
  bindings sc !! A = Some C → C ≠ EmptyString →
  bindOptions sc !! A = None →
  make (S (S f)) s A h w = make f s C None w ∧
  ∀ n l, pool_capacity (bindOptions sc !! C) = Some n → (0 < n)%Z →
         pool sc !! C = Some l → (n ≤ Z.of_nat (length l))%Z →
         make (3 + f) s A h w =
         Some (inl (List.last l VUndef),
               write_pool s C (List.last l VUndef :: removelast l) w).
Proof.
  intros Hsc Hb HC Ho.
  assert (∀ f', make (S (S f')) s A h w = make f' s C None w) as E.
  { intros f'. rewrite (make_uncached _ _ sc) by (by rewrite ?Ho).
    apply (make_internal_alias _ _ sc); [done|].
    rewrite Hb. by apply truthy_binding_Some. }
  split; [apply E|].
  intros n l Hcap Hpos Hl Hle. change (3 + f) with (S (S (S f))).
  rewrite E. by eapply make_recycles.
Qed.

(** ** Locality of the instance cache (C9) *)











(** ** Cycles (C3) *)

Lemma cache_take_ready s token cap sc w l :
  scopes w !! s = Some sc →
  default [] (pool sc !! token) = l →
  pool_active cap = true →
  (Z.of_nat (length l) < default 0 cap)%Z →
  cache_take s token cap sc w = inr (write_pool s token l w).
Proof.
  intros Hsc Hl Hact Hlt. unfold cache_take, init_pool. rewrite Hact.
  destruct (pool sc !! token) as [l0|] eqn:Hpool; simpl in Hl; subst l.
  - destruct (_ <=? _)%Z eqn:E2; [lia|]. by erewrite write_pool_id.
  - destruct (_ <=? _)%Z eqn:E2; [|done].
    change (Z.of_nat (length [])) with 0%Z in *. lia.
Qed.

Lemma cache_put_lazy s token cap l w sc ls :
  scopes w !! s = Some sc → pool sc !! token = Some ls →
  cache_put s token cap (VLazy l) w = Some (inl (VLazy l), w).
Proof.
  intros Hsc Hl. unfold cache_put. rewrite Hsc, Hl. simpl.
  by destruct (pool_active cap).
Qed.

Lemma cache_put_insert s token cap v w sc l :
  scopes w !! s = Some sc → pool sc !! token = Some l →
  pool_active cap = true → isLazy v = false →
  (Z.of_nat (length l) < default 0 cap)%Z →
  cache_put s token cap v w = Some (inl v, write_pool s token (v :: l) w).
Proof.
  intros Hsc Hl Hact Hv Hlt. unfold cache_put. rewrite Hact, Hsc, Hl, Hv.
  simpl. destruct (_ <? _)%Z eqn:E; [done|lia].
Qed.

Ltac look Hsc :=
  unfold push, pop, write_pool; fields;
  rewrite ?list_lookup_alter_eq, ?Hsc; reflexivity.

Ltac pools :=
  fields; repeat (rewrite lookup_insert_ne by done);
  rewrite ?lookup_insert_eq; try done.

Lemma not_elem_of_snoc (l : list string) x y : x ∉ l → x ≠ y → x ∉ l ++ [y].
Proof. rewrite elem_of_app, list_elem_of_singleton. tauto. Qed.

Lemma elem_of_snoc_here (l : list string) x : x ∈ l ++ [x].
Proof. rewrite elem_of_app, list_elem_of_singleton. tauto. Qed.

Lemma elem_of_snoc_before (l : list string) x y : x ∈ l → x ∈ l ++ [y].
Proof. rewrite elem_of_app. tauto. Qed.

Ltac take_miss Hsc l :=
  first [ apply cache_take_inactive; pools; fail
        | apply (cache_take_ready _ _ _ _ _ l); [look Hsc|pools..] ].

Ltac put_value Hsc :=
  first [ rewrite cache_put_inactive by done
        | erewrite cache_put_insert; [|look Hsc|pools..] ].

Ltac put_lazy Hsc :=
  first [ rewrite cache_put_inactive by done
        | erewrite cache_put_lazy; [|look Hsc|pools] ].

(** Two providers that resolve each other, seen from [make(A)]: the run,
    the heap and the closures it leaves, and the container afterwards. *)
Lemma cycle_run f s sc A B fa fb h w :
  scopes w !! s = Some sc →
  A ≠ B →
  providers sc !! A = Some (depends_on B fb) →
  providers sc !! B = Some (depends_on A fa) →
  truthy_binding (bindings sc !! A) = None →
  truthy_binding (bindings sc !! B) = None →
  A ∉ makeStack sc → B ∉ makeStack sc →
  (pool_active (pool_capacity (bindOptions sc !! A)) = true →
   (Z.of_nat (length (default [] (pool sc !! A))) <
    default 0 (pool_capacity (bindOptions sc !! A)))%Z) →
  (pool_active (pool_capacity (bindOptions sc !! B)) = true →
   (Z.of_nat (length (default [] (pool sc !! B))) <
    default 0 (pool_capacity (bindOptions sc !! B)))%Z) →
  ∃ w' sc',
    make (8 + f) s A h w = Some (inl (VObj (S (length (heap w)))), w') ∧
    heap w' = heap w ++ [ {[ fa := VLazy (length (cells w)) ]};
                          {[ fb := VObj (length (heap w)) ]} ] ∧
    cells w' = cells w ++ [ {| factory := Make s A None Ret;
                               instance := VUndef; initialized := false |} ] ∧
    scopes w' !! s = Some sc' ∧
    bindOptions sc' = bindOptions sc ∧
    (pool_active (pool_capacity (bindOptions sc !! A)) = true →
     pool sc' !! A = Some (VObj (S (length (heap w))) :: default [] (pool sc !! A))) ∧
    (pool_active (pool_capacity (bindOptions sc !! B)) = true →
     pool sc' !! B = Some (VObj (length (heap w)) :: default [] (pool sc !! B))).
Proof.
  intros Hsc Hne HpA HpB HbA HbB HsA HsB HlA HlB.
  set (capA := pool_capacity (bindOptions sc !! A)) in *.
  set (capB := pool_capacity (bindOptions sc !! B)) in *.
  set (lA := default [] (pool sc !! A)) in *.
  set (lB := default [] (pool sc !! B)) in *.
  assert (B ≠ A) as Hne' by done.
  change (8 + f) with (S (S (S (S (S (S (S (S f)))))))).
  destruct (pool_active capA) eqn:HaA; [specialize (HlA eq_refl)|clear HlA];
    (destruct (pool_active capB) eqn:HaB; [specialize (HlB eq_refl)|clear HlB]).
  all: erewrite (make_miss _ _ sc); [|done|take_miss Hsc lA].
  all: erewrite make_internal_provider; [|look Hsc|done..].
  all: unfold depends_on at 1; rewrite run_Make.
  all: erewrite make_miss; [|look Hsc|take_miss Hsc lB]; fields.
  all: erewrite make_internal_provider;
         [|look Hsc|pools; by apply not_elem_of_snoc..].
  all: unfold depends_on at 1; rewrite run_Make.
  all: erewrite make_miss; [|look Hsc|take_miss Hsc lA]; fields.
  all: erewrite make_internal_cycle;
         [|look Hsc|pools|fields; apply elem_of_snoc_before, elem_of_snoc_here].
  all: cbn [and_then lazy snd].
  all: put_lazy Hsc.
  all: cbn [and_then]; rewrite run_New, run_Ret; cbn [finally and_then].
  all: put_value Hsc.
  all: cbn [and_then]; rewrite run_New, run_Ret; cbn [finally and_then].
  all: put_value Hsc.
  all: eexists; eexists.
  all: split;
    [unfold write_pool, push, pop; fields; rewrite length_app; simpl;
     repeat f_equal; lia|].
  all: split;
    [unfold write_pool, push, pop; fields; by rewrite <- app_assoc|].
  all: split; [unfold write_pool, push, pop; by fields|].
  all: split; [look Hsc|].
  all: split; [by fields|].
  all: split; intros Hact; try discriminate Hact; pools.
  all: repeat f_equal; lia.
Qed.

(** While [initialized] is false, [get] calls the factory and stores what
    it returns in [instance]; [initialized] itself is left as it is. *)
Lemma get_uninitialized f l w c :
  cells w !! l = Some c → initialized c = false →
  get (S f) l w =
  and_then (run f (factory c) w)
    (fun v w1 => Some (inl v, upd_cell l (set_instance v) w1)).
Proof. intros Hc Hi. simpl. by rewrite Hc, Hi. Qed.

(** C3: two tokens whose providers resolve each other on the container they
    are given, each storing what it receives. With no alias on either token,
    neither being resolved, and no cache able to serve them yet, [make(A)]
    ends, for every fuel from 8 on, with a real instance of [A]: the inner
    request for [A], made while [A] is on the resolution stack, returned a
    placeholder whose deferred action is [make(A)] and which the instance of
    [B] stores; the instance of [A] stores the real instance of [B]; the
    stacks are as before. Under a singleton policy every later [make(B)]
    returns that stored instance of [B], and every later dereference of the
    placeholder resolves to the instance [make(A)] returned. *)
Theorem cycle_terminates f s sc A B fa fb h w :
  scopes w !! s = Some sc →
  A ≠ B →
  providers sc !! A = Some (depends_on B fb) →
  providers sc !! B = Some (depends_on A fa) →
  truthy_binding (bindings sc !! A) = None →
  truthy_binding (bindings sc !! B) = None →
  A ∉ makeStack sc → B ∉ makeStack sc →
  (pool_active (pool_capacity (bindOptions sc !! A)) = true →
   (Z.of_nat (length (default [] (pool sc !! A))) <
    default 0 (pool_capacity (bindOptions sc !! A)))%Z) →
  (pool_active (pool_capacity (bindOptions sc !! B)) = true →
   (Z.of_nat (length (default [] (pool sc !! B))) <
    default 0 (pool_capacity (bindOptions sc !! B)))%Z) →
  let n := length (heap w) in
  let l := length (cells w) in
  ∃ w',
    make (8 + f) s A h w = Some (inl (VObj (S n)), w') ∧
    heap w' !! n = Some {[ fa := VLazy l ]} ∧
    factory <$> cells w' !! l = Some (Make s A None Ret) ∧
    heap w' !! S n = Some {[ fb := VObj n ]} ∧
    (∀ s', stack_of w' s' = stack_of w s') ∧
    (pool_capacity (bindOptions sc !! B) = Some 1%Z →
     default [] (pool sc !! B) = [] →
     ∀ f' h', make (S f') s B h' w' = Some (inl (VObj n), w')) ∧
    (pool_capacity (bindOptions sc !! A) = Some 1%Z →
     default [] (pool sc !! A) = [] →
     ∀ f', ∃ w'', get (3 + f') l w' = Some (inl (VObj (S n)), w'')).
Proof.
  intros Hsc Hne HpA HpB HbA HbB HsA HsB HlA HlB n l.
  destruct (cycle_run f s sc A B fa fb h w)
    as (w' & sc' & Hrun & Hheap & Hcells & Hsc' & Hopts & HpoolA & HpoolB);
    try done.
  exists w'. split; [done|].
  split; [rewrite Hheap; by apply list_lookup_middle|].
  split; [rewrite Hcells, list_lookup_middle by done; done|].
  split.
  { rewrite Hheap. rewrite (lookup_app_r _ _ (S n)) by (subst n; lia).
    by replace (S n - length (heap w)) with 1 by (subst n; lia). }
  split.
  { destruct (engine_preserves stacks_kept (8 + f)) as (_ & Hmake & _).
    by eapply Hmake. }
  split.
  - intros Hcap HlB0 f' h'.
    rewrite (make_recycles _ _ sc' _ 1 [VObj n]);
      [|done|by rewrite Hopts|rewrite HpoolB, HlB0 by (by rewrite Hcap); done
       |lia|simpl; lia].
    simpl List.last. simpl removelast. erewrite write_pool_id; [done..|].
    rewrite HpoolB, HlB0 by (by rewrite Hcap); done.
  - intros Hcap HlA0 f'. change (3 + f') with (S (S (S f'))).
    assert (cells w' !! l =
            Some {| factory := Make s A None Ret; instance := VUndef;
                    initialized := false |}) as Hcell
      by (rewrite Hcells; by apply list_lookup_middle).
    rewrite (get_uninitialized _ _ _ _ Hcell) by done. cbn [factory].
    rewrite run_Make.
    rewrite (make_recycles _ _ sc' _ 1 [VObj (S n)]);
      [|done|by rewrite Hopts|rewrite HpoolA, HlA0 by (by rewrite Hcap); done
       |lia|simpl; lia].
    cbn [and_then]. rewrite run_Ret. cbn [and_then]. eauto.
Qed.

(** ** The placeholder (C1) *)

#[local] Instance closures_kept_preserved : Preserved closures_kept.
Proof.
  split; unfold closures_kept; try (intros; simpl; by eauto).
  - intros w1 w2 w3 H1 H2 l c Hc.
    destruct (H1 l c Hc) as (c1 & Hc1 & E1 & E2).
    destruct (H2 l c1 Hc1) as (c2 & Hc2 & E3 & E4).
    exists c2. by rewrite E3, E4.
  - intros p w l c Hc. exists c. simpl. split; [by apply lookup_app_l_Some|done].
  - intros l v w l' c Hc. simpl. destruct (decide (l = l')) as [<-|Hne].
    + exists (set_instance v c). by rewrite list_lookup_alter_eq, Hc.
    + exists c. by rewrite list_lookup_alter_ne.
Qed.

(** [initialized] is never assigned: after a first [get] on a new
    placeholder, a second [get] calls the factory again. *)
Lemma get_calls_factory_again f f' fac w v w1 :
  get (S f) (length (cells w)) (snd (lazy fac w)) = Some (inl v, w1) →
  get (S f') (length (cells w)) w1 =
  and_then (run f' fac w1)
    (fun v' w2 => Some (inl v', upd_cell (length (cells w)) (set_instance v') w2)).
Proof.
  intros H.
  assert (cells (snd (lazy fac w)) !! length (cells w) =
          Some {| factory := fac; instance := VUndef; initialized := false |})
    as Hcell by (simpl; by apply list_lookup_middle).
  rewrite (get_uninitialized _ _ _ _ Hcell) in H by done.
  apply and_then_Some in H as [(v0 & w0 & Hrun & H)|(e & _ & [=])].
  injection H as -> <-.
  destruct (engine_preserves closures_kept f) as (Hk & _).
  destruct (Hk _ _ _ _ Hrun _ _ Hcell) as (c' & Hc' & Hf & Hi).
  rewrite (get_uninitialized _ _ _ (set_instance v c')).
  - simpl. by rewrite Hf.
  - simpl. by rewrite list_lookup_alter_eq, Hc'.
  - simpl. by rewrite Hi.
Qed.

(** * Further properties of the container *)

(** ** Worlds that are equal *)

Lemma world_eq w1 w2 :
  (∀ j, scopes w1 !! j = scopes w2 !! j) → cells w1 = cells w2 →
  heap w1 = heap w2 → w1 = w2.
Proof.
  destruct w1, w2. simpl. intros Hs -> ->. f_equal. by apply list_eq.
Qed.

Lemma set_makeStack_pop_push token sc :
  set_makeStack (@removelast string)
    (set_makeStack (fun stk => stk ++ [token]) sc) = sc.
Proof. destruct sc. unfold set_makeStack. simpl. by rewrite removelast_last. Qed.

(** A push that is popped again, with only the heap changed in between,
    leaves the containers as they were. *)
Lemma pop_heap_push s token h w :
  pop s (set_heap h (push s token w)) = set_heap h w.
Proof.
  apply world_eq; [|done..]. intros j. unfold pop, push.
  change (scopes (upd_scope s ?f (set_heap h ?w0))) with (scopes (upd_scope s f w0)).
  rewrite !scopes_upd. simpl. case_decide; [|done].
  destruct (scopes w !! j) as [sc|]; simpl; [|done].
  by rewrite set_makeStack_pop_push.
Qed.

(** ** Registration overwrites (provide) *)

Lemma store_options_twice token o1 o2 m :
  store_options token o2 (store_options token o1 m) = store_options token o2 m.
Proof.
  destruct o1, o2; simpl.
  - apply insert_insert_eq.
  - apply delete_insert_eq.
  - apply insert_delete_eq.
  - apply delete_delete_eq.
Qed.

(** A second [provide] for a token replaces the first altogether: the world
    is the one the second [provide] alone would give. *)
Theorem provide_overwrites s token p1 o1 p2 o2 w :
  provide s token p2 o2 (provide s token p1 o1 w) = provide s token p2 o2 w.
Proof.
  apply world_eq; [|done..]. intros j. unfold provide. rewrite !scopes_upd.
  case_decide; [|done]. destruct (scopes w !! j) as [sc|]; simpl; [|done].
  destruct sc. unfold set_bindOptions, set_providers. simpl. f_equal. f_equal.
  - apply insert_insert_eq.
  - apply store_options_twice.
Qed.

(** [provide] does not touch the instance cache: a token registered again
    under a policy that the instances cached before already fill is served
    from those instances, and the new provider is not called. *)
Theorem provide_keeps_cached_instances f s sc token p o n l h w :
  scopes w !! s = Some sc →
  pool sc !! token = Some l →
  pool_capacity (Some o) = Some n → (0 < n)%Z → (n ≤ Z.of_nat (length l))%Z →
  let w1 := provide s token p (Some o) w in
  make (S f) s token h w1 =
  Some (inl (List.last l VUndef),
        write_pool s token (List.last l VUndef :: removelast l) w1).
Proof.
  intros Hsc Hl Hcap Hpos Hle w1.
  eapply make_recycles; [by apply scopes_upd_eq| |done..].
  simpl. by rewrite lookup_insert_eq.
Qed.

(** ** Tokens without an active policy *)

Lemma make_uncached_instance f s sc token h w fields :
  scopes w !! s = Some sc →
  pool_active (pool_capacity (bindOptions sc !! token)) = false →
  truthy_binding (bindings sc !! token) = None →
  token ∉ makeStack sc →
  providers sc !! token = Some (instance_of fields) →
  make (4 + f) s token h w =
  Some (inl (VObj (length (heap w))), set_heap (heap w ++ [fields]) w).
Proof.
  intros Hsc Hact Hb Hstk Hp. change (4 + f) with (S (S (S (S f)))).
  rewrite (make_uncached _ _ sc) by done.
  rewrite (make_internal_provider _ _ sc _ _ _ _ (instance_of fields)) by done.
  unfold instance_of at 1. rewrite run_New, run_Ret. cbn [finally].
  by rewrite pop_heap_push.
Qed.

Lemma make_times_uncached_instance k f s sc token h w fields :
  scopes w !! s = Some sc →
  pool_active (pool_capacity (bindOptions sc !! token)) = false →
  truthy_binding (bindings sc !! token) = None →
  token ∉ makeStack sc →
  providers sc !! token = Some (instance_of fields) →
  make_times Reflect k (4 + f) s token h w =
  Some ((λ i, inl (VObj (length (heap w) + i))) <$> seq 0 k,
        set_heap (heap w ++ replicate k fields) w).
Proof.
  intros Hsc Hact Hb Hstk Hp. revert w Hsc.
  induction k as [|k IH]; intros w Hsc.
  { simpl. rewrite app_nil_r. by destruct w. }
  cbn [make_times]. rewrite (make_uncached_instance _ _ sc _ _ _ fields) by done.
  rewrite IH by done. cbn [heap set_heap scopes cells].
  rewrite length_app, <- app_assoc. cbn [length app replicate seq fmap list_fmap].
  rewrite <- seq_shift, <- list_fmap_compose. f_equal. f_equal. f_equal.
  - by rewrite Nat.add_0_r.
  - apply list_fmap_ext. intros i x _. simpl. do 2 f_equal. lia.
Qed.

(** After [provide(T, f)] without options, whatever policy [T] had before,
    [k] calls of [make(T)] give [k] new instances, one per call, and leave
    every container, its instance cache included, as it was. *)
Theorem provide_without_options_is_fresh_each_time k f s sc token h w0 fields :
  scopes w0 !! s = Some sc →
  truthy_binding (bindings sc !! token) = None →
  token ∉ makeStack sc →
  let w := provide s token (instance_of fields) None w0 in
  make_times Reflect k (4 + f) s token h w =
  Some ((λ i, inl (VObj (length (heap w0) + i))) <$> seq 0 k,
        set_heap (heap w0 ++ replicate k fields) w).
Proof.
  intros Hsc Hb Hstk w.
  eapply (make_times_uncached_instance k f s _ token h w fields);
    [by apply scopes_upd_eq|..]; simpl; try done.
  - by rewrite lookup_delete_eq.
  - by rewrite lookup_insert_eq.
Qed.

(** A pool of capacity zero or less is no pool: after
    [provide(T, f, {pool: n})] with [n <= 0], every call of [make(T)] builds
    a new instance and no array is even created in the instance cache. *)
Theorem nonpositive_pool_is_no_cache k f s sc token h w0 fields n :
  scopes w0 !! s = Some sc →
  truthy_binding (bindings sc !! token) = None →
  token ∉ makeStack sc →
  (n ≤ 0)%Z →
  let w := provide s token (instance_of fields) (Some (pool_options n)) w0 in
  make_times Reflect k (4 + f) s token h w =
  Some ((λ i, inl (VObj (length (heap w0) + i))) <$> seq 0 k,
        set_heap (heap w0 ++ replicate k fields) w).
Proof.
  intros Hsc Hb Hstk Hn w.
  eapply (make_times_uncached_instance k f s _ token h w fields);
    [by apply scopes_upd_eq|..]; simpl; try done.
  - rewrite lookup_insert_eq. simpl. destruct (0 <? n)%Z eqn:E; [lia|done].
  - by rewrite lookup_insert_eq.
Qed.

(** ** A full cache, of any capacity *)

Lemma write_pool_twice s token l1 l2 w :
  write_pool s token l2 (write_pool s token l1 w) = write_pool s token l2 w.
Proof.
  apply world_eq; [|done..]. intros j. unfold write_pool. rewrite !scopes_upd.
  case_decide; [|done]. destruct (scopes w !! j) as [sc|]; simpl; [|done].
  destruct sc. unfold set_pool. simpl. f_equal. f_equal. apply insert_insert_eq.
Qed.

Lemma make_times_recycle f s sc token n h w a b :
  scopes w !! s = Some sc →
  pool_capacity (bindOptions sc !! token) = Some n → (0 < n)%Z →
  (n ≤ Z.of_nat (length (a ++ b)))%Z →
  make_times Reflect (length b) (S f) s token h (write_pool s token (a ++ b) w) =
  Some (inl <$> rev b, write_pool s token (b ++ a) w).
Proof.
  intros Hsc Hcap Hpos. revert a.
  induction b as [|x b IH] using rev_ind; intros a Hle.
  { simpl. by rewrite app_nil_r. }
  rewrite length_app, Nat.add_comm. cbn [length Nat.add make_times].
  rewrite (make_recycles _ _ (set_pool (<[token := a ++ b ++ [x]]>) sc) _ n
             (a ++ b ++ [x]));
    [|by apply scopes_upd_eq|done|simpl; by rewrite lookup_insert_eq|done..].
  rewrite write_pool_twice.
  rewrite (app_assoc a b [x]), last_last, removelast_last.
  change (x :: a ++ b) with ((x :: a) ++ b).
  rewrite IH.
  - rewrite rev_unit. simpl. do 3 f_equal. by rewrite <- app_assoc.
  - rewrite !length_app in *. simpl in *. lia.
Qed.

(** A cache that holds as many instances as the capacity of its token, or
    more, is served from its back to its front, whatever provider or alias
    the token has: as many calls of [make] as it holds instances return them
    all, the one put in first coming first, and leave the world exactly as
    it was. *)
Theorem full_cache_round_robin f s sc token n l h w :
  scopes w !! s = Some sc →
  pool_capacity (bindOptions sc !! token) = Some n → (0 < n)%Z →
  pool sc !! token = Some l →
  (n ≤ Z.of_nat (length l))%Z →
  make_times Reflect (length l) (S f) s token h w = Some (inl <$> rev l, w).
Proof.
  intros Hsc Hcap Hpos Hl Hle.
  pose proof (make_times_recycle f s sc token n h w [] l Hsc Hcap Hpos Hle) as H.
  rewrite app_nil_l, app_nil_r in H.
  by rewrite (write_pool_id _ _ _ sc) in H.
Qed.

Lemma make_times_fill k f w s token n l h :
  fresh_slot w s token n l →
  (Z.of_nat (length l + k) ≤ n)%Z →
  ∃ w', make_times Reflect k (4 + f) s token h w =
          Some ((λ i, inl (VObj (length (heap w) + i))) <$> seq 0 k, w') ∧
        fresh_slot w' s token n
          (rev ((λ i, VObj (length (heap w) + i)) <$> seq 0 k) ++ l) ∧
        length (heap w') = length (heap w) + k.
Proof.
  revert w l. induction k as [|k IH]; intros w l Hslot Hle.
  { exists w. simpl. by rewrite Nat.add_0_r. }
  destruct (fresh_slot_miss f w s token n l h Hslot)
    as (w1 & E1 & H1 & Hh1 & _); [lia|].
  destruct (IH w1 (VObj (length (heap w)) :: l) H1) as (w2 & E2 & H2 & Hh2);
    [simpl; lia|].
  exists w2. cbn [make_times]. rewrite E1, E2.
  assert (length (heap w1) = S (length (heap w))) as Hlen
    by (rewrite Hh1, length_app; simpl; lia).
  rewrite Hlen in *.
  assert (∀ g : nat → value,
    (g <$> seq 0 (S k)) = g 0 :: ((λ i, g (S i)) <$> seq 0 k)) as Hseq.
  { intros g. simpl. f_equal. by rewrite <- seq_shift, <- list_fmap_compose. }
  split; [|split].
  - do 2 f_equal. cbn [seq fmap list_fmap]. rewrite Nat.add_0_r. f_equal.
    rewrite <- seq_shift, <- list_fmap_compose. apply list_fmap_ext.
    intros i x _. simpl. do 2 f_equal. lia.
  - rewrite (Hseq (λ i, VObj (length (heap w) + i))). simpl rev.
    rewrite Nat.add_0_r, <- app_assoc. simpl.
    replace ((λ i, VObj (length (heap w) + S i)) <$> seq 0 k)
      with ((λ i, VObj (S (length (heap w)) + i)) <$> seq 0 k); [done|].
    apply list_fmap_ext. intros i x _. f_equal. lia.
  - lia.
Qed.

(** A pool of any capacity [n >= 1], from an empty cache and a provider of
    new instances: the first [n] calls of [make] build [n] new instances,
    and from then on the calls return those same [n] instances in the order
    in which they were built, round after round, the world being the same
    after each round. *)
Theorem pool_fills_then_cycles n f w s token h :
  fresh_slot w s token (Z.of_nat n) [] →
  let built := (λ i, inl (VObj (length (heap w) + i))) <$> seq 0 n in
  ∃ w', make_times Reflect n (4 + f) s token h w = Some (built, w') ∧
        ∀ f', make_times Reflect n (S f') s token h w' = Some (built, w').
Proof.
  intros Hslot built.
  destruct (make_times_fill n f w s token (Z.of_nat n) [] h Hslot)
    as (w' & E & Hslot' & _); [simpl; lia|].
  exists w'. split; [done|]. intros f'.
  destruct Hslot' as (sc' & Hsc' & Hcap & Hpos & _ & _ & _ & Hl).
  rewrite app_nil_r in Hl.
  assert (length (default [] (pool sc' !! token)) = n) as Hlen
    by (by rewrite Hl, length_rev, length_fmap, length_seq).
  destruct (pool sc' !! token) as [l|] eqn:Hpool; simpl in Hl, Hlen; [|lia].
  pose proof (make_times_recycle f' s sc' token (Z.of_nat n) h w' [] l
                Hsc' Hcap Hpos) as Hr.
  rewrite app_nil_l, app_nil_r, (write_pool_id _ _ _ sc') in Hr by done.
  rewrite <- Hlen at 1. rewrite Hr by lia.
  do 2 f_equal. rewrite Hl, rev_involutive. unfold built.
  by rewrite <- list_fmap_compose.
Qed.

(** ** Child containers *)

Ltac same_world :=
  apply world_eq; [|done..];
  let j := fresh "j" in
  intros j; unfold pop, push, write_pool; fields;
  rewrite ?list_lookup_alter; repeat case_decide; subst; try done;
  match goal with
  | |- context [scopes ?w0 !! ?i] =>
      destruct (scopes w0 !! i) as [[]|]; simpl; [|done];
      unfold set_makeStack; simpl; by rewrite ?removelast_last
  end.

Lemma make_delegated_instance f c P scC scP token h w fields :
  scopes w !! c = Some scC → parent scC = Some P → c ≠ P →
  pool_active (pool_capacity (bindOptions scC !! token)) = false →
  truthy_binding (bindings scC !! token) = None →
  token ∉ makeStack scC →
  providers scC !! token = None →
  scopes w !! P = Some scP →
  truthy_binding (bindings scP !! token) = None →
  token ∉ makeStack scP →
  providers scP !! token = Some (instance_of fields) →
  make (5 + f) c token h w =
  Some (inl (VObj (length (heap w))), set_heap (heap w ++ [fields]) w).
Proof.
  intros HscC Hpar Hne Hact HbC HsC HpC HscP HbP HsP HpP.
  change (5 + f) with (S (S (S (S (S f))))).
  rewrite (make_uncached _ _ scC) by done.
  rewrite (make_internal_parent _ _ scC _ _ _ _ P) by done.
  rewrite (make_internal_provider _ _ scP _ _ _ _ (instance_of fields));
    [|unfold push; by rewrite scopes_upd_ne|done..].
  unfold instance_of at 1. rewrite run_New, run_Ret. cbn [finally].
  do 2 f_equal. same_world.
Qed.

Lemma make_times_fresh k fuel s token h fields w :
  (∀ hp, make fuel s token h (set_heap hp w) =
         Some (inl (VObj (length hp)), set_heap (hp ++ [fields]) w)) →
  make_times Reflect k fuel s token h w =
  Some ((λ i, inl (VObj (length (heap w) + i))) <$> seq 0 k,
        set_heap (heap w ++ replicate k fields) w).
Proof.
  intros Hstep.
  assert (∀ hp, make_times Reflect k fuel s token h (set_heap hp w) =
    Some ((λ i, inl (VObj (length hp + i))) <$> seq 0 k,
          set_heap (hp ++ replicate k fields) w)) as H.
  { induction k as [|k IH]; intros hp.
    - simpl. by rewrite app_nil_r.
    - cbn [make_times]. rewrite Hstep.
      change (set_heap (hp ++ [fields]) w)
        with (set_heap (hp ++ [fields]) (set_heap hp w)) at 1.
      change (set_heap ?a (set_heap ?b w)) with (set_heap a w).
      rewrite IH. rewrite length_app, <- app_assoc.
      cbn [length app replicate seq fmap list_fmap].
      rewrite <- seq_shift, <- list_fmap_compose. f_equal. f_equal. f_equal.
      + by rewrite Nat.add_0_r.
      + apply list_fmap_ext. intros i x _. simpl. do 2 f_equal. lia. }
  specialize (H (heap w)). by destruct w.
Qed.

(** A child made by [inner()] that registers nothing resolves a token
    through the provider of its parent, and never through the parent's
    instance cache: whatever policy the parent attaches to the token and
    whatever its cache holds, [k] calls of [make] on the child build [k] new
    instances and change nothing but the heap. *)
Theorem child_requests_bypass_parent_cache k f P scP token h w fields :
  scopes w !! P = Some scP →
  truthy_binding (bindings scP !! token) = None →
  token ∉ makeStack scP →
  providers scP !! token = Some (instance_of fields) →
  let c := fst (inner P w) in
  let w1 := snd (inner P w) in
  make_times Reflect k (5 + f) c token h w1 =
  Some ((λ i, inl (VObj (length (heap w) + i))) <$> seq 0 k,
        set_heap (heap w ++ replicate k fields) w1).
Proof.
  intros HscP HbP HsP HpP c w1.
  assert (P < length (scopes w)) as HP by (by eapply lookup_lt_Some).
  apply (make_times_fresh k (5 + f) c token h fields w1). intros hp.
  apply (make_delegated_instance f c P (new_container (Some P)) scP token h
           (set_heap hp w1) fields); try done.
  - subst c w1. change (scopes (set_heap hp ?w0)) with (scopes w0).
    by rewrite scopes_inner, decide_True.
  - subst c. simpl. lia.
  - simpl. apply not_elem_of_nil.
  - subst w1. change (scopes (set_heap hp ?w0)) with (scopes w0).
    by apply scopes_inner_old.
Qed.

(** A provider registered on a child shadows the one of the parent for the
    calls made on the child, and only for them: on the child [make] builds
    the child's instance, on the parent it builds the parent's. *)
Theorem child_override_shadows f P scP token h w fP fC :
  scopes w !! P = Some scP →
  pool_active (pool_capacity (bindOptions scP !! token)) = false →
  truthy_binding (bindings scP !! token) = None →
  token ∉ makeStack scP →
  providers scP !! token = Some (instance_of fP) →
  let c := fst (inner P w) in
  let w1 := provide c token (instance_of fC) None (snd (inner P w)) in
  make (4 + f) c token h w1 =
    Some (inl (VObj (length (heap w))), set_heap (heap w ++ [fC]) w1) ∧
  make (4 + f) P token h w1 =
    Some (inl (VObj (length (heap w))), set_heap (heap w ++ [fP]) w1).
Proof.
  intros HscP Hact HbP HsP HpP c w1.
  assert (P < length (scopes w)) as HP by (by eapply lookup_lt_Some).
  assert (c = length (scopes w)) as Hc by done.
  split.
  - eapply (make_uncached_instance f c _ token h w1 fC).
    + subst w1. unfold provide. apply scopes_upd_eq.
      by rewrite scopes_inner, decide_True.
    + simpl. by rewrite lookup_delete_eq.
    + done.
    + simpl. apply not_elem_of_nil.
    + simpl. by rewrite lookup_insert_eq.
  - eapply (make_uncached_instance f P scP token h w1 fP); try done.
    subst w1. rewrite scopes_provide_ne by lia. by apply scopes_inner_old.
Qed.

(** A provider inherited from the parent is called with the container the
    request was made on: when it resolves a dependency, the registrations
    of the child are the ones that count. Here the parent knows how to
    build [A] from [B], the child alone knows [B]: [make(A)] on the child
    builds the child's [B] and an [A] that holds it. *)
Theorem inherited_provider_resolves_on_child f c P scC scP A B fb h w fB :
  scopes w !! c = Some scC → parent scC = Some P → c ≠ P → A ≠ B →
  bindOptions scC !! A = None → bindOptions scC !! B = None →
  truthy_binding (bindings scC !! A) = None →
  truthy_binding (bindings scC !! B) = None →
  A ∉ makeStack scC → B ∉ makeStack scC →
  providers scC !! A = None →
  providers scC !! B = Some (instance_of fB) →
  scopes w !! P = Some scP →
  truthy_binding (bindings scP !! A) = None →
  A ∉ makeStack scP →
  providers scP !! A = Some (depends_on B fb) →
  make (8 + f) c A h w =
  Some (inl (VObj (S (length (heap w)))),
        set_heap (heap w ++ [fB; {[ fb := VObj (length (heap w)) ]}]) w).
Proof.
  intros HscC Hpar Hne HAB HoA HoB HbA HbB HsA HsB HpA HpB HscP HbP HsP HpP.
  change (8 + f) with (S (S (S (S (S (S (S (S f)))))))).
  rewrite (make_uncached _ _ scC) by (by rewrite ?HoA).
  rewrite (make_internal_parent _ _ scC _ _ _ _ P) by done.
  rewrite (make_internal_provider _ _ scP _ _ _ _ (depends_on B fb));
    [|unfold push; by rewrite scopes_upd_ne|done..].
  unfold depends_on at 1. rewrite run_Make.
  erewrite make_uncached;
    [|unfold push; rewrite scopes_upd_ne by done; by apply scopes_upd_eq
     |fields; by rewrite HoB].
  erewrite make_internal_provider;
    [|unfold push; rewrite scopes_upd_ne by done; by apply scopes_upd_eq
     |fields; try done..].
  2:{ by apply not_elem_of_snoc. }
  unfold instance_of at 1. rewrite run_New, run_Ret. cbn [finally and_then].
  rewrite run_New, run_Ret. cbn [finally].
  f_equal. f_equal.
  - unfold pop, push. fields. rewrite length_app. simpl. do 2 f_equal. lia.
  - apply world_eq.
    + intros j. unfold pop, push. fields.
      rewrite ?list_lookup_alter. repeat case_decide; subst; try done.
      all: match goal with
           | |- context [scopes ?w0 !! ?i] => destruct (scopes w0 !! i) as [[]|]
           end; simpl; try done.
      all: unfold set_makeStack; simpl; by rewrite ?removelast_last.
    + done.
    + unfold pop, push. fields. by rewrite <- app_assoc.
Qed.

(** ** Class hints and aliases *)



(** An alias to the empty token is recorded by [bind] and never followed:
    the token keeps being resolved by its own provider. *)
Theorem empty_alias_is_ignored f s sc A h w0 fields :
  scopes w0 !! s = Some sc →
  A ≠ EmptyString →
  A ∉ makeStack sc →
  providers sc !! A = Some (instance_of fields) →
  let w := bind s None A EmptyString None w0 in
  (scopes w !! s ≫= λ sc', bindings sc' !! A) = Some EmptyString ∧
  make (4 + f) s A h w =
  Some (inl (VObj (length (heap w0))), set_heap (heap w0 ++ [fields]) w).
Proof.
  intros Hsc HA Hstk Hp w.
  set (sc1 := set_bindOptions (delete A)
                (set_bindings (<[A := EmptyString]>) sc)).
  assert (scopes w !! s = Some sc1) as Hsc1.
  { subst w. unfold bind. rewrite (scopes_upd_eq _ _ _ sc) by done.
    by rewrite decide_False. }
  split.
  - rewrite Hsc1. simpl. by rewrite lookup_insert_eq.
  - rewrite (make_uncached_instance f s sc1 A h w fields); [done|done|simpl..].
    + by rewrite lookup_delete_eq.
    + by rewrite lookup_insert_eq.
    + done.
    + done.
Qed.

(** Two tokens aliased to each other, with no active policy on either: no
    call of [make] on them ever returns, whatever the fuel. *)
Theorem alias_cycle_never_returns s sc A B w :
  scopes w !! s = Some sc →
  bindings sc !! A = Some B → bindings sc !! B = Some A →
  A ≠ EmptyString → B ≠ EmptyString →
  pool_active (pool_capacity (bindOptions sc !! A)) = false →
  pool_active (pool_capacity (bindOptions sc !! B)) = false →
  ∀ fuel h, make fuel s A h w = None ∧ make fuel s B h w = None.
Proof.
  intros Hsc HbA HbB HA HB HoA HoB.
  assert (∀ fuel,
    (∀ h, make fuel s A h w = None) ∧ (∀ h, make fuel s B h w = None) ∧
    (∀ c h, make_internal fuel s A c h w = None) ∧
    (∀ c h, make_internal fuel s B c h w = None)) as H.
  { induction fuel as [|fuel (IHA & IHB & IHiA & IHiB)]; [done|].
    repeat split; intros.
    - by rewrite (make_uncached _ _ sc).
    - by rewrite (make_uncached _ _ sc).
    - rewrite (make_internal_alias _ _ sc _ B); [done..|].
      rewrite HbA. by apply truthy_binding_Some.
    - rewrite (make_internal_alias _ _ sc _ A); [done..|].
      rewrite HbB. by apply truthy_binding_Some. }
  intros fuel h. destruct (H fuel) as (H1 & H2 & _). split; [apply H1|apply H2].
Qed.

(** ** Two invariants of the registry *)

#[local] Instance no_self_alias_preserved : Preserved no_self_alias_kept.
Proof.
  assert (∀ s f w,
    (∀ sc, (∀ t, bindings sc !! t ≠ Some t) → ∀ t, bindings (f sc) !! t ≠ Some t) →
    no_self_alias w → no_self_alias (upd_scope s f w)) as Hupd.
  { intros s f w Hf H s' sc' t. rewrite scopes_upd. case_decide; [|apply H].
    destruct (scopes w !! s') as [sc|] eqn:Hsc; [|done].
    intros [= <-]. apply Hf. intros t'. by eapply H. }
  split; unfold no_self_alias_kept; try done.
  - auto.
  - intros. by apply Hupd.
  - intros s o a c h w. apply Hupd. intros sc Hsc t. simpl.
    destruct h as [[]|]; case_decide; simpl; try apply Hsc.
    all: rewrite lookup_insert; case_decide; [congruence|apply Hsc].
  - intros s w H s' sc' t. rewrite scopes_inner. case_decide; [|apply H].
    intros [= <-]. simpl. by rewrite lookup_empty.
  - intros. by apply Hupd.
  - intros. by apply Hupd.
  - intros. by apply Hupd.
  - intros s token sc w w2 Hsc H Hw. apply Hupd; [done|].
    apply H. by apply Hupd.
Qed.

(** [bind] records no alias of a token to itself, and nothing else writes
    aliases: a world without such an alias has none after any sequence of
    operations, so an alias loop always takes two tokens or more. *)
Theorem no_token_aliases_itself fuel p w r w' :
  no_self_alias w →
  run fuel p w = Some (r, w') →
  no_self_alias w'.
Proof.
  intros Hw H. destruct (engine_preserves no_self_alias_kept fuel) as (Hrun & _).
  by eapply Hrun.
Qed.

#[local] Instance parents_kept_preserved : Preserved parents_kept.
Proof.
  assert (∀ s f w, (∀ sc, parent (f sc) = parent sc) →
                   parents_kept w (upd_scope s f w)) as Hupd.
  { intros s f w Hf s' sc Hsc. rewrite scopes_upd. case_decide.
    - rewrite Hsc. simpl. eauto.
    - eauto. }
  split; unfold parents_kept at 1; try (intros; by eauto).
  - intros w1 w2 w3 H1 H2 s sc Hsc.
    destruct (H1 s sc Hsc) as (sc1 & Hsc1 & E1).
    destruct (H2 s sc1 Hsc1) as (sc2 & Hsc2 & E2).
    exists sc2. by rewrite E2.
  - intros. by apply Hupd.
  - intros s o a c h w. apply Hupd. intros sc. simpl.
    destruct h as [[]|]; case_decide; done.
  - intros s w s' sc Hsc. exists sc. by rewrite (scopes_inner_old _ _ _ sc).
  - intros. by apply Hupd.
  - intros. by apply Hupd.
  - intros. by apply Hupd.
  - intros s token sc w w2 Hsc H s' sc' Hsc'.
    destruct (Hupd s (set_makeStack (fun stk => stk ++ [token])) w
                (fun _ => eq_refl) s' sc' Hsc') as (sc1 & Hsc1 & E1).
    destruct (H s' sc1 Hsc1) as (sc2 & Hsc2 & E2).
    destruct (Hupd s (set_makeStack (@removelast string)) w2
                (fun _ => eq_refl) s' sc2 Hsc2) as (sc3 & Hsc3 & E3).
    exists sc3. split; [done|]. by rewrite E3, E2.
Qed.

(** No operation removes a container or gives it another parent: every
    container of the world before a run is in the world after it, under the
    same handle and with the parent it was created with. *)
Theorem containers_keep_their_parent fuel p w r w' s sc :
  run fuel p w = Some (r, w') →
  scopes w !! s = Some sc →
  ∃ sc', scopes w' !! s = Some sc' ∧ parent sc' = parent sc.
Proof.
  intros H. destruct (engine_preserves parents_kept fuel) as (Hrun & _).
  by eapply Hrun.
Qed.

Lemma cached_kept_same w w' :
  (∀ s, pool_of w' s = pool_of w s) → cached_kept w w'.
Proof. intros E s token v. unfold cached. by rewrite E. Qed.

Lemma cached_kept_write s token sc l l' w :
  scopes w !! s = Some sc →
  default [] (pool sc !! token) = l →
  (∀ v, v ∈ l → v ∈ l') →
  cached_kept w (write_pool s token l' w).
Proof.
  intros Hsc Hl Hsub s' token' v. unfold cached. rewrite pool_of_write.
  case_decide as E; [subst s'|done]. rewrite Hsc, (pool_of_scope _ _ sc) by done.
  destruct (decide (token = token')) as [<-|Hne].
  - rewrite lookup_insert_eq, Hl. apply Hsub.
  - by rewrite lookup_insert_ne.
Qed.

#[local] Instance cached_kept_preserved : Preserved cached_kept.
Proof.
  split; try (intros; by apply cached_kept_same).
  - intros w1 w2 w3 H1 H2 s token v Hv. by apply H2, H1.
  - intros. apply cached_kept_same. intros. apply pool_of_provide.
  - intros. apply cached_kept_same. intros. apply pool_of_bind.
  - intros. apply cached_kept_same. intros. apply pool_of_inner.
  - intros s token sc w Hsc Hl. apply (cached_kept_write _ _ sc []); [done| |done].
    by rewrite Hl.
  - intros s token sc l w Hsc Hl. apply (cached_kept_write _ _ sc l); [done| |].
    + by rewrite Hl.
    + intros v Hv. destruct (decide (l = [])) as [->|Hne].
      * by apply elem_of_nil in Hv.
      * rewrite (app_removelast_last VUndef Hne) in Hv.
        apply elem_of_app in Hv as [Hv|Hv].
        -- by apply elem_of_cons; right.
        -- apply list_elem_of_singleton in Hv as ->. apply list_elem_of_here.
  - intros s token sc l v w Hsc Hl _. apply (cached_kept_write _ _ sc l); [done| |].
    + by rewrite Hl.
    + intros v' Hv'. by apply elem_of_cons; right.
  - intros s token sc w w2 Hsc H s' token' v Hv.
    unfold cached. rewrite pool_of_pop. apply H.
    unfold cached. by rewrite pool_of_push.
Qed.

(** No cache ever loses an instance: what [make] takes from the back of a
    full cache it puts back in front, and nothing else removes from a
    cache. An instance that is cached for a token before a run of any
    program is cached for it afterwards. *)
Theorem cached_instances_are_never_evicted fuel p w r w' s token v :
  run fuel p w = Some (r, w') →
  v ∈ cached w s token →
  v ∈ cached w' s token.
Proof.
  intros H. destruct (engine_preserves cached_kept fuel) as (Hrun & _).
  by eapply Hrun.
Qed.

#[local] Instance registered_kept_preserved : Preserved registered_kept.
Proof.
  assert (∀ s f w,
    (∀ sc token, is_Some (providers sc !! token) →
                 is_Some (providers (f sc) !! token)) →
    (∀ sc token, is_Some (bindings sc !! token) →
                 is_Some (bindings (f sc) !! token)) →
    registered_kept w (upd_scope s f w)) as Hupd.
  { intros s f w Hp Hb s' sc Hsc. rewrite scopes_upd. case_decide.
    - rewrite Hsc. exists (f sc). split; [done|]. split; intros; auto.
    - exists sc. split; [done|]. split; intros; auto. }
  assert (∀ m : gmap string string, ∀ a c token,
            is_Some (m !! token) → is_Some (<[a := c]> m !! token)) as Hins.
  { intros m a c token H. destruct (decide (a = token)) as [->|Hne].
    - rewrite lookup_insert_eq. eauto.
    - by rewrite lookup_insert_ne. }
  split; unfold registered_kept at 1; try (intros; by eauto).
  - intros w1 w2 w3 H1 H2 s sc Hsc.
    destruct (H1 s sc Hsc) as (sc1 & Hsc1 & P1 & B1).
    destruct (H2 s sc1 Hsc1) as (sc2 & Hsc2 & P2 & B2).
    exists sc2. split; [done|]. split; intros; auto.
  - intros s token p o w. apply Hupd; [|done]. intros sc token' H. simpl.
    destruct (decide (token = token')) as [->|Hne].
    + rewrite lookup_insert_eq. eauto.
    + by rewrite lookup_insert_ne.
  - intros s o a c h w. apply Hupd; intros sc token H; simpl.
    + destruct h as [[]|]; case_decide; done.
    + destruct h as [[]|]; case_decide; simpl; try done; by apply Hins.
  - intros s w s' sc Hsc. exists sc. by rewrite (scopes_inner_old _ _ _ sc).
  - intros. by apply Hupd.
  - intros. by apply Hupd.
  - intros. by apply Hupd.
  - intros s token sc w w2 Hsc H s' sc' Hsc'.
    destruct (Hupd s (set_makeStack (fun stk => stk ++ [token])) w
                ltac:(done) ltac:(done) s' sc' Hsc') as (sc1 & Hsc1 & P1 & B1).
    destruct (H s' sc1 Hsc1) as (sc2 & Hsc2 & P2 & B2).
    destruct (Hupd s (set_makeStack (@removelast string)) w2
                ltac:(done) ltac:(done) s' sc2 Hsc2) as (sc3 & Hsc3 & P3 & B3).
    exists sc3. split; [done|]. split; intros; auto.
Qed.

(** A registration can be replaced, never withdrawn: a token that has a
    provider, or an alias, on a container before a run of any program has
    one on that container afterwards. *)
Theorem registrations_are_never_withdrawn fuel p w r w' s sc :
  run fuel p w = Some (r, w') →
  scopes w !! s = Some sc →
  ∃ sc', scopes w' !! s = Some sc' ∧
    (∀ token, is_Some (providers sc !! token) → is_Some (providers sc' !! token)) ∧
    (∀ token, is_Some (bindings sc !! token) → is_Some (bindings sc' !! token)).
Proof.
  intros H. destruct (engine_preserves registered_kept fuel) as (Hrun & _).
  by eapply Hrun.
Qed.

(** ** Placeholders in use *)

Lemma deferred_kept w w' l s token h :
  closures_kept w w' → deferred w l s token h → deferred w' l s token h.
Proof.
  intros H (c & Hc & Hf & Hi). destruct (H l c Hc) as (c' & Hc' & E1 & E2).
  exists c'. by rewrite E1, E2.
Qed.

Lemma get_keeps_deferred fuel l w r w' k s token h :
  get fuel l w = Some (r, w') → deferred w k s token h → deferred w' k s token h.
Proof.
  intros H. apply deferred_kept.
  destruct (engine_preserves closures_kept fuel) as (_ & _ & _ & Hget & _).
  by eapply Hget.
Qed.

Lemma upd_cell_twice l v w :
  upd_cell l (set_instance v) (upd_cell l (set_instance v) w) =
  upd_cell l (set_instance v) w.
Proof.
  unfold upd_cell. simpl. f_equal.
  rewrite list_alter_alter_eq. apply list_alter_ext; [|done].
  by intros [] _.
Qed.

(** [get()] of a placeholder for a singleton that is in the cache: the
    singleton, and the world with it stored in [instance]. *)
Lemma get_of_cached_singleton f s sc token h l v w :
  scopes w !! s = Some sc →
  pool_capacity (bindOptions sc !! token) = Some 1%Z →
  pool sc !! token = Some [v] →
  deferred w l s token h →
  get (3 + f) l w = Some (inl v, upd_cell l (set_instance v) w).
Proof.
  intros Hsc Hcap Hl (c & Hc & Hf & Hi).
  change (3 + f) with (S (S (S f))).
  rewrite (get_uninitialized _ _ _ c) by done. rewrite Hf, run_Make.
  rewrite (make_recycles _ _ sc _ 1 [v]); [|done..|simpl; lia].
  simpl List.last. simpl removelast.
  rewrite (write_pool_id _ _ _ sc) by done. done.
Qed.

(** Once the singleton of [token] is in the cache of the container, a
    placeholder the container built for [token] stands for the singleton in
    the operations the [Proxy] lets through: each of the seven operations
    of [handed_on] runs on the singleton, with the placeholder as receiver
    replaced by the singleton, and a function read from it is handed back
    inside the inner proxy; the only trace left is the [instance] variable
    of the closure. The [Proxy] itself answers the rest: a call and a
    construction throw at once, before [get()], and [preventExtensions]
    runs on the singleton and then throws. *)
Theorem placeholder_forwards_to_singleton f s sc token h l v w :
  scopes w !! s = Some sc →
  pool_capacity (bindOptions sc !! token) = Some 1%Z →
  pool sc !! token = Some [v] →
  deferred w l s token h →
  let w' := upd_cell l (set_instance v) w in
  (∀ t, handed_on t = true →
     perform (4 + f) t (VLazy l) w =
     handed_back l t (perform (3 + f) (redirected l v t) v w')) ∧
  perform (4 + f) T_preventExtensions (VLazy l) w =
    and_then (perform (3 + f) T_preventExtensions v w')
      (fun _ w2 => Some (inr target_is_extensible, w2)) ∧
  (∀ thisArg argArray,
     perform (4 + f) (T_apply thisArg argArray) (VLazy l) w =
     Some (inr not_a_function, w)) ∧
  (∀ argArray newTarget,
     perform (4 + f) (T_construct argArray newTarget) (VLazy l) w =
     Some (inr not_a_constructor, w)).
Proof.
  intros Hsc Hcap Hl Hd w'.
  pose proof (get_of_cached_singleton f s sc token h l v w Hsc Hcap Hl Hd) as Hg.
  assert (get (3 + f) l w' = Some (inl v, w')) as Hg2.
  { subst w'. rewrite (get_of_cached_singleton f s sc token h l v); [|done..|].
    - by rewrite upd_cell_twice.
    - eapply get_keeps_deferred; done. }
  subst w'. change (4 + f) with (S (3 + f)).
  split; [|split; [|done]].
  - intros t Ht.
    destruct t; try discriminate Ht;
      cbn [perform redirected handed_back]; rewrite Hg; cbn [and_then];
      try done.
    + case_decide; [rewrite Hg2|]; cbn [and_then];
        destruct (perform _ _ _ _) as [[[r|e] w3]|]; cbn [and_then]; try done;
        by destruct (typeof_function r).
    + case_decide; [rewrite Hg2|]; done.
  - cbn [perform]. by rewrite Hg.
Qed.

(** A method read through such a placeholder and called on it runs with the
    singleton as [this]; called on anything else, it runs as it is. *)
Theorem method_of_placeholder_sees_instance f s sc token h l v fn thisArg args w :
  scopes w !! s = Some sc →
  pool_capacity (bindOptions sc !! token) = Some 1%Z →
  pool sc !! token = Some [v] →
  deferred w l s token h →
  perform (4 + f) (T_apply thisArg args) (VWrap fn l) w =
  if decide (thisArg = VLazy l)
  then perform (3 + f) (T_apply v args) fn (upd_cell l (set_instance v) w)
  else perform (3 + f) (T_apply thisArg args) fn w.
Proof.
  intros Hsc Hcap Hl Hd.
  change (4 + f) with (S (3 + f)). cbn [perform].
  case_decide; [|done].
  by rewrite (get_of_cached_singleton f s sc token h l v w).
Qed.

(** [get()] of a placeholder whose token is still being resolved: when it
    returns at all, it returns a new placeholder of the same kind. *)
Lemma get_in_flight fuel s token h l w :
  in_flight w s token → deferred w l s token h →
  get fuel l w = None ∨
  ∃ l' w', get fuel l w = Some (inl (VLazy l'), w') ∧
           in_flight w' s token ∧ deferred w' l' s token h ∧
           ∀ k, deferred w k s token h → deferred w' k s token h.
Proof.
  intros (sc & Hsc & Hb & Hstk & Hpool) Hd.
  pose proof Hd as (c & Hc & Hf & Hi).
  destruct (get fuel l w) as [[r w']|] eqn:Hget; [right|by left].
  pose proof (λ k, get_keeps_deferred _ _ _ _ _ k s token h Hget) as Hd'.
  destruct fuel as [|f]; [done|].
  rewrite (get_uninitialized _ _ _ c) in Hget by done.
  destruct f as [|f]; [done|]. rewrite Hf, run_Make in Hget.
  destruct f as [|f]; [done|].
  pose proof (cache_take_spec s token (pool_capacity (bindOptions sc !! token)) sc w) as Ht.
  destruct (cache_take _ _ _ _ _) as [[inst w1]|w1] eqn:Hct.
  { destruct Ht as (Hact & l0 & Hl0 & Hle & _). exfalso.
    rewrite Hl0 in Hpool. simpl in Hpool. subst l0.
    destruct (pool_capacity _) as [n|]; simpl in *; [|done].
    apply Z.ltb_lt in Hact. lia. }
  rewrite (make_miss _ _ sc _ _ _ w1) in Hget by done.
  destruct f as [|f]; [done|].
  assert (∃ sc1, scopes w1 !! s = Some sc1 ∧ bindings sc1 = bindings sc ∧
                 makeStack sc1 = makeStack sc ∧
                 default [] (pool sc1 !! token) = [] ∧
                 cells w1 = cells w ∧
                 (pool_active (pool_capacity (bindOptions sc !! token)) = true →
                  is_Some (pool sc1 !! token))) as
    (sc1 & Hsc1 & Eb & Es & Ep & Ec & Hsome).
  { destruct Ht as [[Hact ->]|[Hact [(l0 & Hl0 & -> & _)|[Hl0 ->]]]].
    - exists sc. repeat split; first [done|by rewrite Hact].
    - exists sc. repeat split; first [done|by rewrite Hl0].
    - eexists. split; [by apply scopes_upd_eq|]. simpl.
      rewrite lookup_insert_eq. by repeat split. }
  rewrite (make_internal_cycle _ _ sc1) in Hget by (by rewrite ?Eb, ?Es).
  cbn [and_then] in Hget.
  assert (cache_put s token (pool_capacity (bindOptions sc !! token))
            (VLazy (length (cells w1))) (snd (lazy (Make s token h Ret) w1)) =
          Some (inl (VLazy (length (cells w1))), snd (lazy (Make s token h Ret) w1)))
    as Hput.
  { destruct (pool_active (pool_capacity (bindOptions sc !! token))) eqn:E.
    - destruct Hsome as [ls Hls]; [done|].
      by apply (cache_put_lazy _ _ _ _ _ sc1 ls).
    - by apply cache_put_inactive. }
  rewrite Hput in Hget. cbn [and_then] in Hget. rewrite run_Ret in Hget.
  cbn [and_then] in Hget. injection Hget as <- <-.
  eexists _, _. split; [done|]. split; [|split; [|done]].
  - exists sc1. simpl. by rewrite Eb, Es.
  - exists {| factory := Make s token h Ret; instance := VUndef;
               initialized := false |}.
    simpl. split; [|done].
    rewrite list_lookup_alter_ne.
    + rewrite Ec. by apply list_lookup_middle.
    + apply lookup_lt_Some in Hc. rewrite Ec. lia.
Qed.

(** A placeholder cannot be used while its token is still being resolved
    and has no cached instance: every operation for which a trap runs asks
    [make] for the token, which answers with another placeholder, on which
    the operation is tried again, without end. No amount of fuel gives a
    result (in the JavaScript code the call stack overflows). A call and a
    construction, for which no trap runs, end at once with the [TypeError]
    of the [Proxy] and ask nothing. *)
Theorem placeholder_unusable_while_resolving s token h w l :
  in_flight w s token → deferred w l s token h →
  (∀ fuel t, trapped t = true → perform fuel t (VLazy l) w = None) ∧
  (∀ fuel t, trapped t = false →
     ∃ e, perform (S fuel) t (VLazy l) w = Some (inr e, w)).
Proof.
  intros Hw Hl. split.
  2:{ intros fuel t Ht. destruct t; try discriminate Ht; by eexists. }
  intros fuel. revert w l Hw Hl.
  induction fuel as [|f IH]; intros w l Hw Hl t Ht; [done|].
  assert (∀ w0 (k : value → world → outcome),
    in_flight w0 s token → deferred w0 l s token h →
    (∀ l' w', in_flight w' s token → deferred w' l' s token h →
              (∀ j, deferred w0 j s token h → deferred w' j s token h) →
              k (VLazy l') w' = None) →
    and_then (get f l w0) k = None) as Hget.
  { intros w0 k Hw0 Hl0 Hk.
    destruct (get_in_flight f s token h l w0 Hw0 Hl0)
      as [->|(l' & w' & -> & ? & ? & ?)]; [done|].
    cbn [and_then]. by apply Hk. }
  destruct t; try discriminate Ht;
    cbn [perform]; apply Hget; try done; intros l1 w1 Hw1 Hl1 Hk1;
    try by apply IH.
  - case_decide.
    + apply Hget; [done|by apply Hk1|]. intros l2 w2 Hw2 Hl2 Hk2.
      rewrite IH; [done|done|by apply Hk2|done].
    + cbn [and_then]. by rewrite IH.
  - by rewrite IH.
  - case_decide.
    + apply Hget; [done|by apply Hk1|]. intros l2 w2 Hw2 Hl2 Hk2.
      apply IH; [done|by apply Hk2|done].
    + cbn [and_then]. by apply IH.
Qed.

(** ** Failures, and aliases with a policy of their own *)

Lemma pop_push s token w : pop s (push s token w) = w.
Proof.
  transitivity (set_heap (heap w) w); [|by destruct w].
  rewrite <- (pop_heap_push s token). by destruct w.
Qed.

Lemma make_throwing f s sc token h e w :
  scopes w !! s = Some sc →
  truthy_binding (bindings sc !! token) = None →
  token ∉ makeStack sc →
  providers sc !! token = Some (fun _ _ => Throw e) →
  default [] (pool sc !! token) = [] →
  let cap := pool_capacity (bindOptions sc !! token) in
  make (3 + f) s token h w =
  Some (inr e, if pool_active cap then snd (init_pool s token sc w) else w).
Proof.
  intros Hsc Hb Hstk Hp Hl cap. change (3 + f) with (S (S (S f))).
  assert (∀ w1 sc1, scopes w1 !! s = Some sc1 →
            bindings sc1 = bindings sc → makeStack sc1 = makeStack sc →
            providers sc1 = providers sc →
            make_internal (S (S f)) s token s h w1 = Some (inr e, w1)) as Hint.
  { intros w1 sc1 Hsc1 Eb Es Ep.
    rewrite (make_internal_provider _ _ sc1 _ _ _ _ (fun _ _ => Throw e))
      by (by rewrite ?Eb, ?Es, ?Ep).
    simpl. by rewrite pop_push. }
  destruct (pool_active cap) eqn:Hact.
  - assert (cache_take s token cap sc w = inr (snd (init_pool s token sc w))) as Ht.
    { unfold cache_take. rewrite Hact. unfold init_pool. clearbody cap.
      destruct cap as [n|]; [|done]. simpl in Hact. apply Z.ltb_lt in Hact.
      destruct (pool sc !! token) as [l|]; simpl in Hl |- *; subst.
      all: change (Z.of_nat _) with 0%Z.
      all: by destruct (n <=? 0)%Z eqn:E; [lia|]. }
    rewrite (make_miss _ _ sc _ _ _ _ Hsc Ht).
    unfold init_pool. destruct (pool sc !! token); cbn [snd].
    + by rewrite (Hint w sc).
    + by erewrite (Hint (write_pool s token [] w)); [|by apply scopes_upd_eq|..].
  - rewrite (make_uncached _ _ sc) by done. by rewrite (Hint w sc).
Qed.

(** A provider that throws: the exception reaches the caller of [make] as
    it is, whatever the policy of the token; nothing is cached and the
    resolution stack is as before, so a second [make] calls the provider
    again and fails the same way. *)
Theorem failed_construction_is_not_cached f s sc token o h e w0 :
  scopes w0 !! s = Some sc →
  truthy_binding (bindings sc !! token) = None →
  token ∉ makeStack sc →
  default [] (pool sc !! token) = [] →
  let w := provide s token (fun _ _ => Throw e) o w0 in
  ∃ w1, make (3 + f) s token h w = Some (inr e, w1) ∧
        make (3 + f) s token h w1 = Some (inr e, w1) ∧
        cached w1 s token = [] ∧
        stack_of w1 s = makeStack sc.
Proof.
  intros Hsc Hb Hstk Hl w.
  set (sc1 := set_bindOptions (store_options token o)
                (set_providers (<[token := fun _ _ => Throw e]>) sc)).
  assert (scopes w !! s = Some sc1) as Hsc1.
  { subst w. unfold provide. by rewrite (scopes_upd_eq _ _ _ sc). }
  assert (providers sc1 !! token = Some (fun _ _ => Throw e)) as Hp
    by (simpl; by rewrite lookup_insert_eq).
  pose proof (make_throwing f s sc1 token h e w Hsc1 Hb Hstk Hp Hl) as H1.
  cbn zeta in H1.
  destruct (pool_active (pool_capacity (bindOptions sc1 !! token))) eqn:Hact.
  - unfold init_pool in H1. change (pool sc1) with (pool sc) in H1.
    destruct (pool sc !! token) as [l|] eqn:Hpool; cbn [snd] in H1.
    + simpl in Hl. subst l.
      exists w. split; [done|]. split; [done|].
      unfold cached, pool_of, stack_of. rewrite Hsc1.
      change (pool sc1) with (pool sc). by rewrite Hpool.
    + exists (write_pool s token [] w). split; [done|].
      set (sc2 := set_pool (<[token := []]>) sc1).
      assert (scopes (write_pool s token [] w) !! s = Some sc2) as Hsc2
        by (by apply scopes_upd_eq).
      split.
      * rewrite (make_throwing f s sc2 token h e); [|done..|].
        -- cbn zeta. change (bindOptions sc2) with (bindOptions sc1).
           rewrite Hact. unfold init_pool. simpl.
           by rewrite lookup_insert_eq.
        -- simpl. by rewrite lookup_insert_eq.
      * unfold cached, pool_of, stack_of. rewrite Hsc2. simpl.
        by rewrite lookup_insert_eq.
  - exists w. split; [done|]. split; [done|].
    unfold cached, pool_of, stack_of. by rewrite Hsc1.
Qed.

(** An alias bound as a singleton keeps its own cache: the first [make] of
    the alias builds the target once and stores it under the alias, later
    calls return that instance and build nothing, while the target itself,
    without a policy, is still built anew and its cache is what it was. *)
Theorem alias_policy_caches_under_alias f s sc A B h w0 fields :
  scopes w0 !! s = Some sc →
  A ≠ B → B ≠ EmptyString →
  pool sc !! A = None →
  bindOptions sc !! B = None →
  truthy_binding (bindings sc !! B) = None →
  B ∉ makeStack sc →
  providers sc !! B = Some (instance_of fields) →
  let w := bind s (Some (singleton_options true)) A B None w0 in
  let v := VObj (length (heap w0)) in
  let w1 := write_pool s A [v] (set_heap (heap w0 ++ [fields]) w) in
  make (6 + f) s A h w = Some (inl v, w1) ∧
  make (S f) s A h w1 = Some (inl v, w1) ∧
  make (4 + f) s B None w1 =
    Some (inl (VObj (S (length (heap w0)))),
          set_heap (heap w0 ++ [fields; fields]) w1) ∧
  cached w1 s B = cached w0 s B.
Proof.
  intros Hsc HAB HB HlA HoB HbB HsB HpB w v w1.
  set (sc1 := set_bindOptions (<[A := singleton_options true]>)
                (set_bindings (<[A := B]>) sc)).
  assert (scopes w !! s = Some sc1) as Hsc1.
  { subst w. unfold bind. rewrite (scopes_upd_eq _ _ _ sc) by done.
    by rewrite decide_False. }
  assert (pool_capacity (bindOptions sc1 !! A) = Some 1%Z) as Hcap
    by (simpl; by rewrite lookup_insert_eq).
  assert (bindOptions sc1 !! B = None) as HoB1
    by (simpl; by rewrite lookup_insert_ne).
  assert (truthy_binding (bindings sc1 !! B) = None) as HbB1
    by (simpl; by rewrite lookup_insert_ne).
  set (sc3 := set_pool (<[A := [v]]>) sc1).
  assert (scopes w1 !! s = Some sc3) as Hsc3 by (by apply scopes_upd_eq).
  split; [|split; [|split]].
  - change (6 + f) with (S (S (4 + f))).
    rewrite (make_miss _ _ sc1 _ _ _ (write_pool s A [] w)); [|done|].
    2:{ rewrite Hcap. unfold cache_take, init_pool. simpl. by rewrite HlA. }
    set (sc2 := set_pool (<[A := []]>) sc1).
    assert (scopes (write_pool s A [] w) !! s = Some sc2) as Hsc2
      by (by apply scopes_upd_eq).
    rewrite (make_internal_alias _ _ sc2 _ B); [|done|].
    2:{ simpl. rewrite lookup_insert_eq. by apply truthy_binding_Some. }
    rewrite (make_uncached_instance f s sc2 B None _ fields); try done.
    2:{ change (bindOptions sc2) with (bindOptions sc1). by rewrite HoB1. }
    cbn [and_then]. rewrite Hcap.
    rewrite (cache_put_insert _ _ _ _ _ sc2 []);
      [|exact Hsc2|simpl; by rewrite lookup_insert_eq|done|done|simpl; lia].
    do 2 f_equal. subst w1 v. simpl heap.
    change (set_heap ?x (write_pool s A [] w)) with
      (write_pool s A [] (set_heap x w)).
    by rewrite write_pool_twice.
  - rewrite (make_recycles _ _ sc3 _ 1 [v]); [|done..| |done|simpl; lia].
    + simpl List.last. simpl removelast.
      by rewrite (write_pool_id _ _ _ sc3) by (done || (simpl; by rewrite lookup_insert_eq)).
    + simpl. by rewrite lookup_insert_eq.
  - rewrite (make_uncached_instance f s sc3 B None w1 fields); try done.
    + subst w1. simpl. rewrite length_app. simpl.
      rewrite <- app_assoc. simpl.
      by replace (length (heap w0) + 1) with (S (length (heap w0))) by lia.
    + change (bindOptions sc3) with (bindOptions sc1). by rewrite HoB1.
  - unfold cached, pool_of. rewrite Hsc3, Hsc. simpl.
    by rewrite lookup_insert_ne.
Qed.

(** Binding a token to itself removes nothing: an alias recorded earlier
    for the token is still followed. *)
Theorem rebinding_to_itself_keeps_alias f s sc A B o hint h w0 :
  scopes w0 !! s = Some sc →
  A ≠ B → B ≠ EmptyString →
  let w := bind s None A A hint (bind s o A B None w0) in
  make (2 + f) s A h w = make f s B None w.
Proof.
  intros Hsc HAB HB w.
  assert (∃ sc1, scopes w !! s = Some sc1 ∧ bindings sc1 !! A = Some B ∧
                 bindOptions sc1 !! A = None) as (sc1 & Hsc1 & Hb & Ho).
  { eexists. split.
    - subst w. unfold bind at 1. apply scopes_upd_eq.
      unfold bind. by apply scopes_upd_eq.
    - rewrite decide_True by done. rewrite decide_False by done.
      destruct hint as [[]|]; simpl; by rewrite lookup_insert_eq, lookup_delete_eq. }
  change (2 + f) with (S (S f)).
  rewrite (make_uncached _ _ sc1); [|done|by rewrite Ho].
  apply (make_internal_alias _ _ sc1); [done|].
  rewrite Hb. by apply truthy_binding_Some.
Qed.

End Properties.

(** C1, where the code departs from it: [initialized] is tested by [get]
    and never set, so the factory of a placeholder runs at every
    intercepted operation (each run of the factory below allocates one
    object): once for a first [isExtensible], once more for a second one,
    which replaces the stored instance, and twice within one property read
    through the placeholder. *)
Theorem lazy_runs_factory_at_each_operation :
  ∃ w1 w2 w3,
    perform plain_host 5 T_isExtensible (VLazy 0) placeholder_world =
      Some (inl VUndef, w1) ∧
    length (heap w1) = 1 ∧
    instance <$> cells w1 !! 0 = Some (VObj 0) ∧
    initialized <$> cells w1 !! 0 = Some false ∧
    perform plain_host 5 T_isExtensible (VLazy 0) w1 = Some (inl VUndef, w2) ∧
    length (heap w2) = 2 ∧
    instance <$> cells w2 !! 0 = Some (VObj 1) ∧
    perform plain_host 5 (T_get "x" (VLazy 0)) (VLazy 0) w2 =
      Some (inl VUndef, w3) ∧
    length (heap w3) = 4.
Proof.
  do 3 eexists.
  split; [vm_compute; reflexivity|].
  do 3 (split; [vm_compute; reflexivity|]).
  split; [vm_compute; reflexivity|].
  do 2 (split; [vm_compute; reflexivity|]).
  split; vm_compute; reflexivity.
Qed.

(** * The tokens of the transformer *)

Lemma split_at_first sep name rest :
  occurs sep name = false →
  split sep (name +:+ String sep rest) = name :: split sep rest.
Proof.
  induction name as [|a name IH]; simpl; intros H.
  - by rewrite Ascii.eqb_refl.
  - apply orb_false_iff in H as [Ha Hn]. rewrite Ha, IH by done. done.
Qed.

Lemma human_name_of_id name rest :
  occurs "@" name = false →
  human_name (name +:+ "@" +:+ rest) = name.
Proof.
  intros H. unfold human_name.
  change ("@" +:+ rest) with (String "@" rest).
  by rewrite split_at_first.
Qed.

Lemma append_assoc (a b c : string) : (a +:+ b) +:+ c = a +:+ (b +:+ c).
Proof.
  induction a as [|x a IH]; [done|].
  change (String x ((a +:+ b) +:+ c) = String x (a +:+ b +:+ c)).
  by rewrite IH.
Qed.

Lemma occurs_middle c a b : occurs c (a +:+ String c b) = true.
Proof.
  induction a as [|x a IH].
  - simpl. by rewrite Ascii.eqb_refl.
  - change (Ascii.eqb x c || occurs c (a +:+ String c b) = true).
    rewrite IH. apply orb_true_r.
Qed.

Lemma number_toString_no_colon n : occurs ":" (number_toString n) = false.
Proof.
  unfold number_toString. by induction (Nat.to_uint n).
Qed.

Lemma number_toString_inj n m : number_toString n = number_toString m → n = m.
Proof.
  unfold number_toString. intros H.
  apply DecimalNat.Unsigned.to_uint_inj.
  apply (f_equal DecimalString.NilEmpty.uint_of_string) in H.
  rewrite !DecimalString.NilEmpty.usu in H. congruence.
Qed.

(** Two strings that end in a separator and a text without it are equal
    only part by part. *)
Lemma split_at_last c r1 r2 d1 d2 :
  occurs c d1 = false → occurs c d2 = false →
  r1 +:+ String c d1 = r2 +:+ String c d2 → r1 = r2 ∧ d1 = d2.
Proof.
  intros H1 H2. revert r2.
  induction r1 as [|x r1 IH]; intros [|y r2] E.
  - by injection E.
  - injection E as -> ->. by rewrite occurs_middle in H1.
  - injection E as -> <-. by rewrite occurs_middle in H2.
  - injection E as -> E. by destruct (IH _ E) as [-> ->].
Qed.

(** The error of a missing provider names the class: for the token of a
    class or interface type with a named declaration, [#make] reports
    [No provider for] followed by the name of the first such declaration (or
    [anonymous]), without the file and position that follow the [@]. *)
Theorem missing_provider_names_the_class cwd ds dec rest :
  List.filter isNamedDeclaration ds = dec :: rest →
  occurs "@" (display_name dec) = false →
  missing_provider (makePersistentTypeId cwd (ClassOrInterface (Some ds))) =
  Error ("No provider for " +:+ display_name dec).
Proof.
  intros Hds Hname. unfold missing_provider. do 2 f_equal.
  cbn [makePersistentTypeId fmap option_fmap option_map]. rewrite Hds.
  assert (∃ tail, join "," (map (makePersistentDeclarationId cwd) (dec :: rest)) =
                  display_name dec +:+ "@" +:+ tail) as [tail ->].
  { unfold makePersistentDeclarationId at 1.
    destruct rest as [|d rest]; cbn [map join]; [by eexists|].
    eexists. rewrite !append_assoc. done. }
  assert (or_else (Some (display_name dec +:+ "@" +:+ tail)) "unknown" =
          display_name dec +:+ "@" +:+ tail) as -> by (by destruct (display_name dec)).
  by apply human_name_of_id.
Qed.

(** The identifier of a declaration tells declarations apart exactly as far
    as their displayed name, their file relative to the working directory
    and their start position do. *)
Theorem declaration_ids_distinguish cwd d1 d2 :
  occurs "@" (display_name d1) = false →
  occurs "@" (display_name d2) = false →
  makePersistentDeclarationId cwd d1 = makePersistentDeclarationId cwd d2 ↔
  display_name d1 = display_name d2 ∧
  relative_file cwd d1 = relative_file cwd d2 ∧
  getStart d1 = getStart d2.
Proof.
  intros H1 H2. unfold makePersistentDeclarationId. split.
  - intros E.
    assert (display_name d1 = display_name d2) as En.
    { apply (f_equal human_name) in E.
      by rewrite !human_name_of_id in E. }
    split; [done|]. rewrite En in E. apply String.app_inj in E.
    injection E as E.
    apply (split_at_last ":"%char) in E as [Ef Es];
      [|apply number_toString_no_colon..].
    split; [done|]. by apply number_toString_inj.
  - by intros (-> & -> & ->).
Qed.

(** ** The theorems at concrete inputs *)

Ltac scope_of w s k :=
  let o := eval vm_compute in (scopes w !! s) in
  match o with
  | Some ?sc => k sc
  end.

Lemma alias_uses_target_cache_witness :
  make plain_host 6 0 "A" None alias_world = make plain_host 4 0 "C" None alias_world.
Proof.
  refine (proj1 (alias_uses_target_cache plain_host 4 0 _ "A" "C" None
                   alias_world _ _ _ _));
    [vm_compute; reflexivity|vm_compute; reflexivity|discriminate
    |vm_compute; reflexivity].
Defined.

(** C2 fails as stated: with [A] bound to [C], a pool of one on [C] and no
    options on [A], the second [make(A)] returns the instance of the first
    and builds nothing. *)
Lemma alias_make_not_fresh :
  (scopes alias_world !! 0 ≫= λ sc, bindings sc !! "A") = Some "C" ∧
  (scopes alias_world !! 0 ≫= λ sc, bindOptions sc !! "A") = None ∧
  (scopes alias_world !! 0 ≫= λ sc, bindOptions sc !! "C") = Some (pool_options 1) ∧
  ∃ w1 w2,
    make plain_host 6 0 "A" None alias_world = Some (inl (VObj 0), w1) ∧
    make plain_host 6 0 "A" None w1 = Some (inl (VObj 0), w2) ∧
    heap w2 = heap w1.
Proof.
  repeat split; [vm_compute; reflexivity..|].
  do 2 eexists. split; [vm_compute; reflexivity|].
  split; vm_compute; reflexivity.
Qed.

Lemma cycle_terminates_witness :
  ∃ w', make plain_host 8 0 "A" None cycle_world = Some (inl (VObj 1), w') ∧
        heap w' !! 0 = Some {[ "a" := VLazy 0 ]} ∧
        heap w' !! 1 = Some {[ "b" := VObj 0 ]} ∧
        make plain_host 1 0 "B" None w' = Some (inl (VObj 0), w').
Proof.
  scope_of cycle_world 0 ltac:(fun sc =>
    destruct (cycle_terminates plain_host 0 0 sc "A" "B" "a" "b" None cycle_world)
    as (w' & H1 & H2 & _ & H4 & _ & H7 & _);
    [vm_compute; reflexivity|discriminate|vm_compute; reflexivity
    |vm_compute; reflexivity|vm_compute; reflexivity|vm_compute; reflexivity
    |apply not_elem_of_nil|apply not_elem_of_nil|intros _; vm_compute; reflexivity
    |intros _; vm_compute; reflexivity|]).
  exists w'. repeat split; [exact H1|exact H2|exact H4|].
  apply H7; vm_compute; reflexivity.
Defined.

Lemma pool_of_two_rotates_witness :
  ∃ w1 w2 w3 w4 w5,
    let w := provide 0 "T" fresh_instance (Some (pool_options 2)) root_world in
    make plain_host 4 0 "T" None w = Some (inl (VObj 0), w1) ∧
    make plain_host 4 0 "T" None w1 = Some (inl (VObj 1), w2) ∧
    make plain_host 4 0 "T" None w2 = Some (inl (VObj 0), w3) ∧
    make plain_host 4 0 "T" None w3 = Some (inl (VObj 1), w4) ∧
    make plain_host 4 0 "T" None w4 = Some (inl (VObj 0), w5).
Proof.
  scope_of root_world 0 ltac:(fun sc =>
    destruct (pool_of_two_rotates plain_host 0 root_world 0 sc "T" None)
    as (w1 & w2 & w3 & w4 & w5 & H1 & _ & H2 & _ & H3 & _ & H4 & _ & H5 & _);
    [vm_compute; reflexivity|vm_compute; reflexivity|apply not_elem_of_nil
    |vm_compute; reflexivity|]).
  exists w1, w2, w3, w4, w5. repeat split; assumption.
Defined.

Lemma singleton_identity_witness :
  ∃ i0 i1 i2 w1 w2 w3,
    let opts := Some (singleton_options true) in
    let wc := provide 2 "T" fresh_instance opts
                (provide 1 "T" fresh_instance opts
                   (snd (inner 0 (snd (inner 0
                      (provide 0 "T" fresh_instance opts root_world)))))) in
    make plain_host 4 0 "T" None wc = Some (inl i0, w1) ∧
    make plain_host 1 0 "T" None w1 = Some (inl i0, w1) ∧
    make plain_host 4 1 "T" None w1 = Some (inl i1, w2) ∧
    make plain_host 4 2 "T" None w2 = Some (inl i2, w3) ∧
    i0 ≠ i1 ∧ i0 ≠ i2 ∧ i1 ≠ i2.
Proof.
  scope_of root_world 0 ltac:(fun sc =>
    destruct (singleton_identity plain_host 0 root_world 0 sc "T" None)
    as (i0 & i1 & i2 & w1 & w2 & w3 & H1 & R1 & H2 & H3 & _ & _ & _ & N1 & N2 & N3);
    [vm_compute; reflexivity|vm_compute; reflexivity|apply not_elem_of_nil
    |vm_compute; reflexivity|]).
  exists i0, i1, i2, w1, w2, w3.
  repeat split; [exact H1|apply R1|exact H2|exact H3|exact N1|exact N2|exact N3].
Defined.

Lemma make_unwinds_stack_witness :
  ∃ w', make plain_host 4 0 "T" None throwing_world = Some (inr (Error "boom"), w') ∧
        stack_of w' 0 = stack_of throwing_world 0.
Proof.
  destruct (proj2 (make_unwinds_stack plain_host 4 0 "T" None throwing_world)
              2 (Throw (Error "boom")) (push 0 "T" throwing_world)
              (Error "boom") (push 0 "T" throwing_world))
    as (w' & H & Hs); [vm_compute; reflexivity|vm_compute; reflexivity|].
  exists w'. split; [exact H|apply Hs].
Defined.

Lemma parents_first_aliased_world : parents_first aliased_world.
Proof.
  apply parents_first_inner; [simpl; lia|].
  apply parents_first_bind, parents_first_root.
Qed.

Lemma aliases_nonempty_aliased_world : aliases_nonempty aliased_world.
Proof.
  apply aliases_nonempty_inner, aliases_nonempty_bind; [done|].
  apply aliases_nonempty_root.
Qed.

Lemma no_cache_in_aliased_world a t : ¬ cache_serves aliased_world a t.
Proof.
  intros (sc & n & Hsc & Hcap & _).
  destruct a as [|[|a]]; simpl in Hsc; [| |done].
  all: injection Hsc as <-; simpl in Hcap.
  - by rewrite lookup_delete_eq in Hcap || rewrite lookup_delete_ne in Hcap.
  - by rewrite lookup_empty in Hcap.
Qed.

Lemma unprovided_aliased_world :
  unprovided aliased_world 1 "Service" "Impl@src/impl.ts:10".
Proof.
  scope_of aliased_world 1 ltac:(fun sc =>
    apply (unprovided_parent aliased_world 1 sc "Service" 0));
    [vm_compute; reflexivity|vm_compute; reflexivity|apply not_elem_of_nil
    |vm_compute; reflexivity|vm_compute; reflexivity|].
  scope_of aliased_world 0 ltac:(fun sc =>
    apply (unprovided_alias aliased_world 0 sc "Service" "Impl@src/impl.ts:10"));
    [vm_compute; reflexivity|vm_compute; reflexivity
    |apply no_cache_in_aliased_world|].
  scope_of aliased_world 0 ltac:(fun sc =>
    apply (unprovided_root aliased_world 0 sc));
    [vm_compute; reflexivity|vm_compute; reflexivity|apply not_elem_of_nil
    |vm_compute; reflexivity|vm_compute; reflexivity].
Qed.

Lemma missing_provider_error_witness :
  ∃ n, ∀ f, ∃ w',
    make plain_host (n + f) 1 "Service" None aliased_world =
    Some (inr (Error "No provider for Impl"), w').
Proof.
  exact (proj1 (missing_provider_error plain_host 1 "Service" None aliased_world
                  parents_first_aliased_world aliases_nonempty_aliased_world)
           "Impl@src/impl.ts:10" (no_cache_in_aliased_world 1 "Service")
           unprovided_aliased_world).
Defined.

(** C7 fails as stated: the parent aliases ["A"] to ["C"] and the child
    registers a provider for ["C"], so a provider for the aliased token is
    registered on the chain of the child; [make("A")] on the child follows
    the alias on the parent, looks ["C"] up from the parent, and throws. *)
Lemma chain_provider_not_found :
  (scopes split_world !! 1 ≫= parent) = Some 0 ∧
  (scopes split_world !! 0 ≫= λ sc, bindings sc !! "A") = Some "C" ∧
  (scopes split_world !! 1 ≫= λ sc, bindings sc !! "A") = None ∧
  registered split_world 1 "C" fresh_instance ∧
  ∃ w', make plain_host 5 1 "A" None split_world =
        Some (inr (Error "No provider for C"), w').
Proof.
  split; [vm_compute; reflexivity|]. split; [vm_compute; reflexivity|].
  split; [vm_compute; reflexivity|]. split.
  - eexists. split; vm_compute; reflexivity.
  - eexists. vm_compute; reflexivity.
Qed.

Lemma pools_clean_cycle_world : pools_clean cycle_world.
Proof.
  unfold cycle_world.
  eapply pools_clean_ext; [intros; apply pool_of_provide|].
  eapply pools_clean_ext; [intros; apply pool_of_provide|].
  apply pools_clean_create, pools_clean_empty.
Qed.

Lemma placeholders_never_cached_witness :
  ∃ r w', make plain_host 8 0 "A" None cycle_world = Some (r, w') ∧ pools_clean w'.
Proof.
  do 2 eexists. split; [vm_compute; reflexivity|].
  eapply (proj1 (placeholders_never_cached plain_host 8 cycle_world
                   pools_clean_cycle_world) 0 "A" None).
  vm_compute; reflexivity.
Defined.





Lemma singleton_key_presence_witness :
  ∃ i w1,
    make plain_host 4 0 "T" None
      (provide 0 "T" fresh_instance (Some (singleton_options false)) root_world) =
      Some (inl i, w1) ∧
    make plain_host 1 0 "T" None w1 = Some (inl i, w1).
Proof.
  scope_of root_world 0 ltac:(fun sc =>
    destruct (proj2 (proj2 (singleton_key_presence plain_host false None))
                0 root_world 0 sc "T" None)
    as (i & w1 & H & R);
    [vm_compute; reflexivity|vm_compute; reflexivity|apply not_elem_of_nil
    |vm_compute; reflexivity|]).
  exists i, w1. split; [exact H|apply R].
Defined.

(** ** The further properties at concrete inputs *)

Lemma provide_keeps_cached_instances_witness :
  let w := write_pool 0 "T" [VObj 0] (set_heap [∅] root_world) in
  ∃ w', make plain_host 1 0 "T" None
          (provide 0 "T" (instance_of {[ "x" := VUndef ]})
             (Some (singleton_options true)) w) =
        Some (inl (VObj 0), w').
Proof.
  intros w. eexists.
  scope_of w 0 ltac:(fun sc =>
    refine (provide_keeps_cached_instances plain_host 0 0 sc "T"
              (instance_of {[ "x" := VUndef ]}) (singleton_options true)
              1 [VObj 0] None w _ _ _ _ _));
    [vm_compute; reflexivity|vm_compute; reflexivity|reflexivity|lia|simpl; lia].
Defined.

Lemma provide_without_options_is_fresh_each_time_witness :
  let w0 := provide 0 "T" fresh_instance (Some (singleton_options true)) root_world in
  ∃ w', make_times plain_host 3 4 0 "T" None
          (provide 0 "T" (instance_of ∅) None w0) =
        Some ([inl (VObj 0); inl (VObj 1); inl (VObj 2)], w').
Proof.
  intros w0. eexists.
  scope_of w0 0 ltac:(fun sc =>
    refine (provide_without_options_is_fresh_each_time plain_host 3 0 0 sc "T"
              None w0 ∅ _ _ _));
    [vm_compute; reflexivity|vm_compute; reflexivity|apply not_elem_of_nil].
Defined.

Lemma nonpositive_pool_is_no_cache_witness :
  ∃ w', make_times plain_host 2 4 0 "T" None
          (provide 0 "T" (instance_of ∅) (Some (pool_options 0)) root_world) =
        Some ([inl (VObj 0); inl (VObj 1)], w') ∧
        pool_of w' 0 = ∅.
Proof.
  eexists. split.
  - scope_of root_world 0 ltac:(fun sc =>
      refine (nonpositive_pool_is_no_cache plain_host 2 0 0 sc "T" None
                root_world ∅ 0 _ _ _ _));
      [vm_compute; reflexivity|vm_compute; reflexivity|apply not_elem_of_nil|lia].
  - vm_compute; reflexivity.
Defined.

Lemma full_cache_round_robin_witness :
  let w := write_pool 0 "T" [VObj 1; VObj 0]
             (set_heap [∅; ∅]
                (provide 0 "T" fresh_instance (Some (pool_options 2)) root_world)) in
  make_times plain_host 2 1 0 "T" None w = Some ([inl (VObj 0); inl (VObj 1)], w).
Proof.
  intros w.
  scope_of w 0 ltac:(fun sc =>
    refine (full_cache_round_robin plain_host 0 0 sc "T" 2 [VObj 1; VObj 0]
              None w _ _ _ _ _));
    [vm_compute; reflexivity|vm_compute; reflexivity|lia
    |vm_compute; reflexivity|simpl; lia].
Defined.

Lemma pool_fills_then_cycles_witness :
  let w := provide 0 "T" fresh_instance (Some (pool_options 3)) root_world in
  let built := [inl (VObj 0); inl (VObj 1); inl (VObj 2)] in
  ∃ w', make_times plain_host 3 4 0 "T" None w = Some (built, w') ∧
        make_times plain_host 3 1 0 "T" None w' = Some (built, w').
Proof.
  intros w built.
  destruct (pool_fills_then_cycles plain_host 3 0 w 0 "T" None) as (w' & H1 & H2).
  - scope_of w 0 ltac:(fun sc => exists sc).
    split; [vm_compute; reflexivity|]. split; [vm_compute; reflexivity|].
    split; [reflexivity|]. split; [vm_compute; reflexivity|].
    split; [apply not_elem_of_nil|]. split; vm_compute; reflexivity.
  - exists w'. split; [exact H1|exact (H2 0)].
Defined.

Lemma child_requests_bypass_parent_cache_witness :
  let w := write_pool 0 "T" [VObj 0]
             (set_heap [∅]
                (provide 0 "T" (instance_of ∅) (Some (singleton_options true))
                   root_world)) in
  ∃ w', make_times plain_host 2 5 1 "T" None (snd (inner 0 w)) =
        Some ([inl (VObj 1); inl (VObj 2)], w') ∧
        pool_of w' 0 = pool_of w 0 ∧ pool_of w' 1 = ∅.
Proof.
  intros w. eexists. split.
  - scope_of w 0 ltac:(fun sc =>
      refine (child_requests_bypass_parent_cache plain_host 2 0 0 sc "T" None
                w ∅ _ _ _ _));
      [vm_compute; reflexivity|vm_compute; reflexivity|apply not_elem_of_nil
      |vm_compute; reflexivity].
  - split; vm_compute; reflexivity.
Defined.

Lemma child_override_shadows_witness :
  let w := provide 0 "T" (instance_of ∅) None root_world in
  let w1 := provide 1 "T" (instance_of {[ "child" := VUndef ]}) None
              (snd (inner 0 w)) in
  make plain_host 4 1 "T" None w1 =
    Some (inl (VObj 0), set_heap [ {[ "child" := VUndef ]} ] w1) ∧
  make plain_host 4 0 "T" None w1 = Some (inl (VObj 0), set_heap [∅] w1).
Proof.
  intros w w1.
  scope_of w 0 ltac:(fun sc =>
    refine (child_override_shadows plain_host 0 0 sc "T" None w ∅
              {[ "child" := VUndef ]} _ _ _ _ _));
    [vm_compute; reflexivity|vm_compute; reflexivity|vm_compute; reflexivity
    |apply not_elem_of_nil|vm_compute; reflexivity].
Defined.

Lemma inherited_provider_resolves_on_child_witness :
  let w := provide 1 "B" (instance_of ∅) None
             (snd (inner 0 (provide 0 "A" (depends_on "B" "b") None root_world))) in
  make plain_host 8 1 "A" None w =
  Some (inl (VObj 1), set_heap [∅; {[ "b" := VObj 0 ]}] w).
Proof.
  intros w.
  scope_of w 0 ltac:(fun scP => scope_of w 1 ltac:(fun scC =>
    refine (inherited_provider_resolves_on_child plain_host 0 1 0 scC scP
              "A" "B" "b" None w ∅ _ _ _ _ _ _ _ _ _ _ _ _ _ _ _ _)));
    try (vm_compute; reflexivity); try discriminate; apply not_elem_of_nil.
Defined.


Lemma empty_alias_is_ignored_witness :
  let w0 := provide 0 "A" (instance_of ∅) None root_world in
  let w := bind 0 None "A" EmptyString None w0 in
  make plain_host 4 0 "A" None w = Some (inl (VObj 0), set_heap [∅] w).
Proof.
  intros w0 w.
  scope_of w0 0 ltac:(fun sc =>
    refine (proj2 (empty_alias_is_ignored plain_host 0 0 sc "A" None w0 ∅
                     _ _ _ _)));
    try (vm_compute; reflexivity); try discriminate; apply not_elem_of_nil.
Defined.

Lemma alias_cycle_never_returns_witness :
  let w := bind 0 None "B" "A" None (bind 0 None "A" "B" None root_world) in
  make plain_host 100 0 "A" None w = None.
Proof.
  intros w.
  scope_of w 0 ltac:(fun sc =>
    refine (proj1 (alias_cycle_never_returns plain_host 0 sc "A" "B" w
                     _ _ _ _ _ _ _ 100 None)));
    try (vm_compute; reflexivity); discriminate.
Defined.

Lemma no_self_alias_root : no_self_alias root_world.
Proof.
  intros s sc token H. destruct s as [|s]; simpl in H; [|done].
  injection H as <-. simpl. by rewrite lookup_empty.
Qed.

Lemma no_token_aliases_itself_witness :
  let p := Bind 0 None "A" "B" None (Bind 0 None "A" "A" None (Ret VUndef)) in
  let w' := bind 0 None "A" "A" None (bind 0 None "A" "B" None root_world) in
  run plain_host 3 p root_world = Some (inl VUndef, w') ∧ no_self_alias w'.
Proof.
  intros p w'. split; [vm_compute; reflexivity|].
  refine (no_token_aliases_itself plain_host 3 p root_world (inl VUndef) w'
            no_self_alias_root _).
  vm_compute; reflexivity.
Defined.

Lemma containers_keep_their_parent_witness :
  let p := Inner 1 (fun c => Provide c "T" fresh_instance None
                               (Provide 1 "U" fresh_instance None (Ret VUndef))) in
  ∃ w' sc', run plain_host 4 p family_world = Some (inl VUndef, w') ∧
            scopes w' !! 1 = Some sc' ∧ parent sc' = Some 0.
Proof.
  intros p.
  pose (w' := provide 1 "U" fresh_instance None
                (provide 2 "T" fresh_instance None (snd (inner 1 family_world)))).
  assert (run plain_host 4 p family_world = Some (inl VUndef, w')) as Hrun
    by (vm_compute; reflexivity).
  scope_of family_world 1 ltac:(fun sc =>
    destruct (containers_keep_their_parent plain_host 4 p family_world
                (inl VUndef) w' 1 sc Hrun) as (sc' & Hsc' & Hpar);
    [vm_compute; reflexivity|]).
  exists w', sc'. split; [exact Hrun|]. split; [exact Hsc'|exact Hpar].
Defined.

Lemma placeholder_forwards_to_singleton_witness :
  let w := snd (lazy (Make 0 "T" None Ret)
             (write_pool 0 "T" [VObj 0]
                (set_heap [ {[ "x" := VObj 5 ]} ]
                   (provide 0 "T" fresh_instance (Some (singleton_options true))
                      root_world)))) in
  let w' := upd_cell 0 (set_instance (VObj 0)) w in
  perform plain_host 4 (T_get "x" (VLazy 0)) (VLazy 0) w = Some (inl (VObj 5), w') ∧
  perform plain_host 4 T_preventExtensions (VLazy 0) w =
    Some (inr target_is_extensible, w') ∧
  perform plain_host 4 (T_apply VUndef []) (VLazy 0) w =
    Some (inr not_a_function, w).
Proof.
  intros w w'.
  assert (deferred w 0 0 "T" None) as Hd.
  { exists {| factory := Make 0 "T" None Ret; instance := VUndef;
              initialized := false |}.
    split; [vm_compute; reflexivity|]. split; reflexivity. }
  scope_of w 0 ltac:(fun sc =>
    destruct (placeholder_forwards_to_singleton plain_host 0 0 sc "T" None 0
                (VObj 0) w) as (H1 & H2 & H3 & _);
    [vm_compute; reflexivity|vm_compute; reflexivity|vm_compute; reflexivity
    |exact Hd|]).
  split; [|split].
  - refine (eq_trans (H1 (T_get "x" (VLazy 0)) eq_refl) _).
    vm_compute; reflexivity.
  - refine (eq_trans H2 _). vm_compute; reflexivity.
  - exact (H3 VUndef []).
Defined.

Lemma method_of_placeholder_sees_instance_witness :
  let w := snd (lazy (Make 0 "T" None Ret)
             (write_pool 0 "T" [VObj 0]
                (set_heap [∅]
                   (provide 0 "T" fresh_instance (Some (singleton_options true))
                      root_world)))) in
  perform plain_host 4 (T_apply (VLazy 0) []) (VWrap (VFun 3) 0) w =
  perform plain_host 3 (T_apply (VObj 0) []) (VFun 3)
    (upd_cell 0 (set_instance (VObj 0)) w).
Proof.
  intros w.
  scope_of w 0 ltac:(fun sc =>
    refine (eq_trans
              (method_of_placeholder_sees_instance plain_host 0 0 sc "T" None 0
                 (VObj 0) (VFun 3) (VLazy 0) [] w _ _ _ _) _));
    [vm_compute; reflexivity|vm_compute; reflexivity|vm_compute; reflexivity
    | |vm_compute; reflexivity].
  exists {| factory := Make 0 "T" None Ret; instance := VUndef;
            initialized := false |}.
  split; [vm_compute; reflexivity|]. split; reflexivity.
Defined.

Lemma placeholder_unusable_while_resolving_witness :
  let w := push 0 "A" (snd (lazy (Make 0 "A" None Ret) cycle_world)) in
  perform plain_host 100 T_isExtensible (VLazy 0) w = None ∧
  perform plain_host 100 T_preventExtensions (VLazy 0) w = None.
Proof.
  intros w.
  destruct (placeholder_unusable_while_resolving plain_host 0 "A" None w 0)
    as [H _].
  - scope_of w 0 ltac:(fun sc => exists sc).
    split; [vm_compute; reflexivity|]. split; [vm_compute; reflexivity|].
    split; [apply list_elem_of_here|vm_compute; reflexivity].
  - exists {| factory := Make 0 "A" None Ret; instance := VUndef;
              initialized := false |}.
    split; [vm_compute; reflexivity|]. split; reflexivity.
  - split; [exact (H 100 T_isExtensible eq_refl)
           |exact (H 100 T_preventExtensions eq_refl)].
Defined.

Lemma failed_construction_is_not_cached_witness :
  let w := provide 0 "T" (fun _ _ => Throw (Error "boom"))
             (Some (singleton_options true)) root_world in
  ∃ w1, make plain_host 3 0 "T" None w = Some (inr (Error "boom"), w1) ∧
        make plain_host 3 0 "T" None w1 = Some (inr (Error "boom"), w1) ∧
        cached w1 0 "T" = [].
Proof.
  intros w.
  scope_of root_world 0 ltac:(fun sc =>
    destruct (failed_construction_is_not_cached plain_host 0 0 sc "T"
                (Some (singleton_options true)) None (Error "boom") root_world)
    as (w1 & H1 & H2 & H3 & _);
    [vm_compute; reflexivity|vm_compute; reflexivity|apply not_elem_of_nil
    |vm_compute; reflexivity|]).
  exists w1. split; [exact H1|]. split; [exact H2|exact H3].
Defined.

Lemma alias_policy_caches_under_alias_witness :
  let w0 := provide 0 "B" (instance_of ∅) None root_world in
  let w := bind 0 (Some (singleton_options true)) "A" "B" None w0 in
  let w1 := write_pool 0 "A" [VObj 0] (set_heap [∅] w) in
  make plain_host 6 0 "A" None w = Some (inl (VObj 0), w1) ∧
  make plain_host 1 0 "A" None w1 = Some (inl (VObj 0), w1) ∧
  make plain_host 4 0 "B" None w1 = Some (inl (VObj 1), set_heap [∅; ∅] w1).
Proof.
  intros w0 w w1.
  scope_of w0 0 ltac:(fun sc =>
    destruct (alias_policy_caches_under_alias plain_host 0 0 sc "A" "B" None
                w0 ∅) as (H1 & H2 & H3 & _);
    [vm_compute; reflexivity|discriminate|discriminate|vm_compute; reflexivity
    |vm_compute; reflexivity|vm_compute; reflexivity|apply not_elem_of_nil
    |vm_compute; reflexivity|]).
  split; [exact H1|]. split; [exact H2|exact H3].
Defined.

Lemma rebinding_to_itself_keeps_alias_witness :
  let w0 := provide 0 "B" (instance_of ∅) None root_world in
  let w := bind 0 None "A" "A" None (bind 0 None "A" "B" None w0) in
  make plain_host 6 0 "A" None w = make plain_host 4 0 "B" None w.
Proof.
  intros w0 w.
  scope_of w0 0 ltac:(fun sc =>
    refine (rebinding_to_itself_keeps_alias plain_host 4 0 sc "A" "B" None None
              None w0 _ _ _));
    [vm_compute; reflexivity|discriminate|discriminate].
Defined.

Lemma missing_provider_names_the_class_witness :
  let dec := {| has_name := true; name_text := Some "Logger";
                fileName := "/home/app/src/logger.ts"; getStart := 120 |} in
  let type := ClassOrInterface (Some [dec]) in
  makePersistentTypeId "/home/app" type = "Logger@src/logger.ts:120" ∧
  missing_provider (makePersistentTypeId "/home/app" type) =
  Error "No provider for Logger".
Proof.
  intros dec type. split; [vm_compute; reflexivity|].
  refine (missing_provider_names_the_class "/home/app" [dec] dec [] _ _);
    vm_compute; reflexivity.
Defined.

Lemma declaration_ids_distinguish_witness :
  let d1 := {| has_name := true; name_text := Some "Logger";
               fileName := "/home/app/src/logger.ts"; getStart := 120 |} in
  let d2 := {| has_name := true; name_text := Some "Logger";
               fileName := "/home/app/src/logger.ts"; getStart := 348 |} in
  makePersistentDeclarationId "/home/app" d1 ≠
  makePersistentDeclarationId "/home/app" d2.
Proof.
  intros d1 d2 E.
  apply (proj1 (declaration_ids_distinguish "/home/app" d1 d2
                  eq_refl eq_refl)) in E.
  destruct E as (_ & _ & E). discriminate E.
Defined.
Lemma cached_instances_are_never_evicted_witness :
  let w := write_pool 0 "T" [VObj 1; VObj 0]
             (set_heap [∅; ∅]
                (provide 0 "T" fresh_instance (Some (pool_options 2)) root_world)) in
  let w' := write_pool 0 "T" [VObj 0; VObj 1] w in
  run plain_host 3 (Make 0 "T" None Ret) w = Some (inl (VObj 0), w') ∧
  VObj 1 ∈ cached w' 0 "T".
Proof.
  intros w w'.
  assert (run plain_host 3 (Make 0 "T" None Ret) w = Some (inl (VObj 0), w'))
    as Hrun by (vm_compute; reflexivity).
  split; [exact Hrun|].
  refine (cached_instances_are_never_evicted plain_host 3 (Make 0 "T" None Ret)
            w (inl (VObj 0)) w' 0 "T" (VObj 1) Hrun _).
  assert (cached w 0 "T" = [VObj 1; VObj 0]) as -> by (vm_compute; reflexivity).
  apply list_elem_of_here.
Defined.

Lemma registrations_are_never_withdrawn_witness :
  let w := provide 0 "T" fresh_instance None root_world in
  let p := Provide 0 "T" (instance_of ∅) (Some (singleton_options true))
             (Bind 0 None "T" "T" None (Ret VUndef)) in
  ∃ w' sc', run plain_host 3 p w = Some (inl VUndef, w') ∧
            scopes w' !! 0 = Some sc' ∧ is_Some (providers sc' !! "T").
Proof.
  intros w p.
  pose (w' := bind 0 None "T" "T" None
                (provide 0 "T" (instance_of ∅) (Some (singleton_options true)) w)).
  assert (run plain_host 3 p w = Some (inl VUndef, w')) as Hrun
    by (vm_compute; reflexivity).
  scope_of w 0 ltac:(fun sc =>
    destruct (registrations_are_never_withdrawn plain_host 3 p w (inl VUndef)
                w' 0 sc Hrun) as (sc' & Hsc' & Hp & _);
    [vm_compute; reflexivity|]).
  exists w', sc'. split; [exact Hrun|]. split; [exact Hsc'|].
  apply Hp. eexists. vm_compute; reflexivity.
Defined.
